(** * xiaojixing: audio-to-slide-video pipeline, server-side services

    A shallow embedding of the server services of the repository
    (processor.js, videoSynth.js, tts.js, llm.js, asr.js, imageGen.js and
    the background job of index.js) and the properties of the marker
    pipeline stated in the specification.

    Conventions.
    - A JavaScript string is its sequence of UTF-16 code units
      ([jsstring := list N]); [length] is the JS [.length].
    - JavaScript numbers that carry durations and times are modelled by
      exact rationals ([Q]); equalities between times are stated with
      [==] (equality "within floating-point tolerance" of the ideal value).
      Percentages are rounded from the exact quotient, so where the
      quotient is a tie the double computed by the program may round to
      the neighbouring integer (23 / 40 * 100 is 57.5 exactly and
      57.49999999999999 as a double).  Where the rounding of a time
      decides the outcome (the transcription window of a marker and its
      chunks) the module [Float64] repeats the computation with every
      operation rounded to the nearest double ([Doubles.round53]).
      Where a number can be [NaN] (the duration read by a probe) it is a
      [jsnum]; the duration of a synthesis response is kept as the
      service sent it, a number or a string ([LongSpeech]).
    - External boundaries (ffprobe, the speech, language-model and
      text-to-speech services, [JSON.parse], [toLowerCase]) are Section
      variables: every theorem holds for all their behaviours. *)

From Stdlib Require Import List Bool Arith NArith ZArith QArith Qround Qpower.
From Stdlib Require Import Lia Lqa.
From Stdlib Require Import Permutation Sorted.
Import ListNotations.

(* ===================================================================== *)
(** ** JavaScript strings *)
(* ===================================================================== *)

Module JS.

Definition jsstring := list N.

(** Code units of the characters the services test for. *)
Definition LF : N := 0xA.
Definition CJK_STOP : N := 0x3002.        (* 。 *)
Definition FW_EXCL : N := 0xFF01.         (* ！ *)
Definition FW_QUEST : N := 0xFF1F.        (* ？ *)
Definition FW_SEMI : N := 0xFF1B.         (* ； *)
Definition FW_COMMA : N := 0xFF0C.        (* ， *)
Definition COMMA : N := 0x2C.             (* , *)

(** [WhiteSpace] and [LineTerminator] code units removed by
    [String.prototype.trim]. *)
Definition is_ws (c : N) : bool :=
  ((9 <=? c) && (c <=? 13))%N || (c =? 32)%N || (c =? 0xA0)%N
  || (c =? 0x1680)%N || ((0x2000 <=? c) && (c <=? 0x200A))%N
  || (c =? 0x2028)%N || (c =? 0x2029)%N || (c =? 0x202F)%N
  || (c =? 0x205F)%N || (c =? 0x3000)%N || (c =? 0xFEFF)%N.

Fixpoint dropWhile (f : N -> bool) (s : jsstring) : jsstring :=
  match s with
  | [] => []
  | c :: t => if f c then dropWhile f t else s
  end.

Definition trimStart (s : jsstring) : jsstring := dropWhile is_ws s.
Definition trimEnd (s : jsstring) : jsstring := rev (dropWhile is_ws (rev s)).
Definition trim (s : jsstring) : jsstring := trimEnd (trimStart s).

(** JS truthiness of a string: non-empty. *)
Definition truthy (s : jsstring) : bool :=
  match s with [] => false | _ => true end.

Fixpoint prefixb (p s : jsstring) : bool :=
  match p, s with
  | [], _ => true
  | _ :: _, [] => false
  | a :: p', b :: s' => (a =? b)%N && prefixb p' s'
  end.

(** [s.includes(p)] *)
Fixpoint includes (s p : jsstring) : bool :=
  prefixb p s || match s with [] => false | _ :: t => includes t p end.

(** [s.split(/([...])/)] for a one-character class with a capture group:
    text pieces alternate with the captured separators. *)
Fixpoint split_keep (sep : N -> bool) (acc : jsstring) (s : jsstring)
  : list jsstring :=
  match s with
  | [] => [rev acc]
  | c :: t => if sep c then rev acc :: [c] :: split_keep sep [] t
              else split_keep sep (c :: acc) t
  end.

(** [s.split(/([...]+)/)]: as above, a maximal run of separators is one
    captured piece. *)
Fixpoint split_runs (sep : N -> bool) (inrun : bool) (acc : jsstring)
  (s : jsstring) : list jsstring :=
  match s with
  | [] => if inrun then [rev acc; []] else [rev acc]
  | c :: t =>
      if sep c then
        if inrun then split_runs sep true (c :: acc) t
        else rev acc :: split_runs sep true [c] t
      else
        if inrun then rev acc :: split_runs sep false [c] t
        else split_runs sep false (c :: acc) t
  end.

(** [arr.join(sep)] *)
Fixpoint join (sep : jsstring) (l : list jsstring) : jsstring :=
  match l with
  | [] => []
  | [x] => x
  | x :: t => x ++ sep ++ join sep t
  end.

(** [s.substring(a, b)] for [a <= b] (indices past the end are clamped). *)
Definition substring (s : jsstring) (a b : nat) : jsstring :=
  firstn (b - a)%nat (skipn a s).

(** Decimal digits of a natural number, as [String(n)] prints it. *)
Fixpoint digits_fuel (fuel n : nat) (acc : jsstring) : jsstring :=
  match fuel with
  | O => acc
  | S f =>
      let acc' := (N.of_nat (48 + n mod 10)%nat) :: acc in
      if (n / 10 =? 0)%nat then acc' else digits_fuel f (n / 10)%nat acc'
  end.
Definition nat_to_string (n : nat) : jsstring := digits_fuel (S n) n [].

(** ASCII-range [toLowerCase], used to run examples. *)
Definition lower_ascii (c : N) : N :=
  if ((0x41 <=? c) && (c <=? 0x5A))%N then (c + 32)%N else c.
Definition toLowerCaseASCII (s : jsstring) : jsstring := map lower_ascii s.

(** [Buffer.from(s, 'utf-8').length]: one byte below U+0080, two below
    U+0800, four for a surrogate pair, three otherwise (a lone surrogate
    is encoded as U+FFFD). *)
Definition is_high (c : N) : bool := ((0xD800 <=? c) && (c <=? 0xDBFF))%N.
Definition is_low (c : N) : bool := ((0xDC00 <=? c) && (c <=? 0xDFFF))%N.

Fixpoint utf8_length (s : jsstring) : nat :=
  match s with
  | [] => 0%nat
  | c :: t =>
      if (c <? 0x80)%N then (1 + utf8_length t)%nat
      else if (c <? 0x800)%N then (2 + utf8_length t)%nat
      else if is_high c then
        match t with
        | d :: t' => if is_low d then (4 + utf8_length t')%nat else (3 + utf8_length t)%nat
        | [] => 3%nat
        end
      else (3 + utf8_length t)%nat
  end.

End JS.
Import JS.

(* ===================================================================== *)
(** ** Completions: values, thrown errors, try/catch *)
(* ===================================================================== *)

Module Completion.

Record error := mkError { message : jsstring }.

Inductive completion (A : Type) : Type :=
| Normal (a : A)
| Throw (e : error).
Arguments Normal {A} a.
Arguments Throw {A} e.

Definition bind {A B} (c : completion A) (k : A -> completion B) : completion B :=
  match c with
  | Normal a => k a
  | Throw e => Throw e
  end.

(** [try { c } catch (e) { h(e) }] *)
Definition try_catch {A} (c : completion A) (h : error -> completion A)
  : completion A :=
  match c with
  | Normal a => Normal a
  | Throw e => h e
  end.

(** A JavaScript number: a rational or [NaN]. *)
Inductive jsnum := NaN | Num (q : Q).

End Completion.
Import Completion.

(* ===================================================================== *)
(** ** videoSynth.js: subtitle timing and subtitle collection *)
(* ===================================================================== *)

Module VideoSynth.

(** A timed subtitle entry [{text, start, duration}]. *)
Record cue := mkCue { text : jsstring; start : Q; duration : Q }.

(** A cue as the script author (the language model) supplies it: the
    numeric fields may be missing. *)
Record author_cue := mkAuthorCue {
  a_text : jsstring; a_start : option Q; a_duration : option Q }.

(** [Math.max] and [Math.min] on (non-NaN) numbers. *)
Definition js_max (a b : Q) : Q := if Qle_bool a b then b else a.
Definition js_min (a b : Q) : Q := if Qle_bool a b then a else b.

(** Case analysis on every [Math.max] and [Math.min] of the goal: each
    comparison becomes a hypothesis for linear arithmetic. *)
Ltac split_minmax :=
  unfold js_max, js_min in *;
  repeat match goal with
    | |- context [Qle_bool ?a ?b] =>
        let E := fresh "Ecmp" in
        let H := fresh "Hcmp" in
        destruct (Qle_bool a b) eqn:E;
        [ apply Qle_bool_iff in E
        | assert (H : b < a)
            by (apply Qnot_le_lt; intro H; apply Qle_bool_iff in H; congruence);
          clear E ]
    end.

Definition Qnat (n : nat) : Q := inject_Z (Z.of_nat n).

(** The character class [。！？；\n]. *)
Definition is_sentence_end (c : N) : bool :=
  (c =? CJK_STOP)%N || (c =? FW_EXCL)%N || (c =? FW_QUEST)%N
  || (c =? FW_SEMI)%N || (c =? LF)%N.

(** The character class [，,]. *)
Definition is_comma (c : N) : bool := (c =? FW_COMMA)%N || (c =? COMMA)%N.

(** [s => s.trim().length > 0] *)
Definition nonblank (s : jsstring) : bool := (0 <? length (trim s))%nat.

Definition str_eqb (a b : jsstring) : bool :=
  if list_eq_dec N.eq_dec a b then true else false.

(** The loop over [sentences] that merges text with its closing
    punctuation; [current] is [currentSegment], the result lists the
    pushed segments in order, followed by the trailing segment. *)
Fixpoint merge_sentences (sentences : list jsstring) (current : jsstring)
  : list jsstring :=
  match sentences with
  | [] => if truthy (trim current) then [trim current] else []
  | part :: rest =>
      if existsb is_sentence_end part then
        if truthy current then
          (trim current ++ (if str_eqb part [LF] then [] else part))
            :: merge_sentences rest []
        else merge_sentences rest current
      else merge_sentences rest (current ++ part)
  end.

Definition script_segments (script : jsstring) : list jsstring :=
  merge_sentences (filter nonblank (split_keep is_sentence_end [] script)) [].

(** The loop of [splitByComma]; [current] is the accumulated clause. *)
Fixpoint comma_loop (maxLength : nat) (parts : list jsstring)
  (current : jsstring) : list jsstring :=
  match parts with
  | [] => if truthy (trim current) then [trim current] else []
  | part :: rest =>
      if existsb is_comma part then
        let current := current ++ part in
        if Qle_bool (Qnat maxLength * (7 # 10)) (Qnat (length current)) then
          trim current :: comma_loop maxLength rest []
        else comma_loop maxLength rest current
      else
        if (maxLength <? length current + length part)%nat then
          (if truthy (trim current) then [trim current] else [])
            ++ comma_loop maxLength rest part
        else comma_loop maxLength rest (current ++ part)
  end.

Definition ELLIPSIS : jsstring := [0x2E; 0x2E; 0x2E]%N.

Definition splitByComma (text : jsstring) (maxLength : nat) : list jsstring :=
  let parts := filter nonblank (split_keep is_comma [] text) in
  let result := comma_loop maxLength parts [] in
  if (0 <? length result)%nat then result
  else [substring text 0 maxLength ++ ELLIPSIS].

(** The cues pushed for the sub-parts of a comma-split segment, from
    sub-index [subIndex] on. *)
Fixpoint sub_cues (currentTime subDuration : Q) (subIndex : nat)
  (subParts : list jsstring) : list cue :=
  match subParts with
  | [] => []
  | subPart :: rest =>
      mkCue subPart (currentTime + Qnat subIndex * subDuration)
            (js_max 1 subDuration)
        :: sub_cues currentTime subDuration (S subIndex) rest
  end.

(** The duration allotted to segment [index] of [n]. *)
Definition segment_duration (totalDuration : Q) (totalChars n index : nat)
  (segment : jsstring) (currentTime : Q) : Q :=
  let charRatio := Qnat (length segment) / Qnat totalChars in
  let duration := totalDuration * charRatio in
  let duration := js_max (3 # 2) (js_min duration 8) in
  if (index =? n - 1)%nat then js_max (3 # 2) (totalDuration - currentTime)
  else duration.

(** The cues pushed for one segment. *)
Definition segment_cues (segment : jsstring) (currentTime duration : Q)
  : list cue :=
  if (25 <? length segment)%nat then
    let subParts := splitByComma segment 25 in
    let subDuration := duration / Qnat (length subParts) in
    sub_cues currentTime subDuration 0 subParts
  else [mkCue segment currentTime duration].

(** [segments.forEach((segment, index) => ...)], from [index] on. *)
Fixpoint forEach_segment (totalDuration : Q) (totalChars n : nat)
  (index : nat) (segments : list jsstring) (currentTime : Q) : list cue :=
  match segments with
  | [] => []
  | segment :: rest =>
      let duration :=
        segment_duration totalDuration totalChars n index segment currentTime in
      segment_cues segment currentTime duration
        ++ forEach_segment totalDuration totalChars n (S index) rest
             (currentTime + duration)
  end.

(** [generateSubtitlesFromScript] on a total duration that is a number;
    [Timer.generateSubtitlesFromScript] below also takes [NaN] and
    agrees with this one on every number. *)
Definition generateSubtitlesFromScript (script : jsstring) (totalDuration : Q)
  : list cue :=
  if negb (truthy script) || Qle_bool totalDuration 0 then []
  else
    let segments := script_segments script in
    if (length segments =? 0)%nat then []
    else
      let totalChars := fold_left (fun sum seg => (sum + length seg)%nat) segments 0%nat in
      if (totalChars =? 0)%nat then []
      else forEach_segment totalDuration totalChars (length segments) 0 segments 0.

(** *** Subtitle collection in [synthesizeVideo] *)

(** The slide data handed to [synthesizeVideo]. *)
Record video_slide := mkVideoSlide {
  vs_script : jsstring;
  vs_subtitles : option (list author_cue);
  vs_subtitle : jsstring }.

(** [sub.duration || 2] *)
Definition duration_or_2 (sub : author_cue) : Q :=
  match a_duration sub with
  | Some d => if Qeq_bool d 0 then 2 else d
  | None => 2
  end.

Definition totalSubDuration (subs : list author_cue) : Q :=
  fold_left (fun sum sub => sum + duration_or_2 sub) subs 0.

Definition timeScale (subs : list author_cue) (resultDuration : Q) : Q :=
  let total := totalSubDuration subs in
  if Qle_bool total 0 then 1 else resultDuration / total.

(** [slide.subtitles.forEach(sub => ...)] with its running [subCurrentTime]. *)
Fixpoint rescale_loop (scale currentTime subCurrentTime : Q)
  (subs : list author_cue) : list cue :=
  match subs with
  | [] => []
  | sub :: rest =>
      let scaledDuration := duration_or_2 sub * scale in
      mkCue (a_text sub) (currentTime + subCurrentTime) scaledDuration
        :: rescale_loop scale currentTime (subCurrentTime + scaledDuration) rest
  end.

Definition rescaled_cues (subs : list author_cue) (currentTime resultDuration : Q)
  : list cue :=
  rescale_loop (timeScale subs resultDuration) currentTime 0 subs.

Definition shift_cue (currentTime : Q) (sub : cue) : cue :=
  mkCue (text sub) (currentTime + start sub) (duration sub).

(** The cues one slide contributes to the burned-in track. *)
Definition slide_cues (slide : video_slide) (currentTime resultDuration : Q)
  : list cue :=
  if truthy (vs_script slide) then
    map (shift_cue currentTime)
        (generateSubtitlesFromScript (vs_script slide) resultDuration)
  else
    match vs_subtitles slide with
    | Some (sub :: subs) => rescaled_cues (sub :: subs) currentTime resultDuration
    | _ =>
        if truthy (vs_subtitle slide)
        then [mkCue (vs_subtitle slide) currentTime resultDuration]
        else []
    end.

(** The slide loop of [synthesizeVideo]: each slide comes with the
    outcome of [createSlideVideo] (its realized duration, or a rejection,
    which is rethrown). Returns the subtitle track and the final
    [currentTime]. *)
Fixpoint collect_subtitles (slides : list (video_slide * completion Q))
  (currentTime : Q) (subtitles : list cue) : completion (list cue * Q) :=
  match slides with
  | [] => Normal (subtitles, currentTime)
  | (slide, clip) :: rest =>
      match clip with
      | Throw e => Throw e
      | Normal resultDuration =>
          collect_subtitles rest (currentTime + resultDuration)
            (subtitles ++ slide_cues slide currentTime resultDuration)
      end
  end.

(** *** Duration probing *)

Section Probe.

(** [execSync('ffprobe ... "path"', {encoding: 'utf-8'})]: the printed
    output, or a thrown error. *)
Variable ffprobe : jsstring -> completion jsstring.
Variable parseFloat : jsstring -> jsnum.

(** The module-private [getAudioDuration] of videoSynth.js. *)
Definition getAudioDuration (audioPath : jsstring) : completion jsnum :=
  try_catch
    (bind (ffprobe audioPath) (fun output => Normal (parseFloat (trim output))))
    (fun _ => Normal (Num 5)).

End Probe.

End VideoSynth.

(* ===================================================================== *)
(** ** llm.js: image prompts and the slide script *)
(* ===================================================================== *)

Module Llm.

Definition ZOOTOPIA_CN : jsstring := [0x75AF; 0x72C2; 0x52A8; 0x7269; 0x57CE]%N.
Definition ZOOTOPIA_EN : jsstring :=
  [0x7A; 0x6F; 0x6F; 0x74; 0x6F; 0x70; 0x69; 0x61]%N.
(** '疯狂动物城风格插图，迪士尼皮克斯画质，朱迪兔子在温馨明亮的教室里' *)
Definition DEFAULT_PROMPT : jsstring :=
  [0x75AF; 0x72C2; 0x52A8; 0x7269; 0x57CE; 0x98CE; 0x683C; 0x63D2; 0x56FE;
   0xFF0C; 0x8FEA; 0x58EB; 0x5C3C; 0x76AE; 0x514B; 0x65AF; 0x753B; 0x8D28;
   0xFF0C; 0x6731; 0x8FEA; 0x5154; 0x5B50; 0x5728; 0x6E29; 0x99A8; 0x660E;
   0x4EAE; 0x7684; 0x6559; 0x5BA4; 0x91CC]%N.
(** '疯狂动物城风格插图，' *)
Definition STYLE_PREFIX : jsstring :=
  [0x75AF; 0x72C2; 0x52A8; 0x7269; 0x57CE; 0x98CE; 0x683C; 0x63D2; 0x56FE;
   0xFF0C]%N.

Section Normalize.

Variable toLowerCase : jsstring -> jsstring.

Definition normalizeImagePrompt (prompt : jsstring) : jsstring :=
  if negb (truthy prompt) then DEFAULT_PROMPT
  else if negb (includes prompt ZOOTOPIA_CN)
          && negb (includes (toLowerCase prompt) ZOOTOPIA_EN)
       then STYLE_PREFIX ++ prompt
       else prompt.

(** A prompt names the required visual style when it mentions it in
    Chinese or (in any letter case) in English. *)
Definition names_style (prompt : jsstring) : bool :=
  includes prompt ZOOTOPIA_CN || includes (toLowerCase prompt) ZOOTOPIA_EN.

End Normalize.

(** *** Parsing the script out of the model's response *)

(** A value produced by [JSON.parse]. *)
#[local] Set Warnings "-register-all".
Inductive json :=
| JNull
| JBool (b : bool)
| JNum (q : Q)
| JStr (s : jsstring)
| JArr (items : list json)
| JObj (fields : list (jsstring * json)).

(** JavaScript truthiness. *)
Definition js_truthy (v : json) : bool :=
  match v with
  | JNull => false
  | JBool b => b
  | JNum q => negb (Qeq_bool q 0)
  | JStr s => truthy s
  | JArr _ | JObj _ => true
  end.

Fixpoint assoc (key : jsstring) (fields : list (jsstring * json)) : option json :=
  match fields with
  | [] => None
  | (k, v) :: rest => if VideoSynth.str_eqb k key then Some v else assoc key rest
  end.

(** 'TypeError' *)
Definition TypeError : error :=
  mkError [0x54; 0x79; 0x70; 0x65; 0x45; 0x72; 0x72; 0x6F; 0x72]%N.

(** [v.key] for the keys read below (none of them is a property of the
    string, array, number or boolean prototypes): [None] is [undefined];
    reading a property of [null] throws. *)
Definition get (v : json) (key : jsstring) : completion (option json) :=
  match v with
  | JNull => Throw TypeError
  | JObj fields => Normal (assoc key fields)
  | _ => Normal None
  end.

(** [a || b] where [a] may be [undefined]. *)
Definition or_else (a : option json) (b : json) : json :=
  match a with
  | Some v => if js_truthy v then v else b
  | None => b
  end.

Definition K_SLIDES : jsstring := [0x73; 0x6C; 0x69; 0x64; 0x65; 0x73]%N.
Definition K_TITLE : jsstring := [0x74; 0x69; 0x74; 0x6C; 0x65]%N.
Definition K_SCRIPT : jsstring := [0x73; 0x63; 0x72; 0x69; 0x70; 0x74]%N.
Definition K_IMAGEPROMPT : jsstring := [0x69; 0x6D; 0x61; 0x67; 0x65; 0x50; 0x72; 0x6F; 0x6D; 0x70; 0x74]%N.
Definition K_IMAGE_PROMPT : jsstring := [0x69; 0x6D; 0x61; 0x67; 0x65; 0x5F; 0x70; 0x72; 0x6F; 0x6D; 0x70; 0x74]%N.
Definition K_SUBTITLE : jsstring := [0x73; 0x75; 0x62; 0x74; 0x69; 0x74; 0x6C; 0x65]%N.
Definition K_SUBTITLES : jsstring := [0x73; 0x75; 0x62; 0x74; 0x69; 0x74; 0x6C; 0x65; 0x73]%N.
(** The key [slides] between double quotes. *)
Definition QUOTED_SLIDES : jsstring := [0x22; 0x73; 0x6C; 0x69; 0x64; 0x65; 0x73; 0x22]%N.
Definition LBRACE : N := 0x7B.
Definition RBRACE : N := 0x7D.
Definition LBRACKET : N := 0x5B.
Definition RBRACKET : N := 0x5D.
(** '无法解析 LLM 响应' *)
Definition CANNOT_PARSE : jsstring := [0x65E0; 0x6CD5; 0x89E3; 0x6790; 0x20; 0x4C; 0x4C; 0x4D; 0x20; 0x54CD; 0x5E94]%N.
(** '第' and '页' *)
Definition PAGE_PRE : jsstring := [0x7B2C]%N.
Definition PAGE_POST : jsstring := [0x9875]%N.

(** The suffix of [s] that starts at the first code unit satisfying [p],
    and the prefix that ends at the last one (empty when there is none). *)
Definition from_first (p : N -> bool) (s : jsstring) : jsstring :=
  dropWhile (fun x => negb (p x)) s.
Definition through_last (p : N -> bool) (s : jsstring) : jsstring :=
  rev (from_first p (rev s)).

(** The match of the first pattern: from the first opening brace to the
    last closing brace, with the quoted key [slides] in between. *)
Definition match_object (response : jsstring) : option jsstring :=
  match from_first (N.eqb LBRACE) response with
  | [] => None
  | brace :: body =>
      let m := through_last (N.eqb RBRACE) body in
      if includes m QUOTED_SLIDES then Some (brace :: m) else None
  end.

(** The match of the second pattern: from the first opening bracket to
    the last closing bracket. *)
Definition match_array (response : jsstring) : option jsstring :=
  match from_first (N.eqb LBRACKET) response with
  | [] => None
  | bracket :: body =>
      match through_last (N.eqb RBRACKET) body with
      | [] => None
      | m => Some (bracket :: m)
      end
  end.

(** A comma followed by optional white space and a closing brace or
    bracket is dropped. *)
Definition closes (t : jsstring) : bool :=
  match dropWhile is_ws t with
  | x :: _ => (x =? RBRACE)%N || (x =? RBRACKET)%N
  | [] => false
  end.

Fixpoint strip_trailing_commas (s : jsstring) : jsstring :=
  match s with
  | [] => []
  | c :: t =>
      if (c =? COMMA)%N && closes t then strip_trailing_commas t
      else c :: strip_trailing_commas t
  end.

(** Every line feed becomes a backslash followed by the letter n. *)
Definition escape_newlines (s : jsstring) : jsstring :=
  flat_map (fun c => if (c =? LF)%N then [0x5C; 0x6E]%N else [c]) s.

Definition fixJsonString (str : jsstring) : jsstring :=
  let opens c := (c =? LBRACE)%N || (c =? LBRACKET)%N in
  let closes_ c := (c =? RBRACE)%N || (c =? RBRACKET)%N in
  let jsonStr := if existsb opens str then from_first opens str else str in
  let jsonStr :=
    if existsb closes_ jsonStr then through_last closes_ jsonStr else jsonStr in
  escape_newlines (strip_trailing_commas jsonStr).

(** A slide of the returned script; [ss_subtitles] is [None] for
    [undefined]. *)
Record script_slide := mkScriptSlide {
  ss_title : json;
  ss_script : json;
  ss_imagePrompt : json;
  ss_subtitle : json;
  ss_subtitles : option json }.

Record ppt_script := mkScript { slides : list script_slide }.

(** `课上这个${kp}你没太听懂是吧，没关系，我来给你讲讲。咱们一起把这个知识点搞清楚。` *)
Definition D1_SCRIPT : list jsstring :=
  [[0x8BFE; 0x4E0A; 0x8FD9; 0x4E2A]%N;
   [0x4F60; 0x6CA1; 0x592A; 0x542C; 0x61C2; 0x662F; 0x5427; 0xFF0C; 0x6CA1;
    0x5173; 0x7CFB; 0xFF0C; 0x6211; 0x6765; 0x7ED9; 0x4F60; 0x8BB2; 0x8BB2;
    0x3002; 0x54B1; 0x4EEC; 0x4E00; 0x8D77; 0x628A; 0x8FD9; 0x4E2A; 0x77E5;
    0x8BC6; 0x70B9; 0x641E; 0x6E05; 0x695A; 0x3002]%N].

(** `疯狂动物城风格教学插图，迪士尼皮克斯画质：画面以绿色大黑板为核心，占据画面90%以上，黑板上用粉笔清晰写着大标题${kp}（中文），下面列出本节课要复习的重点和要点。朱迪兔子老师只在画面边缘简单出现，没有其他动物角色` *)
Definition D1_IMAGE : list jsstring :=
  [[0x75AF; 0x72C2; 0x52A8; 0x7269; 0x57CE; 0x98CE; 0x683C; 0x6559; 0x5B66;
    0x63D2; 0x56FE; 0xFF0C; 0x8FEA; 0x58EB; 0x5C3C; 0x76AE; 0x514B; 0x65AF;
    0x753B; 0x8D28; 0xFF1A; 0x753B; 0x9762; 0x4EE5; 0x7EFF; 0x8272; 0x5927;
    0x9ED1; 0x677F; 0x4E3A; 0x6838; 0x5FC3; 0xFF0C; 0x5360; 0x636E; 0x753B;
    0x9762; 0x39; 0x30; 0x25; 0x4EE5; 0x4E0A; 0xFF0C; 0x9ED1; 0x677F; 0x4E0A;
    0x7528; 0x7C89; 0x7B14; 0x6E05; 0x6670; 0x5199; 0x7740; 0x5927; 0x6807;
    0x9898; 0x22]%N;
   [0x22; 0xFF08; 0x4E2D; 0x6587; 0xFF09; 0xFF0C; 0x4E0B; 0x9762; 0x5217;
    0x51FA; 0x672C; 0x8282; 0x8BFE; 0x8981; 0x590D; 0x4E60; 0x7684; 0x91CD;
    0x70B9; 0x548C; 0x8981; 0x70B9; 0x3002; 0x6731; 0x8FEA; 0x5154; 0x5B50;
    0x8001; 0x5E08; 0x53EA; 0x5728; 0x753B; 0x9762; 0x8FB9; 0x7F18; 0x7B80;
    0x5355; 0x51FA; 0x73B0; 0xFF0C; 0x6CA1; 0x6709; 0x5176; 0x4ED6; 0x52A8;
    0x7269; 0x89D2; 0x8272]%N].

(** `复习：${kp}` *)
Definition D1_SUBTITLE : list jsstring :=
  [[0x590D; 0x4E60; 0xFF1A]%N;
   []].

(** '知识讲解' *)
Definition D2_TITLE : jsstring :=
  [0x77E5; 0x8BC6; 0x8BB2; 0x89E3]%N.

(** `让我们来回顾一下${kp}的基本概念和核心内容。首先，我们需要理解它的定义和基本特征。` *)
Definition D2_SCRIPT : list jsstring :=
  [[0x8BA9; 0x6211; 0x4EEC; 0x6765; 0x56DE; 0x987E; 0x4E00; 0x4E0B]%N;
   [0x7684; 0x57FA; 0x672C; 0x6982; 0x5FF5; 0x548C; 0x6838; 0x5FC3; 0x5185;
    0x5BB9; 0x3002; 0x9996; 0x5148; 0xFF0C; 0x6211; 0x4EEC; 0x9700; 0x8981;
    0x7406; 0x89E3; 0x5B83; 0x7684; 0x5B9A; 0x4E49; 0x548C; 0x57FA; 0x672C;
    0x7279; 0x5F81; 0x3002]%N].

(** `疯狂动物城风格教学插图，迪士尼皮克斯画质：画面以绿色大黑板为核心，占据画面90%以上，黑板上用粉笔清晰写着${kp}的定义、特征和核心要点（中文），旁边画着示意图和标注。朱迪兔子老师只在画面边缘简单出现，没有其他动物角色` *)
Definition D2_IMAGE : list jsstring :=
  [[0x75AF; 0x72C2; 0x52A8; 0x7269; 0x57CE; 0x98CE; 0x683C; 0x6559; 0x5B66;
    0x63D2; 0x56FE; 0xFF0C; 0x8FEA; 0x58EB; 0x5C3C; 0x76AE; 0x514B; 0x65AF;
    0x753B; 0x8D28; 0xFF1A; 0x753B; 0x9762; 0x4EE5; 0x7EFF; 0x8272; 0x5927;
    0x9ED1; 0x677F; 0x4E3A; 0x6838; 0x5FC3; 0xFF0C; 0x5360; 0x636E; 0x753B;
    0x9762; 0x39; 0x30; 0x25; 0x4EE5; 0x4E0A; 0xFF0C; 0x9ED1; 0x677F; 0x4E0A;
    0x7528; 0x7C89; 0x7B14; 0x6E05; 0x6670; 0x5199; 0x7740; 0x22]%N;
   [0x22; 0x7684; 0x5B9A; 0x4E49; 0x3001; 0x7279; 0x5F81; 0x548C; 0x6838;
    0x5FC3; 0x8981; 0x70B9; 0xFF08; 0x4E2D; 0x6587; 0xFF09; 0xFF0C; 0x65C1;
    0x8FB9; 0x753B; 0x7740; 0x793A; 0x610F; 0x56FE; 0x548C; 0x6807; 0x6CE8;
    0x3002; 0x6731; 0x8FEA; 0x5154; 0x5B50; 0x8001; 0x5E08; 0x53EA; 0x5728;
    0x753B; 0x9762; 0x8FB9; 0x7F18; 0x7B80; 0x5355; 0x51FA; 0x73B0; 0xFF0C;
    0x6CA1; 0x6709; 0x5176; 0x4ED6; 0x52A8; 0x7269; 0x89D2; 0x8272]%N].

(** '核心概念' *)
Definition D2_SUBTITLE : jsstring :=
  [0x6838; 0x5FC3; 0x6982; 0x5FF5]%N.

(** '详细解析' *)
Definition D3_TITLE : jsstring :=
  [0x8BE6; 0x7EC6; 0x89E3; 0x6790]%N.

(** `接下来，我们深入分析${kp}的具体内容和应用方法。让我们逐步理解其中的关键要素。` *)
Definition D3_SCRIPT : list jsstring :=
  [[0x63A5; 0x4E0B; 0x6765; 0xFF0C; 0x6211; 0x4EEC; 0x6DF1; 0x5165; 0x5206;
    0x6790]%N;
   [0x7684; 0x5177; 0x4F53; 0x5185; 0x5BB9; 0x548C; 0x5E94; 0x7528; 0x65B9;
    0x6CD5; 0x3002; 0x8BA9; 0x6211; 0x4EEC; 0x9010; 0x6B65; 0x7406; 0x89E3;
    0x5176; 0x4E2D; 0x7684; 0x5173; 0x952E; 0x8981; 0x7D20; 0x3002]%N].

(** `疯狂动物城风格教学插图，迪士尼皮克斯画质：画面以绿色大黑板为核心，占据画面90%以上，黑板上详细列出${kp}的各个要素、步骤或分类（中文），用粉笔清晰标注。朱迪兔子老师只在画面边缘简单出现，没有其他动物角色` *)
Definition D3_IMAGE : list jsstring :=
  [[0x75AF; 0x72C2; 0x52A8; 0x7269; 0x57CE; 0x98CE; 0x683C; 0x6559; 0x5B66;
    0x63D2; 0x56FE; 0xFF0C; 0x8FEA; 0x58EB; 0x5C3C; 0x76AE; 0x514B; 0x65AF;
    0x753B; 0x8D28; 0xFF1A; 0x753B; 0x9762; 0x4EE5; 0x7EFF; 0x8272; 0x5927;
    0x9ED1; 0x677F; 0x4E3A; 0x6838; 0x5FC3; 0xFF0C; 0x5360; 0x636E; 0x753B;
    0x9762; 0x39; 0x30; 0x25; 0x4EE5; 0x4E0A; 0xFF0C; 0x9ED1; 0x677F; 0x4E0A;
    0x8BE6; 0x7EC6; 0x5217; 0x51FA]%N;
   [0x7684; 0x5404; 0x4E2A; 0x8981; 0x7D20; 0x3001; 0x6B65; 0x9AA4; 0x6216;
    0x5206; 0x7C7B; 0xFF08; 0x4E2D; 0x6587; 0xFF09; 0xFF0C; 0x7528; 0x7C89;
    0x7B14; 0x6E05; 0x6670; 0x6807; 0x6CE8; 0x3002; 0x6731; 0x8FEA; 0x5154;
    0x5B50; 0x8001; 0x5E08; 0x53EA; 0x5728; 0x753B; 0x9762; 0x8FB9; 0x7F18;
    0x7B80; 0x5355; 0x51FA; 0x73B0; 0xFF0C; 0x6CA1; 0x6709; 0x5176; 0x4ED6;
    0x52A8; 0x7269; 0x89D2; 0x8272]%N].

(** '深入理解' *)
Definition D3_SUBTITLE : jsstring :=
  [0x6DF1; 0x5165; 0x7406; 0x89E3]%N.

(** '举例说明' *)
Definition D4_TITLE : jsstring :=
  [0x4E3E; 0x4F8B; 0x8BF4; 0x660E]%N.

(** `为了更好地理解${kp}，我们来看一些具体的例子。这些例子可以帮助我们掌握这个概念的实际应用。` *)
Definition D4_SCRIPT : list jsstring :=
  [[0x4E3A; 0x4E86; 0x66F4; 0x597D; 0x5730; 0x7406; 0x89E3]%N;
   [0xFF0C; 0x6211; 0x4EEC; 0x6765; 0x770B; 0x4E00; 0x4E9B; 0x5177; 0x4F53;
    0x7684; 0x4F8B; 0x5B50; 0x3002; 0x8FD9; 0x4E9B; 0x4F8B; 0x5B50; 0x53EF;
    0x4EE5; 0x5E2E; 0x52A9; 0x6211; 0x4EEC; 0x638C; 0x63E1; 0x8FD9; 0x4E2A;
    0x6982; 0x5FF5; 0x7684; 0x5B9E; 0x9645; 0x5E94; 0x7528; 0x3002]%N].

(** `疯狂动物城风格教学插图，迪士尼皮克斯画质：画面以绿色大黑板为核心，占据画面90%以上，黑板上画着具体的例子和解题步骤（中文），用粉笔清晰标注。朱迪兔子老师只在画面边缘简单出现，没有其他动物角色` *)
Definition D4_IMAGE : list jsstring :=
  [[0x75AF; 0x72C2; 0x52A8; 0x7269; 0x57CE; 0x98CE; 0x683C; 0x6559; 0x5B66;
    0x63D2; 0x56FE; 0xFF0C; 0x8FEA; 0x58EB; 0x5C3C; 0x76AE; 0x514B; 0x65AF;
    0x753B; 0x8D28; 0xFF1A; 0x753B; 0x9762; 0x4EE5; 0x7EFF; 0x8272; 0x5927;
    0x9ED1; 0x677F; 0x4E3A; 0x6838; 0x5FC3; 0xFF0C; 0x5360; 0x636E; 0x753B;
    0x9762; 0x39; 0x30; 0x25; 0x4EE5; 0x4E0A; 0xFF0C; 0x9ED1; 0x677F; 0x4E0A;
    0x753B; 0x7740; 0x5177; 0x4F53; 0x7684; 0x4F8B; 0x5B50; 0x548C; 0x89E3;
    0x9898; 0x6B65; 0x9AA4; 0xFF08; 0x4E2D; 0x6587; 0xFF09; 0xFF0C; 0x7528;
    0x7C89; 0x7B14; 0x6E05; 0x6670; 0x6807; 0x6CE8; 0x3002; 0x6731; 0x8FEA;
    0x5154; 0x5B50; 0x8001; 0x5E08; 0x53EA; 0x5728; 0x753B; 0x9762; 0x8FB9;
    0x7F18; 0x7B80; 0x5355; 0x51FA; 0x73B0; 0xFF0C; 0x6CA1; 0x6709; 0x5176;
    0x4ED6; 0x52A8; 0x7269; 0x89D2; 0x8272]%N].

(** '实例分析' *)
Definition D4_SUBTITLE : jsstring :=
  [0x5B9E; 0x4F8B; 0x5206; 0x6790]%N.

(** '课堂小结' *)
Definition D5_TITLE : jsstring :=
  [0x8BFE; 0x5802; 0x5C0F; 0x7ED3]%N.

(** `好了，${kp}的主要内容就是这些。现在应该清楚多了吧？有什么不明白的随时问我哈。` *)
Definition D5_SCRIPT : list jsstring :=
  [[0x597D; 0x4E86; 0xFF0C]%N;
   [0x7684; 0x4E3B; 0x8981; 0x5185; 0x5BB9; 0x5C31; 0x662F; 0x8FD9; 0x4E9B;
    0x3002; 0x73B0; 0x5728; 0x5E94; 0x8BE5; 0x6E05; 0x695A; 0x591A; 0x4E86;
    0x5427; 0xFF1F; 0x6709; 0x4EC0; 0x4E48; 0x4E0D; 0x660E; 0x767D; 0x7684;
    0x968F; 0x65F6; 0x95EE; 0x6211; 0x54C8; 0x3002]%N].

(** `疯狂动物城风格教学插图，迪士尼皮克斯画质：画面以绿色大黑板为核心，占据画面90%以上，黑板上画着知识点总结的思维导图或要点列表（中文），中心是${kp}，周围连接着关键内容。朱迪兔子老师只在画面边缘简单出现，没有其他动物角色` *)
Definition D5_IMAGE : list jsstring :=
  [[0x75AF; 0x72C2; 0x52A8; 0x7269; 0x57CE; 0x98CE; 0x683C; 0x6559; 0x5B66;
    0x63D2; 0x56FE; 0xFF0C; 0x8FEA; 0x58EB; 0x5C3C; 0x76AE; 0x514B; 0x65AF;
    0x753B; 0x8D28; 0xFF1A; 0x753B; 0x9762; 0x4EE5; 0x7EFF; 0x8272; 0x5927;
    0x9ED1; 0x677F; 0x4E3A; 0x6838; 0x5FC3; 0xFF0C; 0x5360; 0x636E; 0x753B;
    0x9762; 0x39; 0x30; 0x25; 0x4EE5; 0x4E0A; 0xFF0C; 0x9ED1; 0x677F; 0x4E0A;
    0x753B; 0x7740; 0x77E5; 0x8BC6; 0x70B9; 0x603B; 0x7ED3; 0x7684; 0x601D;
    0x7EF4; 0x5BFC; 0x56FE; 0x6216; 0x8981; 0x70B9; 0x5217; 0x8868; 0xFF08;
    0x4E2D; 0x6587; 0xFF09; 0xFF0C; 0x4E2D; 0x5FC3; 0x662F; 0x22]%N;
   [0x22; 0xFF0C; 0x5468; 0x56F4; 0x8FDE; 0x63A5; 0x7740; 0x5173; 0x952E;
    0x5185; 0x5BB9; 0x3002; 0x6731; 0x8FEA; 0x5154; 0x5B50; 0x8001; 0x5E08;
    0x53EA; 0x5728; 0x753B; 0x9762; 0x8FB9; 0x7F18; 0x7B80; 0x5355; 0x51FA;
    0x73B0; 0xFF0C; 0x6CA1; 0x6709; 0x5176; 0x4ED6; 0x52A8; 0x7269; 0x89D2;
    0x8272]%N].

(** `${kp} - 总结回顾` *)
Definition D5_SUBTITLE : list jsstring :=
  [[];
   [0x20; 0x2D; 0x20; 0x603B; 0x7ED3; 0x56DE; 0x987E]%N].

(** A template literal whose only placeholder is the knowledge point. *)
Definition template (knowledgePoint : jsstring) (pieces : list jsstring)
  : jsstring :=
  join knowledgePoint pieces.

Definition default_slide (t s i c : jsstring) : script_slide :=
  mkScriptSlide (JStr t) (JStr s) (JStr i) (JStr c) None.

Definition generateDefaultScript (knowledgePoint summary : jsstring)
  : ppt_script :=
  mkScript [
    default_slide
      (knowledgePoint)
      (template knowledgePoint D1_SCRIPT)
      (template knowledgePoint D1_IMAGE)
      (template knowledgePoint D1_SUBTITLE);
    default_slide
      (D2_TITLE)
      ((if truthy summary then summary else template knowledgePoint D2_SCRIPT))
      (template knowledgePoint D2_IMAGE)
      (D2_SUBTITLE);
    default_slide
      (D3_TITLE)
      (template knowledgePoint D3_SCRIPT)
      (template knowledgePoint D3_IMAGE)
      (D3_SUBTITLE);
    default_slide
      (D4_TITLE)
      (template knowledgePoint D4_SCRIPT)
      (template knowledgePoint D4_IMAGE)
      (D4_SUBTITLE);
    default_slide
      (D5_TITLE)
      (template knowledgePoint D5_SCRIPT)
      (template knowledgePoint D5_IMAGE)
      (template knowledgePoint D5_SUBTITLE)
  ].

Section Script.

Variable toLowerCase : jsstring -> jsstring.
(** [JSON.parse] *)
Variable JSON_parse : jsstring -> completion json.
(** The awaited [callLLM] for the prompts built from the three arguments. *)
Variable callLLM : jsstring -> jsstring -> list jsstring -> completion jsstring.

(** [arr.includes(s)] for a string [s]. *)
Definition array_includes (items : list json) (s : jsstring) : bool :=
  existsb (fun v => match v with JStr x => VideoSynth.str_eqb x s | _ => false end)
          items.

(** [normalizeImagePrompt] applied to a parsed value: a string is
    normalised as above; an array answers [includes] but has no
    [toLowerCase]; other truthy values have neither method. *)
Definition normalizeImagePrompt_value (prompt : json) : completion json :=
  if negb (js_truthy prompt) then Normal (JStr DEFAULT_PROMPT)
  else
    match prompt with
    | JStr s => Normal (JStr (normalizeImagePrompt toLowerCase s))
    | JArr items =>
        if array_includes items ZOOTOPIA_CN then Normal prompt
        else Throw TypeError
    | _ => Throw TypeError
    end.

(** The callback of [result.slides.map]. *)
Definition normalize_slide (slide : json) (index : nat)
  : completion script_slide :=
  bind (get slide K_TITLE) (fun t =>
  bind (get slide K_SCRIPT) (fun s =>
  bind (get slide K_IMAGEPROMPT) (fun p1 =>
  bind (get slide K_IMAGE_PROMPT) (fun p2 =>
  bind (normalizeImagePrompt_value (or_else p1 (or_else p2 (JStr [])))) (fun p =>
  bind (get slide K_SUBTITLE) (fun c =>
  bind (get slide K_SUBTITLES) (fun subs =>
  Normal (mkScriptSlide
            (or_else t (JStr (PAGE_PRE ++ nat_to_string (index + 1) ++ PAGE_POST)))
            (or_else s (JStr []))
            p
            (or_else c (JStr []))
            (match subs with
             | Some v => if js_truthy v then Some v else None
             | None => None
             end))))))))).

Fixpoint map_slides (items : list json) (index : nat)
  : completion (list script_slide) :=
  match items with
  | [] => Normal []
  | slide :: rest =>
      bind (normalize_slide slide index) (fun s =>
      bind (map_slides rest (S index)) (fun l => Normal (s :: l)))
  end.

Definition wrap_array (v : json) : json :=
  match v with
  | JArr items => JObj [(K_SLIDES, v)]
  | _ => v
  end.

(** The three parse attempts; the value of [result] after them. *)
Definition parse_attempts (response : jsstring) : json :=
  let result := JNull in
  let result :=
    match match_object response with
    | Some m =>
        match JSON_parse m with
        | Normal v => v
        | Throw _ => result
        end
    | None => result
    end in
  let result :=
    if negb (js_truthy result) then
      match match_array response with
      | Some m =>
          match JSON_parse m with
          | Normal (JArr items) => JObj [(K_SLIDES, JArr items)]
          | _ => result
          end
      | None => result
      end
    else result in
  let result :=
    if negb (js_truthy result) then
      let fixedJson := fixJsonString response in
      if truthy fixedJson then
        match JSON_parse fixedJson with
        | Normal v => wrap_array v
        | Throw _ => result
        end
      else result
    else result in
  result.

(** The body of the [try] block, after the response has arrived. *)
Definition validate (result : json) : completion ppt_script :=
  if js_truthy result then
    bind (get result K_SLIDES) (fun field =>
      match field with
      | Some (JArr items) =>
          bind (map_slides items 0) (fun l => Normal (mkScript l))
      | _ => Throw (mkError CANNOT_PARSE)
      end)
  else Throw (mkError CANNOT_PARSE).

Definition generatePPTScript (knowledgePoint summary : jsstring)
  (keyPoints : list jsstring) : completion ppt_script :=
  try_catch
    (bind (callLLM knowledgePoint summary keyPoints) (fun response =>
       validate (parse_attempts response)))
    (fun _ => Normal (generateDefaultScript knowledgePoint summary)).

End Script.

End Llm.

(* ===================================================================== *)
(** ** tts.js: splitting long text for synthesis *)
(* ===================================================================== *)

Module Tts.

(** [segment.lastIndexOf(c, fromIndex)]: the greatest index at most
    [fromIndex] that holds [c]; [None] stands for -1. *)
Fixpoint lastIndexOf_from (c : N) (fromIndex i : nat) (s : jsstring)
  (best : option nat) : option nat :=
  match s with
  | [] => best
  | x :: t =>
      lastIndexOf_from c fromIndex (S i) t
        (if (i <=? fromIndex)%nat && (x =? c)%N then Some i else best)
  end.
Definition lastIndexOf (s : jsstring) (c : N) (fromIndex : nat) : option nat :=
  lastIndexOf_from c fromIndex 0 s None.

(** The greedy accumulation of sentences into segments. *)
Fixpoint accumulate (maxLength : nat) (sentences : list jsstring)
  (currentSegment : jsstring) : list jsstring :=
  match sentences with
  | [] => if truthy currentSegment then [trim currentSegment] else []
  | sentence :: rest =>
      if (length currentSegment + length sentence <=? maxLength)%nat then
        accumulate maxLength rest (currentSegment ++ sentence)
      else
        (if truthy currentSegment then [trim currentSegment] else [])
          ++ accumulate maxLength rest sentence
  end.

(** [while (start < segment.length) { ... }]; [None] when the loop has
    not finished within [fuel] iterations. *)
Fixpoint force_split (fuel maxLength : nat) (segment : jsstring) (start : nat)
  : option (list jsstring) :=
  if (start <? length segment)%nat then
    match fuel with
    | O => None
    | S fuel' =>
        let end_ := (start + maxLength)%nat in
        let end_ :=
          if (end_ <? length segment)%nat then
            match lastIndexOf segment FW_COMMA end_ with
            | Some commaIndex =>
                if (start <? commaIndex)%nat then S commaIndex else end_
            | None => end_
            end
          else end_ in
        match force_split fuel' maxLength segment end_ with
        | Some pieces => Some (trim (substring segment start end_) :: pieces)
        | None => None
        end
    end
  else Some [].

(** [for (const segment of segments) { ... }] *)
Fixpoint split_long (maxLength : nat) (segments : list jsstring)
  : option (list jsstring) :=
  match segments with
  | [] => Some []
  | segment :: rest =>
      let here :=
        if (1000 <? utf8_length segment)%nat
        then force_split (length segment) maxLength segment 0
        else Some [segment] in
      match here, split_long maxLength rest with
      | Some a, Some b => Some (a ++ b)
      | _, _ => None
      end
  end.

Definition splitTextByPunctuation (text : jsstring) (maxLength : nat)
  : option (list jsstring) :=
  let sentences :=
    filter truthy (split_runs VideoSynth.is_sentence_end false [] text) in
  let segments := accumulate maxLength sentences [] in
  match split_long maxLength segments with
  | Some result => Some (filter (fun s => (0 <? length s)%nat) result)
  | None => None
  end.

(** The texts [textToSpeechFile] sends to the synthesis boundary: the
    text itself when it fits the 1024-byte limit, else the segments of
    [synthesizeLongText]. *)
Definition tts_requests (text : jsstring) : option (list jsstring) :=
  if (1024 <? utf8_length text)%nat then splitTextByPunctuation text 300
  else Some [text].

End Tts.

(* ===================================================================== *)
(** ** asr.js: duration probing and chunked transcription *)
(* ===================================================================== *)

Module Asr.

(** [Math.round] *)
Definition js_round (q : Q) : Z := Qfloor (q + (1 # 2)).

(** The progress messages of [transcribeAudio]. *)
Inductive message :=
| MsgSegment (completedCount segmentCount : nat)   (* 正在处理片段 c/n... *)
| MsgDone.                                         (* 语音识别完成 *)

Record progress_event := mkProgress { percent : Z; note : message }.

(** '[片段 ' and ' 识别失败]' *)
Definition FAIL_PRE : jsstring := [0x5B; 0x7247; 0x6BB5; 0x20]%N.
Definition FAIL_POST : jsstring := [0x20; 0x8BC6; 0x522B; 0x5931; 0x8D25; 0x5D]%N.
(** 'ffmpeg 未安装，请先安装 ffmpeg' *)
Definition NO_FFMPEG : jsstring :=
  [0x66; 0x66; 0x6D; 0x70; 0x65; 0x67; 0x20; 0x672A; 0x5B89; 0x88C5; 0xFF0C;
   0x8BF7; 0x5148; 0x5B89; 0x88C5; 0x20; 0x66; 0x66; 0x6D; 0x70; 0x65; 0x67]%N.

Record segment_task := mkTask {
  index : nat; segmentStart : Q; segmentLength : Q }.

Record segment_result := mkResult {
  r_index : nat; r_text : jsstring; r_success : bool }.

(** [tasks.slice(i, i + CONCURRENT_LIMIT)] for [i = 0, 3, 6, ...], with
    [CONCURRENT_LIMIT = 3]. *)
Fixpoint batches (tasks : list segment_task) : list (list segment_task) :=
  match tasks with
  | [] => []
  | a :: b :: c :: rest => [a; b; c] :: batches rest
  | short => [short]
  end.

(** [allResults.sort((a, b) => a.index - b.index)] (a stable sort). *)
Fixpoint insert_by_index (x : segment_result) (l : list segment_result)
  : list segment_result :=
  match l with
  | [] => [x]
  | y :: t => if (r_index x <=? r_index y)%nat then x :: l
              else y :: insert_by_index x t
  end.
Definition sort_by_index (l : list segment_result) : list segment_result :=
  fold_right insert_by_index [] l.

(** [Promise.all]: the slot array the settled values are written into;
    slot [k] receives the value of the [k]-th promise whenever it settles,
    and the array is read out once every slot is filled. *)
Fixpoint set_slot {A} (k : nat) (v : A) (slots : list (option A))
  : list (option A) :=
  match slots, k with
  | [], _ => []
  | _ :: t, O => Some v :: t
  | s :: t, S k' => s :: set_slot k' v t
  end.

Fixpoint read_slots {A} (slots : list (option A)) : option (list A) :=
  match slots with
  | [] => Some []
  | Some v :: t => option_map (cons v) (read_slots t)
  | None :: _ => None
  end.

Section Transcribe.

(** [execSync('ffprobe ...')] and [parseFloat]. *)
Variable ffprobe : jsstring -> completion jsstring.
Variable parseFloat : jsstring -> jsnum.

(** The exported [getAudioDuration]: a probe failure is logged and
    rethrown. *)
Definition getAudioDuration (filePath : jsstring) : completion jsnum :=
  try_catch
    (bind (ffprobe filePath) (fun output => Normal (parseFloat (trim output))))
    (fun error => Throw error).

(** [checkFFmpeg()] *)
Variable ffmpegAvailable : bool.

(** Extraction of one chunk followed by the speech-to-text call: the
    recognised text, or the error either step throws. *)
Variable recognise : jsstring -> segment_task -> completion jsstring.

(** The order in which the requests of batch number [b], of the given
    size, complete: a list of positions in the batch. *)
Variable completion_order : nat -> nat -> list nat.

(** [Math.ceil(duration / segmentDuration)], in exact arithmetic;
    [Float64.segmentCount] is the computation in doubles. *)
Definition segmentCount (startTime endTime : Q) : nat :=
  Z.to_nat (Qceiling ((endTime - startTime) / 60)).

(** The loop that prepares [segmentTasks], in exact arithmetic;
    [Float64.segmentTasks] is the loop in doubles. *)
Definition segmentTasks (startTime endTime : Q) : list segment_task :=
  map (fun i =>
         let segmentStart := startTime + VideoSynth.Qnat i * 60 in
         mkTask i segmentStart (VideoSynth.js_min 60 (endTime - segmentStart)))
      (seq 0 (segmentCount startTime endTime)).

(** The value [processSegment] resolves with. *)
Definition processSegment_value (audioFilePath : jsstring) (task : segment_task)
  : segment_result :=
  match recognise audioFilePath task with
  | Normal text => mkResult (index task) text true
  | Throw _ =>
      mkResult (index task)
        (FAIL_PRE ++ nat_to_string (index task + 1) ++ FAIL_POST) false
  end.

(** The state shared by the in-flight requests: [completedCount] and the
    progress reported so far. *)
Record progress_state := mkState {
  completedCount : nat; reported : list progress_event }.

(** Settlement of one request: count it, report progress, fill its slot. *)
Definition settle (audioFilePath : jsstring) (n : nat)
  (batch : list segment_task) (st : progress_state * list (option segment_result))
  (k : nat) : progress_state * list (option segment_result) :=
  let '(ps, slots) := st in
  match nth_error batch k with
  | None => st
  | Some task =>
      let completed := S (completedCount ps) in
      let progress :=
        js_round (VideoSynth.Qnat completed / VideoSynth.Qnat n * 80) in
      (mkState completed
         (reported ps ++ [mkProgress progress (MsgSegment completed n)]),
       set_slot k (processSegment_value audioFilePath task) slots)
  end.

(** [await Promise.all(batch.map(processSegment))] for batch number [b]. *)
Definition run_batch (audioFilePath : jsstring) (n b : nat)
  (batch : list segment_task) (ps : progress_state)
  : progress_state * option (list segment_result) :=
  let '(ps', slots) :=
    fold_left (settle audioFilePath n batch)
      (completion_order b (length batch))
      (ps, repeat None (length batch)) in
  (ps', read_slots slots).

(** The batch loop; [None] when a [Promise.all] never settles. *)
Fixpoint run_batches (audioFilePath : jsstring) (n b : nat)
  (bs : list (list segment_task)) (ps : progress_state)
  (allResults : list segment_result)
  : progress_state * option (list segment_result) :=
  match bs with
  | [] => (ps, Some allResults)
  | batch :: rest =>
      match run_batch audioFilePath n b batch ps with
      | (ps', Some batchResults) =>
          run_batches audioFilePath n (S b) rest ps' (allResults ++ batchResults)
      | (ps', None) => (ps', None)
      end
  end.

(** [transcribeAudio]: the reported progress and, unless a batch never
    settles, the completion of the call. *)
Definition transcribeAudio (audioFilePath : jsstring) (startTime endTime : Q)
  : list progress_event * option (completion jsstring) :=
  if negb ffmpegAvailable then ([], Some (Throw (mkError NO_FFMPEG)))
  else
    let n := segmentCount startTime endTime in
    let tasks := segmentTasks startTime endTime in
    match run_batches audioFilePath n 0 (batches tasks) (mkState 0 []) [] with
    | (ps, Some allResults) =>
        let results := map r_text (sort_by_index allResults) in
        (reported ps ++ [mkProgress 100 MsgDone],
         Some (Normal (join [LF] results)))
    | (ps, None) => (reported ps, None)
    end.


End Transcribe.

End Asr.

(* ===================================================================== *)
(** ** processor.js: the marker orchestrator *)
(* ===================================================================== *)

Module Processor.

Import VideoSynth.

(** A slide of the script, with the field types the prompt asks for. *)
Record slide := mkSlide {
  title : jsstring;
  script : jsstring;
  imagePrompt : jsstring;
  subtitle : jsstring;
  subtitles : option (list author_cue) }.

(** The [subtitles] field of a slide view-model: [undefined], the
    author's list, or cues generated from the script. *)
Inductive subtitles_field :=
| NoSubtitles
| Authored (subs : list author_cue)
| Generated (cues : list cue).

Definition truthy_number (d : option Q) : bool :=
  match d with
  | Some q => negb (Qeq_bool q 0)
  | None => false
  end.

(** [!subtitles || subtitles.length === 0] *)
Definition absent_or_empty (subs : option (list author_cue)) : bool :=
  match subs with
  | None => true
  | Some l => (length l =? 0)%nat
  end.

(** The [subtitles] computed for slide [i] of the result;
    [audioDuration] is [slideAudios[i]?.duration], in milliseconds. *)
Definition view_subtitles (s : slide) (audioDuration : option Q)
  : subtitles_field :=
  if absent_or_empty (subtitles s) && truthy (script s)
     && truthy_number audioDuration
  then
    match audioDuration with
    | Some ms => Generated (generateSubtitlesFromScript (script s) (ms / 1000))
    | None => NoSubtitles
    end
  else
    match subtitles s with
    | Some l => Authored l
    | None => NoSubtitles
    end.

Record slide_view := mkSlideView {
  v_index : nat;
  v_title : jsstring;
  v_script : jsstring;
  v_subtitle : jsstring;
  v_subtitles : subtitles_field;
  v_audioDuration : option Q }.

(** One element of [pptScript.slides.map((slide, i) => ...)] in the result
    (paths and URLs, which only name files, are left out). *)
Definition slide_view_model (i : nat) (s : slide) (audioDuration : option Q)
  : slide_view :=
  mkSlideView (i + 1) (title s) (script s) (subtitle s)
    (view_subtitles s audioDuration) audioDuration.

(** One element of [slidesForVideo]. *)
Definition slide_for_video (s : slide) : video_slide :=
  mkVideoSlide (script s) (subtitles s) (subtitle s).

(** [Math.max] / [Math.min] with a possibly-NaN second argument. *)
Definition min_num (a : jsnum) (b : Q) : jsnum :=
  match a with
  | NaN => NaN
  | Num q => Num (js_min q b)
  end.

(** The transcription window computed at the start of
    [processTimeMarker], with the exported probe of asr.js, in exact
    arithmetic; [Float64.marker_window] is the computation in doubles. *)
Definition marker_window (ffprobe : jsstring -> completion jsstring)
  (parseFloat : jsstring -> jsnum) (audioFilePath : jsstring) (markerTime : Q)
  : completion (Q * jsnum) :=
  bind (Asr.getAudioDuration ffprobe parseFloat audioFilePath)
    (fun audioDuration =>
       let startTime := js_max 0 (markerTime - 300) in
       let endTime := min_num audioDuration (markerTime + 180) in
       Normal (startTime, endTime)).

Section Batch.

(** The state of the outside world (files, services, clock). *)
Variable W : Type.
(** The object [processTimeMarker] resolves with, its progress messages
    and the data of its status updates. *)
Variables MarkerResult Msg Data : Type.

(** A call of one of the two callbacks of [processTimeMarker]. *)
Inductive inner_event :=
| InnerProgress (prog : Z) (msg : Msg)
| InnerUpdate (data : Data).

(** [processTimeMarker(audioFilePath, markerTime, onProgress, onUpdate)]:
    the callback calls it makes, how it settles, and the world after. *)
Variable processTimeMarker :
  jsstring -> Q -> W -> list inner_event * completion MarkerResult * W.

(** An element of the returned array. *)
Inductive entry :=
| FullResult (markerTime : Q) (result : MarkerResult)
| FailedResult (markerTime : Q) (error : jsstring).

Definition entry_markerTime (e : entry) : Q :=
  match e with
  | FullResult m _ => m
  | FailedResult m _ => m
  end.

Definition entry_success (e : entry) : bool :=
  match e with
  | FullResult _ _ => true
  | FailedResult _ _ => false
  end.

Inductive batch_message :=
| MsgMarker (i total : nat)          (* 处理标记点 i/total... *)
| MsgInner (msg : Msg)
| MsgAllDone.                        (* 所有标记点处理完成 *)

Inductive task_update :=
| UStart (markerTime : Q)
| UData (data : Data)
| UCompleted (fullResult : entry)
| UFailed (failedResult : entry).

(** A call of [onProgress] or of [onTaskUpdate]. *)
Inductive event :=
| OnProgress (progress : Z) (msg : batch_message)
| OnTaskUpdate (i : nat) (data : task_update).

(** Computations of the orchestrator: they read and change the world,
    call the callbacks, and return or throw. *)
Definition M (A : Type) : Type :=
  W * list event -> completion A * (W * list event).

Definition ret {A} (a : A) : M A := fun st => (Normal a, st).

Definition mbind {A B} (m : M A) (k : A -> M B) : M B :=
  fun st =>
    match m st with
    | (Normal a, st') => k a st'
    | (Throw e, st') => (Throw e, st')
    end.

Definition emit (ev : event) : M unit :=
  fun '(w, tr) => (Normal tt, (w, tr ++ [ev])).

(** [try { m } catch (error) { h(error) }]: the effects of [m] up to the
    throw stay. *)
Definition try_catch_M {A} (m : M A) (h : error -> M A) : M A :=
  fun st =>
    match m st with
    | (Normal a, st') => (Normal a, st')
    | (Throw e, st') => h e st'
    end.

Notation "x <- m ;; k" := (mbind m (fun x => k))
  (at level 61, m at next level, right associativity).
Notation "m ;;; k" := (mbind m (fun _ => k))
  (at level 61, right associativity).

(** The two closures handed to [processTimeMarker] for marker [i]. *)
Definition wrap_event (i total : nat) (baseProgress : Z) (ev : inner_event)
  : event :=
  match ev with
  | InnerProgress prog msg =>
      OnProgress
        (Asr.js_round (inject_Z baseProgress + inject_Z prog / Qnat total))
        (MsgInner msg)
  | InnerUpdate data => OnTaskUpdate i (UData data)
  end.

Definition await_processTimeMarker (audioFilePath : jsstring) (markerTime : Q)
  (i total : nat) (baseProgress : Z) : M MarkerResult :=
  fun '(w, tr) =>
    let '(calls, outcome, w') := processTimeMarker audioFilePath markerTime w in
    (outcome, (w', tr ++ map (wrap_event i total baseProgress) calls)).

(** [for (let i = 0; i < total; i++) { ... }], from index [i] on, followed
    by the final progress report and [return results]. *)
Fixpoint markers_loop (audioFilePath : jsstring) (total i : nat)
  (rest : list Q) (results : list entry) : M (list entry) :=
  match rest with
  | [] =>
      emit (OnProgress (Asr.js_round 100) MsgAllDone) ;;;
      ret results
  | markerTime :: rest' =>
      let baseProgress := Asr.js_round (Qnat i / Qnat total * 100) in
      emit (OnTaskUpdate i (UStart markerTime)) ;;;
      emit (OnProgress baseProgress (MsgMarker (i + 1) total)) ;;;
      results' <-
        try_catch_M
          (result <- await_processTimeMarker audioFilePath markerTime
                       i total baseProgress ;;
           let fullResult := FullResult markerTime result in
           emit (OnTaskUpdate i (UCompleted fullResult)) ;;;
           ret (results ++ [fullResult]))
          (fun error =>
             let failedResult := FailedResult markerTime (message error) in
             emit (OnTaskUpdate i (UFailed failedResult)) ;;;
             ret (results ++ [failedResult])) ;;
      markers_loop audioFilePath total (S i) rest' results'
  end.

Definition processMultipleMarkers (audioFilePath : jsstring)
  (markerTimes : list Q) : M (list entry) :=
  markers_loop audioFilePath (length markerTimes) 0 markerTimes [].

(** What the specification asks of the batch: marker [i] is processed in
    the world the markers before it left, and position [i] holds its
    result, or the failure placeholder when it throws. *)
Fixpoint batch_spec (audioFilePath : jsstring) (markerTimes : list Q) (w : W)
  : list entry :=
  match markerTimes with
  | [] => []
  | markerTime :: rest =>
      let '(_, outcome, w') := processTimeMarker audioFilePath markerTime w in
      (match outcome with
       | Normal result => FullResult markerTime result
       | Throw e => FailedResult markerTime (message e)
       end) :: batch_spec audioFilePath rest w'
  end.

End Batch.

Arguments InnerProgress {Msg Data} prog msg.
Arguments InnerUpdate {Msg Data} data.
Arguments FullResult {MarkerResult} markerTime result.
Arguments FailedResult {MarkerResult} markerTime error.
Arguments entry_markerTime {MarkerResult} e.
Arguments entry_success {MarkerResult} e.
Arguments markers_loop {W MarkerResult Msg Data} processTimeMarker
  audioFilePath total i rest results _.
Arguments processMultipleMarkers {W MarkerResult Msg Data} processTimeMarker
  audioFilePath markerTimes _.
Arguments batch_spec {W MarkerResult Msg Data} processTimeMarker
  audioFilePath markerTimes w.

End Processor.

(* ===================================================================== *)
(** ** Sample inputs *)
(* ===================================================================== *)

(** Quantities the statements below are about. *)
Module Measures.

Import VideoSynth.


(** The end time of a cue. *)
Definition cue_end (c : cue) : Q := start c + duration c.

(** The cue that stands for "no cue" when a list is empty. *)
Definition no_cue : cue := mkCue [] 0 0.

Definition first_cue (cues : list cue) : cue := hd no_cue cues.
Definition last_cue (cues : list cue) : cue := last cues no_cue.

(** Start times never decrease along the list. *)
Definition starts_sorted (cues : list cue) : Prop :=
  Sorted (fun a b => start a <= start b) cues.

(** The cues cover exactly the time from 0 to [totalDuration]. *)
Definition covers (cues : list cue) (totalDuration : Q) : Prop :=
  cues <> [] /\ starts_sorted cues /\ start (first_cue cues) == 0
  /\ cue_end (last_cue cues) == totalDuration.


(** A code unit that is neither white space nor sentence punctuation. *)
Definition is_ink (c : N) : bool := negb (is_ws c) && negb (is_sentence_end c).
Definition has_ink (s : jsstring) : bool := existsb is_ink s.

(** A slide whose title and image prompt are present (truthy: for a
    string, not empty). *)
Definition slide_wellformed (s : Llm.script_slide) : Prop :=
  Llm.js_truthy (Llm.ss_title s) = true
  /\ Llm.js_truthy (Llm.ss_imagePrompt s) = true.

(** A string without white space. *)
Definition no_ws (s : jsstring) : Prop := existsb is_ws s = false.



End Measures.

Module Samples.

Definition author_cue_3s : VideoSynth.author_cue :=
  VideoSynth.mkAuthorCue [0x41]%N (Some 0) (Some 3).

Definition author_cue_0s : VideoSynth.author_cue :=
  VideoSynth.mkAuthorCue [0x41]%N (Some 0) (Some 0).

Definition author_cue_untimed : VideoSynth.author_cue :=
  VideoSynth.mkAuthorCue [0x42]%N None None.

Definition author_cues_zero : list VideoSynth.author_cue :=
  [author_cue_0s; author_cue_untimed].

(** A slide for the video with no script and two author cues. *)
Definition slide_author_only : VideoSynth.video_slide :=
  VideoSynth.mkVideoSlide [] (Some author_cues_zero) [0x43]%N.

(** A recogniser that fails on the chunk of index 1. *)
Definition recognise_second_fails (audioFilePath : jsstring)
  (task : Asr.segment_task) : completion jsstring :=
  if (Asr.index task =? 1)%nat then Throw (mkError [0x45]%N)
  else Normal [N.of_nat (97 + Asr.index task)].

(** The requests of every batch complete last to first. *)
Definition reverse_order (b k : nat) : list nat := rev (seq 0 k).

(** The response [{"slides": []}]. *)
Definition EMPTY_SLIDES_RESPONSE : jsstring :=
  [0x7B; 0x22; 0x73; 0x6C; 0x69; 0x64; 0x65; 0x73; 0x22; 0x3A; 0x20; 0x5B; 0x5D; 0x7D]%N.

(** What [JSON.parse] answers on that text: an object whose only field
    [slides] is the empty array; this parser rejects every other text. *)
Definition parse_empty_slides (s : jsstring) : completion Llm.json :=
  if VideoSynth.str_eqb s EMPTY_SLIDES_RESPONSE
  then Normal (Llm.JObj [(Llm.K_SLIDES, Llm.JArr [])])
  else Throw (mkError []).

(** '今天我们学习了勾股定理。直角三角形两条直角边的平方和等于斜边的平方。' *)
Definition two_sentences : jsstring :=
  [0x4ECA; 0x5929; 0x6211; 0x4EEC; 0x5B66; 0x4E60; 0x4E86; 0x52FE; 0x80A1;
   0x5B9A; 0x7406; 0x3002; 0x76F4; 0x89D2; 0x4E09; 0x89D2; 0x5F62; 0x4E24;
   0x6761; 0x76F4; 0x89D2; 0x8FB9; 0x7684; 0x5E73; 0x65B9; 0x548C; 0x7B49;
   0x4E8E; 0x659C; 0x8FB9; 0x7684; 0x5E73; 0x65B9; 0x3002]%N.

(** The one-character script '短'. *)
Definition one_character : jsstring := [0x77ED]%N.


(** The letter 'a' followed by 1100 spaces: 1101 bytes of UTF-8. *)
Definition padded_letter : jsstring := 0x61%N :: repeat 0x20%N 1100.

(** The character '好' 500 times: 1500 bytes of UTF-8. *)
Definition long_unbroken : jsstring := repeat 0x597D%N 500.

(** 400 times '好', a space, 100 times '好': 1501 bytes of UTF-8, 1500 of
    them not white space. *)
Definition long_spaced : jsstring :=
  repeat 0x597D%N 400 ++ [0x20%N] ++ repeat 0x597D%N 100.

(** 200 times '好', a full-width comma, 299 times '好': one sentence of
    500 code units and 1500 bytes. *)
Definition comma_inside : jsstring :=
  repeat 0x597D%N 200 ++ [FW_COMMA] ++ repeat 0x597D%N 299.

(** A marker pipeline that fails at marker time 200, answers its call
    number otherwise, and counts its calls in the world. *)
Definition second_marker_fails (audioFilePath : jsstring) (markerTime : Q)
  (w : nat) : list (Processor.inner_event nat nat) * completion nat * nat :=
  ([Processor.InnerProgress 50%Z 7%nat; Processor.InnerUpdate 3%nat],
   if Qeq_bool markerTime 200 then Throw (mkError [0x45]%N) else Normal w,
   S w).

(** A slide with a script and one author-provided cue. *)
Definition slide_with_both : Processor.slide :=
  Processor.mkSlide [0x54]%N [0x77ED; 0x3002]%N [] [0x43]%N
    (Some [author_cue_3s]).

(** The same slide without author-provided cues, and with an empty list
    of them. *)
Definition slide_script_only : Processor.slide :=
  Processor.mkSlide [0x54]%N [0x77ED; 0x3002]%N [] [0x43]%N None.
Definition slide_empty_list : Processor.slide :=
  Processor.mkSlide [0x54]%N [0x77ED; 0x3002]%N [] [0x43]%N (Some []).

(** A slide with author-provided cues and no script. *)
Definition slide_cues_only : Processor.slide :=
  Processor.mkSlide [0x54]%N [] [] [0x43]%N (Some [author_cue_3s]).

End Samples.

(* ===================================================================== *)
(** ** processor.js: XML escaping of the placeholder image text *)
(* ===================================================================== *)

Module Markup.

Definition AMP : N := 0x26.      (* & *)
Definition LT : N := 0x3C.       (* < *)
Definition GT : N := 0x3E.       (* > *)
Definition QUOT : N := 0x22.     (* double quote *)
Definition APOS : N := 0x27.     (* ' *)

(** '&amp;', '&lt;', '&gt;', '&quot;', '&apos;' *)
Definition E_AMP : jsstring := [0x26; 0x61; 0x6D; 0x70; 0x3B]%N.
Definition E_LT : jsstring := [0x26; 0x6C; 0x74; 0x3B]%N.
Definition E_GT : jsstring := [0x26; 0x67; 0x74; 0x3B]%N.
Definition E_QUOT : jsstring := [0x26; 0x71; 0x75; 0x6F; 0x74; 0x3B]%N.
Definition E_APOS : jsstring := [0x26; 0x61; 0x70; 0x6F; 0x73; 0x3B]%N.

(** [s.replace(/c/g, rep)] for a one-character pattern. *)
Definition replace_all (c : N) (rep : jsstring) (s : jsstring) : jsstring :=
  flat_map (fun x => if (x =? c)%N then rep else [x]) s.

(** [escapeXml]: the five replacements, in the order of the source. *)
Definition escapeXml (text : jsstring) : jsstring :=
  replace_all APOS E_APOS
    (replace_all QUOT E_QUOT
       (replace_all GT E_GT
          (replace_all LT E_LT
             (replace_all AMP E_AMP text)))).

(** The characters that have a meaning in XML text and attributes. *)
Definition is_markup (c : N) : bool :=
  (c =? LT)%N || (c =? GT)%N || (c =? QUOT)%N || (c =? APOS)%N.

(** What one character of the input becomes. *)
Definition entity (c : N) : jsstring :=
  if (c =? AMP)%N then E_AMP
  else if (c =? LT)%N then E_LT
  else if (c =? GT)%N then E_GT
  else if (c =? QUOT)%N then E_QUOT
  else if (c =? APOS)%N then E_APOS
  else [c].

End Markup.

(* ===================================================================== *)
(** ** Views of the callback trace of the batch *)
(* ===================================================================== *)

Module Protocol.

Import Processor.

Section Views.

Variables MarkerResult Msg Data : Type.

(** The markers announced with a [start] update, with their index. *)
Definition started (tr : list (event MarkerResult Msg Data)) : list (nat * Q) :=
  flat_map (fun ev =>
              match ev with
              | OnTaskUpdate _ _ _ i (UStart _ _ m) => [(i, m)]
              | _ => []
              end) tr.

(** The results announced with a [completed] or a [failed] update, with
    their index. *)
Definition finished (tr : list (event MarkerResult Msg Data))
  : list (nat * entry MarkerResult) :=
  flat_map (fun ev =>
              match ev with
              | OnTaskUpdate _ _ _ i (UCompleted _ _ e) => [(i, e)]
              | OnTaskUpdate _ _ _ i (UFailed _ _ e) => [(i, e)]
              | _ => []
              end) tr.

(** A [completed] update carries a full result and a [failed] update a
    failure placeholder. *)
Definition well_tagged (ev : event MarkerResult Msg Data) : bool :=
  match ev with
  | OnTaskUpdate _ _ _ _ (UCompleted _ _ e) => entry_success e
  | OnTaskUpdate _ _ _ _ (UFailed _ _ e) => negb (entry_success e)
  | _ => true
  end.

End Views.

Arguments started {MarkerResult Msg Data} tr.
Arguments finished {MarkerResult Msg Data} tr.
Arguments well_tagged {MarkerResult Msg Data} ev.

End Protocol.

(* ===================================================================== *)
(** ** Expected progress reports *)
(* ===================================================================== *)

Module Reports.

(** The progress reported when the [k]-th of [n] chunks has settled. *)
Definition chunk_report (n k : nat) : Asr.progress_event :=
  Asr.mkProgress
    (Asr.js_round (VideoSynth.Qnat k / VideoSynth.Qnat n * 80))
    (Asr.MsgSegment k n).

(** [baseProgress] of marker [i] of [total]. *)
Definition baseProgress (total i : nat) : Z :=
  Asr.js_round (VideoSynth.Qnat i / VideoSynth.Qnat total * 100).

End Reports.

(* ===================================================================== *)
(** ** tts.js: synthesis of a long text, segment by segment *)
(* ===================================================================== *)

Module LongSpeech.

(** '所有段落合成失败' *)
Definition ALL_FAILED : jsstring := [0x6240; 0x6709; 0x6BB5; 0x843D; 0x5408; 0x6210; 0x5931; 0x8D25]%N.

(** The duration a response carries, [data.addition?.duration] as the
    service sent it and as the code passes it on without conversion: a
    number or a string ([undefined] and [null] are the missing duration
    [None]; the other JSON values are outside this model). *)
Inductive duration_value := DNum (q : Q) | DStr (s : jsstring).

(** A piece of a string built by [+]: a number as [String] prints it, or
    a string. *)
Inductive text_part := Printed (q : Q) | Literal (s : jsstring).

(** The value of [totalDuration]: a number, or the string that is the
    concatenation of its parts. *)
Inductive total_value := TNum (q : Q) | TStr (parts : list text_part).

(** [a || 0] *)
Definition or_0 (a : option duration_value) : duration_value :=
  match a with
  | Some (DNum d) => if Qeq_bool d 0 then DNum 0 else DNum d
  | Some (DStr s) => if truthy s then DStr s else DNum 0
  | None => DNum 0
  end.

(** [a + b]: the sum of two numbers; the concatenation as soon as an
    operand is a string. *)
Definition js_plus (a : total_value) (b : duration_value) : total_value :=
  match a, b with
  | TNum x, DNum y => TNum (x + y)
  | TNum x, DStr t => TStr [Printed x; Literal t]
  | TStr parts, DNum y => TStr (parts ++ [Printed y])
  | TStr parts, DStr t => TStr (parts ++ [Literal t])
  end.

Section Synthesis.

(** The audio bytes of a response. *)
Variable Buffer : Type.

(** What [callTTSAPI] resolves with; [tr_duration] is
    [data.addition?.duration], possibly [undefined]. *)
Record tts_response := mkResponse {
  tr_buffer : Buffer; tr_duration : option duration_value }.

(** The awaited [callTTSAPI] for the request number and text; inside the
    loop of [synthesizeLongText] it stands for the call together with the
    write of the temporary file, which share one [try]. *)
Variable callTTSAPI : nat -> jsstring -> completion tts_response.

(** A temporary file written for segment [tf_index]. *)
Record temp_file := mkTemp { tf_index : nat; tf_buffer : Buffer }.

(** The concatenation of the temporary files by the media toolkit,
    followed by the size of the output file. *)
Variable ffmpeg_concat : list temp_file -> completion nat.

(** [result.duration || 0] *)
Definition duration_or_0 (r : tts_response) : duration_value :=
  or_0 (tr_duration r).

(** [for (let i = 0; i < segments.length; i++) { try ... catch ... }] from
    index [i] on, with the accumulators [tempFiles] and [totalDuration]. *)
Fixpoint synth_loop (i : nat) (segments : list jsstring)
  (tempFiles : list temp_file) (totalDuration : total_value)
  : list temp_file * total_value :=
  match segments with
  | [] => (tempFiles, totalDuration)
  | segment :: rest =>
      match callTTSAPI i segment with
      | Normal result =>
          synth_loop (S i) rest
            (tempFiles ++ [mkTemp i (tr_buffer result)])
            (js_plus totalDuration (duration_or_0 result))
      | Throw _ => synth_loop (S i) rest tempFiles totalDuration
      end
  end.

(** What [textToSpeechFile] resolves with (the path is the [outputPath]
    it was given); [sf_duration] is [undefined], a number or a string. *)
Record speech_file := mkSpeech {
  sf_duration : option total_value; sf_size : nat }.

(** [synthesizeLongText]; [None] when the splitter does not terminate. *)
Definition synthesizeLongText (text : jsstring)
  : option (completion speech_file) :=
  match Tts.splitTextByPunctuation text 300 with
  | None => None
  | Some segments =>
      let '(tempFiles, totalDuration) :=
        synth_loop 0 segments [] (TNum 0) in
      Some (if (length tempFiles =? 0)%nat then Throw (mkError ALL_FAILED)
            else bind (ffmpeg_concat tempFiles)
                      (fun size => Normal (mkSpeech (Some totalDuration) size)))
  end.

(** The size in bytes of a buffer. *)
Variable buffer_length : Buffer -> nat.

(** The [duration] of a response, handed on as it is. *)
Definition as_total (d : option duration_value) : option total_value :=
  match d with
  | Some (DNum q) => Some (TNum q)
  | Some (DStr s) => Some (TStr [Literal s])
  | None => None
  end.

(** [textToSpeechFile]; for a text within the limit the write of the
    output file counts as part of the call. *)
Definition textToSpeechFile (text : jsstring)
  : option (completion speech_file) :=
  if (1024 <? utf8_length text)%nat then synthesizeLongText text
  else
    Some (bind (callTTSAPI 0 text)
               (fun result =>
                  Normal (mkSpeech (as_total (tr_duration result))
                                   (buffer_length (tr_buffer result))))).

(** The segments whose request succeeded, with their index and response. *)
Definition successes (i : nat) (segments : list jsstring)
  : list (nat * tts_response) :=
  flat_map (fun '(k, segment) =>
              match callTTSAPI k segment with
              | Normal result => [(k, result)]
              | Throw _ => []
              end)
           (combine (seq i (length segments)) segments).

(** The duration of a response counts as a number: it is a number, is
    missing, or is the empty string. *)
Definition numeric (r : tts_response) : bool :=
  match duration_or_0 r with
  | DNum _ => true
  | DStr _ => false
  end.

(** The number a response adds to a numeric total. *)
Definition number_of (r : tts_response) : Q :=
  match duration_or_0 r with
  | DNum d => d
  | DStr _ => 0
  end.

(** What a response appends to a total that is a string. *)
Definition appended (r : tts_response) : text_part :=
  match duration_or_0 r with
  | DNum d => Printed d
  | DStr s => Literal s
  end.

Definition total_duration (l : list (nat * tts_response)) : Q :=
  fold_right (fun '(_, r) acc => number_of r + acc) 0 l.

End Synthesis.

Arguments mkResponse {Buffer} tr_buffer tr_duration.
Arguments tr_buffer {Buffer} t.
Arguments tr_duration {Buffer} t.
Arguments mkTemp {Buffer} tf_index tf_buffer.
Arguments duration_or_0 {Buffer} r.
Arguments synth_loop {Buffer} callTTSAPI i segments tempFiles totalDuration.
Arguments synthesizeLongText {Buffer} callTTSAPI ffmpeg_concat text.
Arguments textToSpeechFile {Buffer} callTTSAPI ffmpeg_concat buffer_length text.
Arguments successes {Buffer} callTTSAPI i segments.
Arguments numeric {Buffer} r.
Arguments number_of {Buffer} r.
Arguments appended {Buffer} r.
Arguments total_duration {Buffer} l.

End LongSpeech.

(* ===================================================================== *)
(** ** llm.js: analysis of the transcript *)
(* ===================================================================== *)

Module Analysis.

Import Llm.

Definition K_KNOWLEDGEPOINT : jsstring := [0x6B; 0x6E; 0x6F; 0x77; 0x6C; 0x65; 0x64; 0x67; 0x65; 0x50; 0x6F; 0x69; 0x6E; 0x74]%N.
Definition K_SUMMARY : jsstring := [0x73; 0x75; 0x6D; 0x6D; 0x61; 0x72; 0x79]%N.
Definition K_SUBJECT : jsstring := [0x73; 0x75; 0x62; 0x6A; 0x65; 0x63; 0x74]%N.
Definition K_KEYPOINTS : jsstring := [0x6B; 0x65; 0x79; 0x50; 0x6F; 0x69; 0x6E; 0x74; 0x73]%N.
(** '知识点', '课堂知识点', 'math' *)
Definition KP_DEFAULT : jsstring := [0x77E5; 0x8BC6; 0x70B9]%N.
Definition KP_FALLBACK : jsstring := [0x8BFE; 0x5802; 0x77E5; 0x8BC6; 0x70B9]%N.
Definition MATH : jsstring := [0x6D; 0x61; 0x74; 0x68]%N.

Record analysis := mkAnalysis {
  knowledgePoint : json; summary : json; subject : json; keyPoints : json }.

(** The match of the pattern of [analyzeKnowledgePoint]: from the first
    opening brace to the last closing brace after it. *)
Definition match_braces (response : jsstring) : option jsstring :=
  match from_first (N.eqb LBRACE) response with
  | [] => None
  | brace :: body =>
      match through_last (N.eqb RBRACE) body with
      | [] => None
      | m => Some (brace :: m)
      end
  end.

(** [transcript.substring(0, 50) + '...'] *)
Definition summary_of (transcript : jsstring) : jsstring :=
  substring transcript 0 50 ++ VideoSynth.ELLIPSIS.

(** The analysis returned when anything fails. *)
Definition default_analysis (transcript : jsstring) : analysis :=
  mkAnalysis (JStr KP_FALLBACK) (JStr (summary_of transcript)) (JStr MATH)
    (JArr []).

Section Analyze.

Variable JSON_parse : jsstring -> completion json.
(** The awaited [callLLM] for the prompt built from the transcript. *)
Variable callLLM : jsstring -> completion jsstring.

Definition analyzeKnowledgePoint (transcript : jsstring) : completion analysis :=
  try_catch
    (bind (callLLM transcript) (fun response =>
       match match_braces response with
       | Some m =>
           bind (JSON_parse m) (fun result =>
           bind (get result K_KNOWLEDGEPOINT) (fun kp =>
           bind (get result K_SUMMARY) (fun s =>
           bind (get result K_SUBJECT) (fun subj =>
           bind (get result K_KEYPOINTS) (fun pts =>
           Normal (mkAnalysis
                     (or_else kp (JStr KP_DEFAULT))
                     (or_else s (JStr (summary_of transcript)))
                     (or_else subj (JStr MATH))
                     (or_else pts (JArr []))))))))
       | None => Throw (mkError CANNOT_PARSE)
       end))
    (fun _ => Normal (default_analysis transcript)).

End Analyze.

(** An image prompt of the script names the required style: a string that
    does, or an array that holds the Chinese style name. *)
Definition prompt_names_style (toLowerCase : jsstring -> jsstring) (v : json)
  : Prop :=
  match v with
  | JStr s => names_style toLowerCase s = true
  | JArr items => array_includes items ZOOTOPIA_CN = true
  | _ => False
  end.

End Analysis.


(* ===================================================================== *)
(** ** imageGen.js: reading the image out of the response *)
(* ===================================================================== *)

Module ImageData.

Import Llm.

(** 'data:image/', ';base64,', 'png', 'jpg' *)
Definition DATA_IMAGE : jsstring := [0x64; 0x61; 0x74; 0x61; 0x3A; 0x69; 0x6D; 0x61; 0x67; 0x65; 0x2F]%N.
Definition BASE64_MARK : jsstring := [0x3B; 0x62; 0x61; 0x73; 0x65; 0x36; 0x34; 0x2C]%N.
Definition PNG : jsstring := [0x70; 0x6E; 0x67]%N.
Definition JPG : jsstring := [0x6A; 0x70; 0x67]%N.
Definition DOT : N := 0x2E%N.

Definition is_alnum (c : N) : bool :=
  ((0x41 <=? c) && (c <=? 0x5A) || (0x61 <=? c) && (c <=? 0x7A)
   || (0x30 <=? c) && (c <=? 0x39))%N.

(** [\w] *)
Definition is_word (c : N) : bool := is_alnum c || (c =? 0x5F)%N.

(** [[A-Za-z0-9+/=]] *)
Definition is_base64_char (c : N) : bool :=
  is_alnum c || (c =? 0x2B)%N || (c =? 0x2F)%N || (c =? 0x3D)%N.

(** The code units [.] does not match. *)
Definition is_line_terminator (c : N) : bool :=
  ((c =? 0x0A) || (c =? 0x0D) || (c =? 0x2028) || (c =? 0x2029))%N.

Fixpoint strip_prefix (p s : jsstring) : option jsstring :=
  match p, s with
  | [], _ => Some s
  | _ :: _, [] => None
  | a :: p', b :: s' => if (a =? b)%N then strip_prefix p' s' else None
  end.

Fixpoint takeWhile (f : N -> bool) (s : jsstring) : jsstring :=
  match s with
  | [] => []
  | c :: t => if f c then c :: takeWhile f t else []
  end.

Record image := mkImage { format : jsstring; base64 : jsstring }.

(** [url.match(/^data:image\/(\w+);base64,(.+)$/)]: the two captures. *)
Definition match_data_url (url : jsstring) : option (jsstring * jsstring) :=
  match strip_prefix DATA_IMAGE url with
  | None => None
  | Some rest =>
      let word := takeWhile is_word rest in
      if truthy word then
        match strip_prefix BASE64_MARK (dropWhile is_word rest) with
        | None => None
        | Some payload =>
            if truthy payload
               && forallb (fun c => negb (is_line_terminator c)) payload
            then Some (word, payload)
            else None
        end
      else None
  end.

(** [extractBase64Data] on a string. *)
Definition extractBase64Data (url : jsstring) : option image :=
  if negb (truthy url) then None
  else
    match match_data_url url with
    | Some (f, b) => Some (mkImage f b)
    | None =>
        if (100 <? length url)%nat && forallb is_base64_char url
        then Some (mkImage PNG url)
        else None
    end.









(** [path.replace(/\.[^.]+$/, ext)]: the last dot and what follows it,
    when something follows it, is replaced by [ext]. *)
Definition replace_ext (path ext : jsstring) : jsstring :=
  let tail := rev (takeWhile (fun c => negb (c =? DOT)%N) (rev path)) in
  let stem := rev (dropWhile (fun c => negb (c =? DOT)%N) (rev path)) in
  if truthy tail && truthy stem then removelast stem ++ ext else path.

Section ToFile.

(** The conversion to JPEG by the image library (its import included),
    and the direct write of the decoded bytes. *)
Variable toJpeg : jsstring -> completion unit.
Variable writeFileSync : jsstring -> completion unit.

Record image_file := mkImageFile { filepath : jsstring; file_format : jsstring }.

(** [generateImageToFile], from the outcome [generated] of
    [generateImage] and of making the output directory on. *)
Definition generateImageToFile (generated : completion image)
  (outputPath : jsstring) : completion image_file :=
  bind generated (fun imageData =>
    let jpegPath := replace_ext outputPath (DOT :: JPG) in
    match toJpeg jpegPath with
    | Normal _ => Normal (mkImageFile jpegPath JPG)
    | Throw _ =>
        let actualPath := replace_ext outputPath (DOT :: format imageData) in
        bind (writeFileSync actualPath) (fun _ =>
          Normal (mkImageFile actualPath (format imageData)))
    end).

End ToFile.

End ImageData.


(* ===================================================================== *)
(** ** Sample responses *)
(* ===================================================================== *)

Module Fixtures.

Import Llm.

(** 'QQ==' *)
Definition PAYLOAD : jsstring := [0x51; 0x51; 0x3D; 0x3D]%N.


(** 'out/slide_1' *)
Definition slide_stem : jsstring := [0x6F; 0x75; 0x74; 0x2F; 0x73; 0x6C; 0x69; 0x64; 0x65; 0x5F; 0x31]%N.

End Fixtures.


(* ===================================================================== *)
(** ** processor.js: the progress reported for one marker *)
(* ===================================================================== *)

Module MarkerProgress.

Import VideoSynth.

(** [(prog, msg) => onProgress(Math.round(5 + prog * 0.15), msg)] *)
Definition asr_scale (prog : Z) : Z :=
  Asr.js_round (5 + inject_Z prog * (15 # 100)).

(** [Math.round(40 + (i / totalSlides) * 30)] *)
Definition slide_progress (totalSlides i : nat) : Z :=
  Asr.js_round (40 + Qnat i / Qnat totalSlides * 30).

(** [(prog, msg) => onProgress(Math.round(80 + prog * 0.18), msg)] *)
Definition video_scale (prog : Z) : Z :=
  Asr.js_round (80 + inject_Z prog * (18 # 100)).

(** The progress [synthesizeVideo] reports for [n] slides when none of
    its steps throws: [Math.round((i / slides.length) * 60)] before slide
    [i], then 70, 85, 95 and 100. *)
Definition synthesizeVideo_progress (n : nat) : list Z :=
  map (fun i => Asr.js_round (Qnat i / Qnat n * 60)) (seq 0 n)
  ++ [70%Z; 85%Z; 95%Z; 100%Z].

(** The progress [processTimeMarker] reports when none of its steps
    throws, in the order of the calls of [onProgress]: [asr] is what the
    transcription reports, [totalSlides] the number of slides of the
    script, [ffmpeg] the answer of [checkFFmpeg]. *)
Definition marker_progress (asr : list Asr.progress_event)
  (totalSlides : nat) (ffmpeg : bool) : list Z :=
  [5%Z]
  ++ map (fun ev => asr_scale (Asr.percent ev)) asr
  ++ [20%Z; 30%Z; 40%Z]
  ++ map (slide_progress totalSlides) (seq 0 totalSlides)
  ++ [80%Z]
  ++ (if ffmpeg then map video_scale (synthesizeVideo_progress totalSlides)
      else [])
  ++ [100%Z].

(** A list of percentages that never goes back and stays within
    [lo .. hi]. *)
Definition rising (lo hi : Z) (l : list Z) : Prop :=
  StronglySorted Z.le l /\ Forall (fun p => (lo <= p <= hi)%Z) l.

End MarkerProgress.


(* ===================================================================== *)
(** ** videoSynth.js: the subtitle track and the final file *)
(* ===================================================================== *)

Module Track.

Import VideoSynth.

(** The realized duration of a clip that was made. *)
Definition clip_duration (clip : completion Q) : Q :=
  match clip with
  | Normal d => d
  | Throw _ => 0
  end.

(** The durations of the first [k] clips, added up in slide order. *)
Definition offset (slides : list (video_slide * completion Q)) (k : nat) : Q :=
  fold_left Qplus (map (fun sc => clip_duration (snd sc)) (firstn k slides)) 0.

(** The cues of slide number [k], placed after the clips before it. *)
Definition placed_cues (slides : list (video_slide * completion Q))
  (entry : nat * (video_slide * completion Q)) : list cue :=
  let '(k, (slide, clip)) := entry in
  slide_cues slide (offset slides k) (clip_duration clip).

End Track.


Module FinalFile.

Import VideoSynth.

(** What the last steps of [synthesizeVideo] leave on disk: a video with
    burned-in subtitles written to [target], a copy, a removed file. *)
Inductive fs_effect :=
| Burned (target : jsstring)
| Copied (source target : jsstring)
| Unlinked (path : jsstring).

(** [addSubtitles(videoPath, subtitles, outputPath)]: [prepared] is the
    outcome of writing the subtitle file and making the output directory
    (a throw there rejects the call), [burned] tells whether the burn-in
    command succeeded; a failed command resolves with the input video. *)
Definition addSubtitles (prepared : completion unit) (burned : bool)
  (videoPath outputPath : jsstring) : completion (jsstring * bool) :=
  bind prepared (fun _ =>
    Normal (if burned then (outputPath, true) else (videoPath, false))).

Section Finish.

Variable subtitles : list cue.
Variable slideVideos : list jsstring.
Variable mergedVideoPath outputPath : jsstring.
(** The outcomes of the file-system calls of steps 3 and 4. *)
Variable mkdir : completion unit.
Variable prepared : completion unit.
Variable burned : bool.
Variable copyFileSync : completion unit.

Definition copy_merged : completion (jsstring * list fs_effect) :=
  bind copyFileSync (fun _ =>
    Normal (outputPath, [Copied mergedVideoPath outputPath])).

(** Step 3: [finalVideoPath] and what has been written. *)
Definition add_or_copy : completion (jsstring * list fs_effect) :=
  if (0 <? length subtitles)%nat then
    match addSubtitles prepared burned mergedVideoPath outputPath with
    | Normal (filepath, added) =>
        Normal (filepath, if added then [Burned outputPath] else [])
    | Throw _ => copy_merged
    end
  else copy_merged.

(** Steps 3 and 4 of [synthesizeVideo], the removals being taken to
    succeed: the returned [filepath] and the effects in order. *)
Definition finish : completion (jsstring * list fs_effect) :=
  bind mkdir (fun _ =>
  bind add_or_copy (fun '(finalVideoPath, effects) =>
    Normal (finalVideoPath,
            effects
            ++ map Unlinked slideVideos
            ++ (if negb (str_eqb mergedVideoPath finalVideoPath)
                then [Unlinked mergedVideoPath] else [])))).

End Finish.

(** An effect that puts a file at [path]. *)
Definition writes (path : jsstring) (e : fs_effect) : Prop :=
  match e with
  | Burned target | Copied _ target => target = path
  | Unlinked _ => False
  end.

End FinalFile.


Module SamplePaths.

(** 'tmp/merged.mp4', 'out/final_video.mp4', 'tmp/slide_0.mp4' *)
Definition merged_path : jsstring := [0x74; 0x6D; 0x70; 0x2F; 0x6D; 0x65; 0x72; 0x67; 0x65; 0x64; 0x2E; 0x6D; 0x70; 0x34]%N.
Definition output_path : jsstring := [0x6F; 0x75; 0x74; 0x2F; 0x66; 0x69; 0x6E; 0x61; 0x6C; 0x5F; 0x76; 0x69; 0x64; 0x65; 0x6F; 0x2E; 0x6D; 0x70; 0x34]%N.
Definition clip_path : jsstring := [0x74; 0x6D; 0x70; 0x2F; 0x73; 0x6C; 0x69; 0x64; 0x65; 0x5F; 0x30; 0x2E; 0x6D; 0x70; 0x34]%N.

Definition one_cue : list VideoSynth.cue := [VideoSynth.mkCue [0x41]%N 0 3].

End SamplePaths.


(* ===================================================================== *)
(** ** server/index.js: the background job of a task *)
(* ===================================================================== *)

Module Server.

Import Processor.

Section Background.

Variables W MarkerResult Msg Data : Type.

Variable processTimeMarker :
  jsstring -> Q -> W -> list (inner_event Msg Data) * completion MarkerResult * W.

Inductive task_status := StatusProcessing | StatusCompleted | StatusFailed.

(** [task.message]: '准备处理...', a message of the batch, '处理完成'. *)
Inductive task_message :=
| Preparing
| FromBatch (msg : batch_message Msg)
| Finished.

(** [task.results]: while the batch runs, the updates merged so far into
    the slots of the array, each with its index; afterwards the array
    the batch resolved with. *)
Inductive task_results :=
| Live (updates : list (nat * task_update MarkerResult Data))
| Final (results : list (entry MarkerResult)).

Record task := mkTask {
  status : task_status;
  progress : Z;
  message : task_message;
  results : task_results;
  error : option jsstring }.

(** The task as [/api/process] creates it. *)
Definition new_task : task := mkTask StatusProcessing 0 Preparing (Live []) None.

(** The two callbacks [processAudioInBackground] hands to the batch. *)
Definition on_event (t : task) (ev : event MarkerResult Msg Data) : task :=
  match ev with
  | OnProgress _ _ _ p msg =>
      mkTask (status t) p (FromBatch msg) (results t) (error t)
  | OnTaskUpdate _ _ _ index data =>
      mkTask (status t) (progress t) (message t)
        (match results t with
         | Live updates => Live (updates ++ [(index, data)])
         | Final r => Final r
         end)
        (error t)
  end.

(** [processAudioInBackground], up to the removal of the uploaded file:
    the task when the job ends, and the world it leaves. *)
Definition processAudioInBackground (audioFilePath : jsstring)
  (markers : list Q) (w : W) : task * W :=
  match processMultipleMarkers processTimeMarker audioFilePath markers (w, []) with
  | (outcome, (w', calls)) =>
      let t := fold_left on_event calls new_task in
      (match outcome with
       | Normal r => mkTask StatusCompleted 100 Finished (Final r) (error t)
       | Throw e =>
           mkTask StatusFailed (progress t) (message t) (results t)
             (Some (Completion.message e))
       end, w')
  end.

End Background.

Arguments Finished {Msg}.
Arguments Final {MarkerResult Data} results.
Arguments Live {MarkerResult Data} updates.
Arguments status {MarkerResult Msg Data} t.
Arguments progress {MarkerResult Msg Data} t.
Arguments message {MarkerResult Msg Data} t.
Arguments results {MarkerResult Msg Data} t.
Arguments error {MarkerResult Msg Data} t.
Arguments processAudioInBackground {W MarkerResult Msg Data}
  processTimeMarker audioFilePath markers w.

End Server.


(* ===================================================================== *)
(** ** llm.js: the brackets [fixJsonString] looks for *)
(* ===================================================================== *)

Module JsonText.

(** [{] or [[], and [}] or []]. *)
Definition is_opener (c : N) : bool := ((c =? Llm.LBRACE) || (c =? Llm.LBRACKET))%N.
Definition is_closer (c : N) : bool := ((c =? Llm.RBRACE) || (c =? Llm.RBRACKET))%N.

End JsonText.


(* ===================================================================== *)
(** ** videoSynth.js: the subtitle timer on a duration that may be NaN *)
(* ===================================================================== *)

(** The duration handed to [generateSubtitlesFromScript] by
    [synthesizeVideo] comes from the private probe, whose [parseFloat]
    answers [NaN] when the tool prints no number.  [NaN <= 0] is false,
    so the guard lets it through; this module is the timer with the
    arithmetic of numbers that may be [NaN].  On a number it computes
    what [VideoSynth.generateSubtitlesFromScript] computes. *)
Module Timer.

Import VideoSynth.

(** An arithmetic operation: [NaN] as soon as an operand is [NaN]. *)
Definition lift2 (f : Q -> Q -> Q) (a b : jsnum) : jsnum :=
  match a, b with
  | Num x, Num y => Num (f x y)
  | _, _ => NaN
  end.

Definition num_add : jsnum -> jsnum -> jsnum := lift2 Qplus.
Definition num_sub : jsnum -> jsnum -> jsnum := lift2 Qminus.
Definition num_mul : jsnum -> jsnum -> jsnum := lift2 Qmult.
(** Division; the divisors below are positive counts. *)
Definition num_div : jsnum -> jsnum -> jsnum := lift2 Qdiv.
(** [Math.max] and [Math.min] *)
Definition num_max : jsnum -> jsnum -> jsnum := lift2 js_max.
Definition num_min : jsnum -> jsnum -> jsnum := lift2 js_min.

(** [a <= b]: false when an operand is [NaN]. *)
Definition num_le (a b : jsnum) : bool :=
  match a, b with
  | Num x, Num y => Qle_bool x y
  | _, _ => false
  end.

(** A cue whose times may be [NaN]. *)
Record timed_cue := mkTimed {
  t_text : jsstring; t_start : jsnum; t_duration : jsnum }.


Fixpoint sub_cues (currentTime subDuration : jsnum) (subIndex : nat)
  (subParts : list jsstring) : list timed_cue :=
  match subParts with
  | [] => []
  | subPart :: rest =>
      mkTimed subPart
        (num_add currentTime (num_mul (Num (Qnat subIndex)) subDuration))
        (num_max (Num 1) subDuration)
        :: sub_cues currentTime subDuration (S subIndex) rest
  end.

Definition segment_duration (totalDuration : jsnum) (totalChars n index : nat)
  (segment : jsstring) (currentTime : jsnum) : jsnum :=
  let charRatio := Qnat (length segment) / Qnat totalChars in
  let duration := num_mul totalDuration (Num charRatio) in
  let duration := num_max (Num (3 # 2)) (num_min duration (Num 8)) in
  if (index =? n - 1)%nat
  then num_max (Num (3 # 2)) (num_sub totalDuration currentTime)
  else duration.

Definition segment_cues (segment : jsstring) (currentTime duration : jsnum)
  : list timed_cue :=
  if (25 <? length segment)%nat then
    let subParts := splitByComma segment 25 in
    let subDuration := num_div duration (Num (Qnat (length subParts))) in
    sub_cues currentTime subDuration 0 subParts
  else [mkTimed segment currentTime duration].

Fixpoint forEach_segment (totalDuration : jsnum) (totalChars n : nat)
  (index : nat) (segments : list jsstring) (currentTime : jsnum)
  : list timed_cue :=
  match segments with
  | [] => []
  | segment :: rest =>
      let duration :=
        segment_duration totalDuration totalChars n index segment currentTime in
      segment_cues segment currentTime duration
        ++ forEach_segment totalDuration totalChars n (S index) rest
             (num_add currentTime duration)
  end.

Definition generateSubtitlesFromScript (script : jsstring)
  (totalDuration : jsnum) : list timed_cue :=
  if negb (truthy script) || num_le totalDuration (Num 0) then []
  else
    let segments := script_segments script in
    if (length segments =? 0)%nat then []
    else
      let totalChars := fold_left (fun sum seg => (sum + length seg)%nat) segments 0%nat in
      if (totalChars =? 0)%nat then []
      else forEach_segment totalDuration totalChars (length segments) 0 segments
             (Num 0).

End Timer.

(* ===================================================================== *)
(** ** tts.js: what the splitter keeps, and where a forced split cuts *)
(* ===================================================================== *)

Module Cuts.

(** A code unit that [trim] never removes. *)
Definition visible (c : N) : bool := negb (is_ws c).

(** A text without its white space. *)
Definition content (s : jsstring) : jsstring := filter visible s.

(** Index [i] of [segment] holds the full-width comma. *)
Definition comma_at (segment : jsstring) (i : nat) : Prop :=
  nth_error segment i = Some FW_COMMA.

(** [r] is the answer of [s.lastIndexOf(c, fromIndex)] restricted to the
    indices below [upto]: the greatest such index at most [fromIndex]
    that holds [c], or none. *)
Definition last_match (s : jsstring) (c : N) (fromIndex upto : nat)
  (r : option nat) : Prop :=
  match r with
  | Some j =>
      (j < upto)%nat /\ (j <= fromIndex)%nat /\ nth_error s j = Some c
      /\ forall k, (j < k)%nat -> (k < upto)%nat -> (k <= fromIndex)%nat ->
                   nth_error s k <> Some c
  | None =>
      forall k, (k < upto)%nat -> (k <= fromIndex)%nat ->
                nth_error s k <> Some c
  end.

(** Where the piece that starts at [start] ends, in the words of the
    specification: while more than [maxLength] code units remain, right
    after the nearest comma that precedes the end of the target length
    (the last comma among the indices [start + 1 .. start + maxLength]),
    and at the target length when there is no such comma; the rest of
    the segment otherwise. *)
Definition forced_cut (maxLength : nat) (segment : jsstring)
  (start end_ : nat) : Prop :=
  if (start + maxLength <? length segment)%nat then
    (exists i, (start < i <= start + maxLength)%nat
               /\ comma_at segment i
               /\ (forall j, (i < j <= start + maxLength)%nat ->
                             ~ comma_at segment j)
               /\ end_ = S i)
    \/ ((forall j, (start < j <= start + maxLength)%nat ->
                   ~ comma_at segment j)
        /\ end_ = (start + maxLength)%nat)
  else end_ = (start + maxLength)%nat.

(** Consecutive cuts [(start, end)] that begin at [start] and run to the
    end of the segment. *)
Fixpoint chain (segment : jsstring) (start : nat) (cuts : list (nat * nat))
  : Prop :=
  match cuts with
  | [] => (length segment <= start)%nat
  | (s, e) :: rest =>
      s = start /\ (start < length segment)%nat /\ (start < e)%nat
      /\ chain segment e rest
  end.

(** The piece pushed for a cut. *)
Definition piece (segment : jsstring) (cut : nat * nat) : jsstring :=
  trim (substring segment (fst cut) (snd cut)).

(** What replaces a segment in the result: the segment itself when it
    has at most 1000 bytes, its forced pieces otherwise. *)
Definition splits (maxLength : nat) (segment : jsstring)
  (group : list jsstring) : Prop :=
  if (1000 <? utf8_length segment)%nat then
    exists cuts,
      group = map (piece segment) cuts
      /\ chain segment 0 cuts
      /\ Forall (fun cut => forced_cut maxLength segment (fst cut) (snd cut))
                cuts
  else group = [segment].

End Cuts.

(* ===================================================================== *)
(** ** Double-precision arithmetic *)
(* ===================================================================== *)

(** A JavaScript number is a double: 53 significant bits, the smallest
    positive one being [2 ^ -1074].  Every arithmetic operation returns
    the double nearest to the exact result, a tie going to the one whose
    last bit is 0.  Results beyond the largest double (about
    [1.8 * 10 ^ 308]) are outside this model. *)
Module Doubles.

(** The nearest integer, a tie going to the even one. *)
Definition nearest_even (x : Q) : Z :=
  let f := Qfloor x in
  match Qcompare (x - inject_Z f) (1 # 2) with
  | Lt => f
  | Gt => (f + 1)%Z
  | Eq => if Z.even f then f else (f + 1)%Z
  end.

(** [floor (log2 x)] for [0 < x]. *)
Definition binade (x : Q) : Z :=
  let k := (Z.log2 (Qnum x) - Z.log2 (Zpos (Qden x)))%Z in
  if Qle_bool (2 ^ k) x then k else (k - 1)%Z.

(** The exponent of the unit in the last place of the doubles of the
    binade [k]. *)
Definition ulp_exponent (k : Z) : Z := Z.max (k - 52) (-1074).

Definition round_positive (x : Q) : Q :=
  let e := ulp_exponent (binade x) in
  inject_Z (nearest_even (x / 2 ^ e)) * 2 ^ e.

(** The double nearest to [x]. *)
Definition round53 (x : Q) : Q :=
  match Qcompare x 0 with
  | Eq => 0
  | Gt => round_positive x
  | Lt => - round_positive (- x)
  end.

(** [a + b], [a - b], [a * b] and [a / b] on doubles. *)
Definition add (a b : Q) : Q := round53 (a + b).
Definition sub (a b : Q) : Q := round53 (a - b).
Definition mul (a b : Q) : Q := round53 (a * b).
Definition div (a b : Q) : Q := round53 (a / b).

(** The number literal [d], read as a double. *)
Definition literal (d : Q) : Q := round53 d.

End Doubles.

(* ===================================================================== *)
(** ** processor.js, asr.js: the transcription window in doubles *)
(* ===================================================================== *)

(** [Processor.marker_window], [Asr.segmentCount] and [Asr.segmentTasks]
    with the arithmetic of the program: every operation rounds. *)
Module Float64.

Import VideoSynth.

(** The transcription window computed at the start of
    [processTimeMarker]. *)
Definition marker_window (ffprobe : jsstring -> completion jsstring)
  (parseFloat : jsstring -> jsnum) (audioFilePath : jsstring) (markerTime : Q)
  : completion (Q * jsnum) :=
  bind (Asr.getAudioDuration ffprobe parseFloat audioFilePath)
    (fun audioDuration =>
       let startTime := js_max 0 (Doubles.sub markerTime 300) in
       let endTime :=
         Processor.min_num audioDuration (Doubles.add markerTime 180) in
       Normal (startTime, endTime)).

(** [endTime - startTime], the length handed to [extractAudioSegment] and,
    as the end of the extract, to [transcribeAudio]. *)
Definition window_length (startTime endTime : Q) : Q :=
  Doubles.sub endTime startTime.

(** [Math.ceil(duration / segmentDuration)] in [transcribeAudio]. *)
Definition segmentCount (startTime endTime : Q) : nat :=
  let duration := Doubles.sub endTime startTime in
  Z.to_nat (Qceiling (Doubles.div duration 60)).

(** The loop that prepares [segmentTasks]. *)
Definition segmentTasks (startTime endTime : Q) : list Asr.segment_task :=
  map (fun i =>
         let segmentStart :=
           Doubles.add startTime (Doubles.mul (Qnat i) 60) in
         Asr.mkTask i segmentStart
           (js_min 60 (Doubles.sub endTime segmentStart)))
      (seq 0 (segmentCount startTime endTime)).

(** The smallest length that [transcribeAudio], called from 0, cuts
    into a chunk: [31 * 2 ^ -1074]. *)
Definition least_length : Q := 31 * 2 ^ (-1074).

End Float64.

(** Sample times, read as doubles. *)
Module Times.

(** A marker at 332.19 seconds. *)
Definition marker_332_19 : Q := Doubles.literal (33219 # 100).

(** A window from 268.7 to 568.7 seconds. *)
Definition from_268_7 : Q := Doubles.literal (2687 # 10).
Definition to_568_7 : Q := Doubles.literal (5687 # 10).

(** The largest double that [transcribeAudio], called from 0, does not
    cut into a chunk. *)
Definition below_least : Q := 30 * 2 ^ (-1074).

End Times.

(* ===================================================================== *)
(** ** General lemmas on strings, lists and numbers *)
(* ===================================================================== *)

Lemma includes_app_l (s t p : jsstring) :
  includes s p = true -> includes (s ++ t) p = true.
Proof.
  assert (Hpre : forall p s t, prefixb p s = true -> prefixb p (s ++ t) = true).
  { induction p0 as [|a p' IH]; intros [|b s'] t' H; simpl in *;
      try reflexivity; try discriminate.
    apply andb_true_iff in H as [H1 H2]. rewrite H1. simpl. now apply IH. }
  induction s as [|c s' IH]; simpl; intro H.
  - rewrite orb_false_r in H. destruct p; [|discriminate].
    destruct t; reflexivity.
  - apply orb_true_iff in H as [H|H].
    + pose proof (Hpre p (c :: s') t H) as X. simpl app in X.
      rewrite X. reflexivity.
    + rewrite (IH H). apply orb_true_r.
Qed.

Lemma length_zero_nil {A} (l : list A) : (length l =? 0)%nat = true -> l = [].
Proof. destruct l; [reflexivity | discriminate]. Qed.

Lemma Qnat_S (n : nat) : VideoSynth.Qnat (S n) == VideoSynth.Qnat n + 1.
Proof.
  unfold VideoSynth.Qnat. rewrite Nat2Z.inj_succ, <- Z.add_1_r, inject_Z_plus. reflexivity.
Qed.

Lemma existsb_rev_eq (f : N -> bool) (l : jsstring) :
  existsb f (rev l) = existsb f l.
Proof.
  induction l as [|x l IH]; simpl; [reflexivity|].
  rewrite existsb_app, IH. simpl. rewrite orb_false_r. apply orb_comm.
Qed.

Lemma Forall_filter_keep {A} (P : A -> Prop) (f : A -> bool) (l : list A) :
  Forall P l -> Forall P (filter f l).
Proof.
  induction 1 as [|x l Hx _ IH]; simpl; [constructor|].
  destruct (f x); [now constructor | exact IH].
Qed.

(* ===================================================================== *)
(** ** Image-prompt normalisation (C9) *)
(* ===================================================================== *)

Lemma normalizeImagePrompt_fixed (lower : jsstring -> jsstring) (q : jsstring) :
  truthy q = true -> Llm.names_style lower q = true ->
  Llm.normalizeImagePrompt lower q = q.
Proof.
  unfold Llm.names_style, Llm.normalizeImagePrompt. intros -> H.
  destruct (includes q Llm.ZOOTOPIA_CN); [reflexivity|].
  destruct (includes (lower q) Llm.ZOOTOPIA_EN); [reflexivity|discriminate].
Qed.

Lemma normalizeImagePrompt_styled (lower : jsstring -> jsstring) (p : jsstring) :
  truthy (Llm.normalizeImagePrompt lower p) = true
  /\ Llm.names_style lower (Llm.normalizeImagePrompt lower p) = true.
Proof.
  unfold Llm.normalizeImagePrompt.
  destruct (truthy p) eqn:Ep; cbn [negb].
  - destruct (includes p Llm.ZOOTOPIA_CN) eqn:Ecn; cbn [negb andb].
    + split; [exact Ep|]. unfold Llm.names_style. now rewrite Ecn.
    + destruct (includes (lower p) Llm.ZOOTOPIA_EN) eqn:Een; cbn [negb].
      * split; [exact Ep|]. unfold Llm.names_style. rewrite Een. apply orb_true_r.
      * split; [reflexivity|]. unfold Llm.names_style.
        rewrite (includes_app_l Llm.STYLE_PREFIX p Llm.ZOOTOPIA_CN); reflexivity.
  - split; reflexivity.
Qed.

(** C9: [normalizeImagePrompt] is idempotent and its output always names
    the required visual style (it contains the Chinese style name, or the
    English one in any letter case), whatever [toLowerCase] computes. *)
Theorem normalizeImagePrompt_idempotent
  (toLowerCase : jsstring -> jsstring) (prompt : jsstring) :
  Llm.normalizeImagePrompt toLowerCase (Llm.normalizeImagePrompt toLowerCase prompt)
    = Llm.normalizeImagePrompt toLowerCase prompt
  /\ Llm.names_style toLowerCase (Llm.normalizeImagePrompt toLowerCase prompt) = true.
Proof.
  destruct (normalizeImagePrompt_styled toLowerCase prompt) as [Ht Hs].
  split; [|exact Hs].
  now apply normalizeImagePrompt_fixed.
Qed.

(* ===================================================================== *)
(** ** Duration probing (C7) *)
(* ===================================================================== *)

(** C7, as stated, fails: the probe the marker orchestrator imports from
    asr.js rethrows a probing failure instead of returning 5. *)
Lemma getAudioDuration_orchestrator_throws :
  ~ (forall (ffprobe : jsstring -> completion jsstring)
            (parseFloat : jsstring -> jsnum) (path : jsstring),
        exists d, Asr.getAudioDuration ffprobe parseFloat path = Normal d).
Proof.
  intro H.
  destruct (H (fun _ => Throw (mkError [])) (fun _ => NaN) []) as [d Hd].
  discriminate Hd.
Qed.

(** C7 (amended): the private probe of videoSynth.js never throws and
    answers the parsed probe output, or 5 when probing fails; the probe of
    asr.js, which the marker orchestrator uses, answers the parsed probe
    output and rethrows a probing failure, which then is the outcome of
    the orchestrator's window computation. *)
Theorem getAudioDuration_fallback_and_rethrow
  (ffprobe : jsstring -> completion jsstring) (parseFloat : jsstring -> jsnum)
  (path : jsstring) (markerTime : Q) :
  VideoSynth.getAudioDuration ffprobe parseFloat path
    = Normal (match ffprobe path with
              | Normal output => parseFloat (trim output)
              | Throw _ => Num 5
              end)
  /\ Asr.getAudioDuration ffprobe parseFloat path
    = match ffprobe path with
      | Normal output => Normal (parseFloat (trim output))
      | Throw e => Throw e
      end
  /\ Processor.marker_window ffprobe parseFloat path markerTime
    = match ffprobe path with
      | Normal output =>
          Normal (VideoSynth.js_max 0 (markerTime - 300),
                  Processor.min_num (parseFloat (trim output)) (markerTime + 180))
      | Throw e => Throw e
      end.
Proof.
  unfold VideoSynth.getAudioDuration, Asr.getAudioDuration,
    Processor.marker_window, Asr.getAudioDuration.
  case_eq (ffprobe path); intros; simpl; repeat split; reflexivity.
Qed.

(* ===================================================================== *)
(** ** Subtitle priority in the result and in the video (C10) *)
(* ===================================================================== *)

(** C10: the [subtitles] field of the view-model of a slide, for every
    slide, index and audio duration.  A non-empty author-provided list
    is kept unchanged, whatever the script and the duration are.  When
    the list is absent or empty, the field is derived from the script
    and the realized audio duration (milliseconds, turned into seconds)
    as soon as there is script text and a duration other than 0, and is
    left as the author gave it (absent, or the empty list) otherwise; so
    the field holds derived cues exactly in that case.  The cues burned
    into the video go the other way: they come from the script whenever
    there is script text, whatever the author provided, and from the
    author's non-empty list only when there is no script text. *)
Theorem view_subtitles_priority (i : nat) (s : Processor.slide)
  (audioDuration : option Q) :
  let field :=
    Processor.v_subtitles (Processor.slide_view_model i s audioDuration) in
  (forall subs, Processor.subtitles s = Some subs -> subs <> [] ->
     field = Processor.Authored subs)
  /\ (Processor.subtitles s = None \/ Processor.subtitles s = Some [] ->
      truthy (Processor.script s) = true ->
      forall ms, audioDuration = Some ms -> ~ ms == 0 ->
      field = Processor.Generated
                (VideoSynth.generateSubtitlesFromScript
                   (Processor.script s) (ms / 1000)))
  /\ (truthy (Processor.script s) = false \/ audioDuration = None
      \/ (exists ms, audioDuration = Some ms /\ ms == 0) ->
      field = match Processor.subtitles s with
              | Some subs => Processor.Authored subs
              | None => Processor.NoSubtitles
              end)
  /\ (forall cues,
        field = Processor.Generated cues ->
        (Processor.subtitles s = None \/ Processor.subtitles s = Some [])
        /\ truthy (Processor.script s) = true
        /\ exists ms, audioDuration = Some ms /\ ~ ms == 0
             /\ cues = VideoSynth.generateSubtitlesFromScript
                         (Processor.script s) (ms / 1000))
  /\ (truthy (Processor.script s) = true ->
      forall currentTime resultDuration,
        VideoSynth.slide_cues (Processor.slide_for_video s) currentTime resultDuration
        = map (VideoSynth.shift_cue currentTime)
              (VideoSynth.generateSubtitlesFromScript
                 (Processor.script s) resultDuration))
  /\ (truthy (Processor.script s) = false ->
      forall subs, Processor.subtitles s = Some subs -> subs <> [] ->
      forall currentTime resultDuration,
        VideoSynth.slide_cues (Processor.slide_for_video s) currentTime resultDuration
        = VideoSynth.rescaled_cues subs currentTime resultDuration).
Proof.
  intro field. unfold field. cbn [Processor.slide_view_model Processor.v_subtitles].
  unfold Processor.view_subtitles.
  split; [|split; [|split; [|split; [|split]]]].
  - intros subs Hs Hne. rewrite Hs.
    destruct subs as [|x l]; [contradiction|]. reflexivity.
  - intros Hsubs Ht ms -> Hms. rewrite Ht.
    assert (Ha : Processor.absent_or_empty (Processor.subtitles s) = true)
      by (destruct Hsubs as [-> | ->]; reflexivity).
    rewrite Ha. cbn [andb Processor.truthy_number].
    destruct (Qeq_bool ms 0) eqn:E; [|reflexivity].
    apply Qeq_bool_iff in E. contradiction.
  - intros Hno.
    assert (Hfalse : Processor.absent_or_empty (Processor.subtitles s)
                     && truthy (Processor.script s)
                     && Processor.truthy_number audioDuration = false).
    { destruct Hno as [Ht | [-> | [ms [-> Hms]]]].
      - rewrite Ht, andb_false_r. reflexivity.
      - apply andb_false_r.
      - cbn [Processor.truthy_number].
        apply Qeq_bool_iff in Hms. rewrite Hms. apply andb_false_r. }
    rewrite Hfalse. reflexivity.
  - intros cues.
    destruct (Processor.absent_or_empty (Processor.subtitles s)) eqn:Ea;
      cbn [andb].
    + destruct (truthy (Processor.script s)) eqn:Et; cbn [andb].
      * destruct audioDuration as [ms|]; cbn [Processor.truthy_number].
        -- destruct (Qeq_bool ms 0) eqn:E; cbn [negb].
           ++ destruct (Processor.subtitles s); intro H; discriminate H.
           ++ intro H. inversion H; subst. repeat split.
              ** destruct (Processor.subtitles s) as [l|]; [right|left; reflexivity].
                 simpl in Ea. now rewrite (length_zero_nil l Ea).
              ** exists ms. split; [reflexivity|]. split; [|reflexivity].
                 intro Hz. apply Qeq_bool_iff in Hz. congruence.
        -- destruct (Processor.subtitles s); intro H; discriminate H.
      * destruct (Processor.subtitles s); intro H; discriminate H.
    + destruct (Processor.subtitles s); intro H; discriminate H.
  - intros Ht currentTime resultDuration. unfold VideoSynth.slide_cues.
    simpl. rewrite Ht. reflexivity.
  - intros Ht subs Hs Hne currentTime resultDuration.
    unfold VideoSynth.slide_cues. simpl. rewrite Ht, Hs.
    destruct subs as [|x l]; [contradiction | reflexivity].
Qed.

(** The theorem at a slide that has both a script and an author cue (the
    author's list is shown, the script is burned in), at the same slide
    without author cues and with an empty list of them (cues are derived
    for the 4 seconds of audio), and at a slide with author cues and no
    script (the author's cues are burned in). *)
Lemma view_subtitles_priority_witness :
  Processor.v_subtitles
    (Processor.slide_view_model 0 Samples.slide_with_both (Some 4000))
  = Processor.Authored [Samples.author_cue_3s]
  /\ Processor.v_subtitles
       (Processor.slide_view_model 0 Samples.slide_script_only (Some 4000))
     = Processor.Generated
         (VideoSynth.generateSubtitlesFromScript [0x77ED; 0x3002]%N (4000 / 1000))
  /\ Processor.v_subtitles
       (Processor.slide_view_model 1 Samples.slide_empty_list (Some 4000))
     = Processor.Generated
         (VideoSynth.generateSubtitlesFromScript [0x77ED; 0x3002]%N (4000 / 1000))
  /\ Processor.v_subtitles
       (Processor.slide_view_model 0 Samples.slide_script_only None)
     = Processor.NoSubtitles
  /\ VideoSynth.slide_cues (Processor.slide_for_video Samples.slide_with_both) 0 4
     = map (VideoSynth.shift_cue 0)
           (VideoSynth.generateSubtitlesFromScript [0x77ED; 0x3002]%N 4)
  /\ VideoSynth.slide_cues (Processor.slide_for_video Samples.slide_cues_only) 0 4
     = VideoSynth.rescaled_cues [Samples.author_cue_3s] 0 4.
Proof.
  split; [|split; [|split; [|split; [|split]]]].
  - apply (proj1 (view_subtitles_priority 0 Samples.slide_with_both (Some 4000)));
      [reflexivity | discriminate].
  - destruct (view_subtitles_priority 0 Samples.slide_script_only (Some 4000))
      as [_ [H _]].
    apply (H (or_introl eq_refl) eq_refl 4000 eq_refl). discriminate.
  - destruct (view_subtitles_priority 1 Samples.slide_empty_list (Some 4000))
      as [_ [H _]].
    apply (H (or_intror eq_refl) eq_refl 4000 eq_refl). discriminate.
  - destruct (view_subtitles_priority 0 Samples.slide_script_only None)
      as [_ [_ [H _]]].
    apply H. right. left. reflexivity.
  - destruct (view_subtitles_priority 0 Samples.slide_with_both (Some 4000))
      as [_ [_ [_ [_ [H _]]]]].
    apply H. reflexivity.
  - destruct (view_subtitles_priority 0 Samples.slide_cues_only (Some 4000))
      as [_ [_ [_ [_ [_ H]]]]].
    apply (H eq_refl [Samples.author_cue_3s] eq_refl). discriminate.
Defined.

(* ===================================================================== *)
(** ** Rescaling author-provided subtitles (C8) *)
(* ===================================================================== *)

Section Rescale.

Import VideoSynth Measures.










End Rescale.




(* ===================================================================== *)
(** ** Marker isolation in the batch (C1) *)
(* ===================================================================== *)

Section BatchIsolation.

Import Processor.

Variables (W MarkerResult Msg Data : Type).
Variable processTimeMarker :
  jsstring -> Q -> W -> list (inner_event Msg Data) * completion MarkerResult * W.

Lemma markers_loop_resolves (audioFilePath : jsstring) (total : nat)
  (rest : list Q) :
  forall (i : nat) (results : list (entry MarkerResult)) (w : W)
         (tr : list (event MarkerResult Msg Data)),
  exists w' tr',
    markers_loop processTimeMarker audioFilePath total i rest results (w, tr)
    = (Normal (results ++ batch_spec processTimeMarker audioFilePath rest w),
       (w', tr')).
Proof.
  induction rest as [|markerTime rest' IH]; intros i results w tr.
  - exists w. eexists. simpl. unfold mbind, emit, ret. simpl.
    rewrite app_nil_r. reflexivity.
  - simpl. unfold mbind at 1 2 3. unfold emit at 1 2. simpl.
    unfold try_catch_M, mbind at 1 2. unfold await_processTimeMarker.
    destruct (processTimeMarker audioFilePath markerTime w)
      as [[calls outcome] w1] eqn:Ecall.
    destruct outcome as [result | e]; unfold mbind, emit, ret; simpl.
    + match goal with
      | |- context [markers_loop _ _ _ ?j _ ?r (?w0, ?t0)] =>
          destruct (IH j r w0 t0) as [w' [tr' Heq]]
      end.
      exists w', tr'. rewrite Heq, <- app_assoc. reflexivity.
    + match goal with
      | |- context [markers_loop _ _ _ ?j _ ?r (?w0, ?t0)] =>
          destruct (IH j r w0 t0) as [w' [tr' Heq]]
      end.
      exists w', tr'. rewrite Heq, <- app_assoc. reflexivity.
Qed.

Lemma batch_spec_length (audioFilePath : jsstring) (markerTimes : list Q) :
  forall w, length (batch_spec processTimeMarker audioFilePath markerTimes w)
            = length markerTimes.
Proof.
  induction markerTimes as [|m rest IH]; intro w; simpl.
  - reflexivity.
  - destruct (processTimeMarker audioFilePath m w) as [[calls outcome] w1].
    simpl. now rewrite IH.
Qed.

Lemma batch_spec_markers (audioFilePath : jsstring) (markerTimes : list Q) :
  forall w, map entry_markerTime
              (batch_spec processTimeMarker audioFilePath markerTimes w)
            = markerTimes.
Proof.
  induction markerTimes as [|m rest IH]; intro w; simpl.
  - reflexivity.
  - destruct (processTimeMarker audioFilePath m w) as [[calls outcome] w1].
    simpl. rewrite IH. destruct outcome; reflexivity.
Qed.

End BatchIsolation.

(** C1: for every audio path, every list of marker times, every behaviour
    of [processTimeMarker] and every starting world, the batch resolves
    (it never throws) with exactly one entry per marker, in marker order:
    the entry of a marker is its result, or the failure placeholder with
    the marker time and the error message when its processing throws, and
    each marker is processed in the world its predecessors left. *)
Theorem processMultipleMarkers_isolates_failures
  (W MarkerResult Msg Data : Type)
  (processTimeMarker :
     jsstring -> Q -> W ->
     list (Processor.inner_event Msg Data) * completion MarkerResult * W)
  (audioFilePath : jsstring) (markerTimes : list Q) (w : W)
  (tr : list (Processor.event MarkerResult Msg Data)) :
  exists w' tr',
    Processor.processMultipleMarkers processTimeMarker audioFilePath markerTimes
      (w, tr)
    = (Normal (Processor.batch_spec processTimeMarker audioFilePath markerTimes w),
       (w', tr'))
  /\ length (Processor.batch_spec processTimeMarker audioFilePath markerTimes w)
     = length markerTimes
  /\ map Processor.entry_markerTime
         (Processor.batch_spec processTimeMarker audioFilePath markerTimes w)
     = markerTimes.
Proof.
  destruct (markers_loop_resolves W MarkerResult Msg Data processTimeMarker audioFilePath
              (length markerTimes) markerTimes 0 [] w tr) as [w' [tr' H]].
  exists w', tr'. split; [exact H|]. split.
  - apply batch_spec_length.
  - apply batch_spec_markers.
Qed.

(* ===================================================================== *)
(** ** Chunk order of the transcript (C5) *)
(* ===================================================================== *)

Section ChunkOrder.

Import Asr.

Lemma set_slot_length {A} (k : nat) (v : A) (slots : list (option A)) :
  length (set_slot k v slots) = length slots.
Proof.
  revert k. induction slots as [|s t IH]; intros [|k]; simpl; auto.
Qed.

Lemma nth_error_set_slot {A} (v : A) (slots : list (option A)) :
  forall k j,
    nth_error (set_slot k v slots) j
    = if ((j =? k) && (k <? length slots))%nat then Some (Some v)
      else nth_error slots j.
Proof.
  induction slots as [|s t IH]; intros k j.
  - simpl. destruct k; rewrite andb_false_r; reflexivity.
  - destruct k as [|k], j as [|j]; simpl; try reflexivity.
    rewrite IH. reflexivity.
Qed.

Lemma read_slots_full {A B} (f : A -> B) (batch : list A) :
  forall slots : list (option B),
    length slots = length batch ->
    (forall j, (j < length batch)%nat ->
               nth_error slots j = option_map (fun t => Some (f t)) (nth_error batch j)) ->
    read_slots slots = Some (map f batch).
Proof.
  induction batch as [|t batch IH]; intros [|s slots] Hlen Hnth;
    simpl in Hlen; try discriminate; simpl.
  - reflexivity.
  - pose proof (Hnth 0%nat (Nat.lt_0_succ _)) as H0. simpl in H0.
    injection H0 as ->.
    rewrite (IH slots); [reflexivity | lia |].
    intros j Hj. apply (Hnth (S j)). simpl. lia.
Qed.

Variable recognise : jsstring -> segment_task -> completion jsstring.
Variable completion_order : nat -> nat -> list nat.
Variable audioFilePath : jsstring.

Lemma settle_all (n : nat) (batch : list segment_task) (order : list nat) :
  forall ps slots,
    length slots = length batch ->
    let final := fold_left (settle recognise audioFilePath n batch) order (ps, slots) in
    length (snd final) = length batch
    /\ forall j,
         nth_error (snd final) j
         = if (existsb (Nat.eqb j) order && (j <? length batch))%nat
           then option_map (fun t => Some (processSegment_value recognise audioFilePath t))
                  (nth_error batch j)
           else nth_error slots j.
Proof.
  induction order as [|k order IH]; intros ps slots Hlen; simpl.
  - split; [exact Hlen | reflexivity].
  - destruct (nth_error batch k) as [task|] eqn:Ek.
    + destruct (IH (mkState (S (completedCount ps))
                      (reported ps ++
                         [mkProgress
                            (js_round (VideoSynth.Qnat (S (completedCount ps))
                                       / VideoSynth.Qnat n * 80))
                            (MsgSegment (S (completedCount ps)) n)]))
                   (set_slot k (processSegment_value recognise audioFilePath task) slots))
        as [IHl IHn].
      { now rewrite set_slot_length. }
      split; [exact IHl|]. intro j. rewrite IHn, nth_error_set_slot, Hlen.
      destruct (Nat.eqb_spec j k) as [->|Hjk]; simpl.
      * assert (Hk : (k < length batch)%nat)
          by (apply nth_error_Some; congruence).
        apply Nat.ltb_lt in Hk. rewrite Hk, Ek. simpl.
        destruct (existsb (Nat.eqb k) order); reflexivity.
      * reflexivity.
    + destruct (IH ps slots Hlen) as [IHl IHn].
      split; [exact IHl|]. intro j. rewrite IHn.
      destruct (Nat.eqb_spec j k) as [->|Hjk]; simpl; [|reflexivity].
      assert (Hk : (length batch <= k)%nat) by (now apply nth_error_None).
      destruct (k <? length batch)%nat eqn:E; [apply Nat.ltb_lt in E; lia|].
      now rewrite andb_false_r.
Qed.

Hypothesis every_request_settles_once :
  forall b k, Permutation (completion_order b k) (seq 0 k).

Lemma run_batch_in_batch_order (n b : nat) (batch : list segment_task)
  (ps : progress_state) :
  snd (run_batch recognise completion_order audioFilePath n b batch ps)
  = Some (map (processSegment_value recognise audioFilePath) batch).
Proof.
  unfold run_batch.
  pose proof (settle_all n batch (completion_order b (length batch)) ps
                (repeat None (length batch)) (repeat_length _ _)) as H.
  simpl in H.
  destruct (fold_left _ _ _) as [ps' slots]. simpl in *.
  destruct H as [Hlen Hnth].
  apply read_slots_full; [exact Hlen|].
  intros j Hj. rewrite Hnth.
  assert (Hin : In j (completion_order b (length batch))).
  { eapply Permutation_in; [symmetry; apply every_request_settles_once|].
    apply in_seq. lia. }
  assert (He : existsb (Nat.eqb j) (completion_order b (length batch)) = true).
  { apply existsb_exists. exists j. split; [exact Hin | apply Nat.eqb_refl]. }
  apply Nat.ltb_lt in Hj. now rewrite He, Hj.
Qed.

Lemma run_batches_in_order (n : nat) (bs : list (list segment_task)) :
  forall b ps allResults,
    snd (run_batches recognise completion_order audioFilePath n b bs ps allResults)
    = Some (allResults
            ++ map (processSegment_value recognise audioFilePath) (concat bs)).
Proof.
  induction bs as [|batch rest IH]; intros b ps allResults; simpl.
  - now rewrite app_nil_r.
  - pose proof (run_batch_in_batch_order n b batch ps) as Hb.
    destruct (run_batch _ _ _ _ _ _ _) as [ps' [batchResults|]];
      simpl in Hb; [|discriminate].
    injection Hb as ->. rewrite IH, map_app, app_assoc. reflexivity.
Qed.

End ChunkOrder.

Lemma batches_concat (tasks : list Asr.segment_task) :
  concat (Asr.batches tasks) = tasks
  /\ Forall (fun batch => (length batch <= 3)%nat) (Asr.batches tasks).
Proof.
  assert (H : forall n tasks, (length tasks <= n)%nat ->
            concat (Asr.batches tasks) = tasks
            /\ Forall (fun batch => (length batch <= 3)%nat) (Asr.batches tasks)).
  { induction n as [|n IH]; intros l Hl.
    - destruct l; [|simpl in Hl; lia]. split; [reflexivity | constructor].
    - destruct l as [|a [|b [|c rest]]]; simpl.
      + split; [reflexivity | constructor].
      + split; [reflexivity | repeat constructor].
      + split; [reflexivity | repeat constructor].
      + destruct (IH rest) as [Hc Hf]; [simpl in Hl; lia|].
        split; [now rewrite Hc | constructor; [simpl; lia | exact Hf]]. }
  apply (H (length tasks)). lia.
Qed.





(* ===================================================================== *)
(** ** The slide script on an empty slides array (C4) *)
(* ===================================================================== *)

(** [generatePPTScript] never throws: whatever the language model and
    [JSON.parse] do, it resolves with a script. *)
Lemma generatePPTScript_never_throws
  (toLowerCase : jsstring -> jsstring)
  (JSON_parse : jsstring -> completion Llm.json)
  (callLLM : jsstring -> jsstring -> list jsstring -> completion jsstring)
  (knowledgePoint summary : jsstring) (keyPoints : list jsstring) :
  exists script,
    Llm.generatePPTScript toLowerCase JSON_parse callLLM
      knowledgePoint summary keyPoints = Normal script.
Proof.
  unfold Llm.generatePPTScript, try_catch.
  destruct (bind _ _) as [script | e]; eexists; reflexivity.
Qed.

Lemma or_else_truthy (a : option Llm.json) (d : Llm.json) :
  Llm.js_truthy d = true -> Llm.js_truthy (Llm.or_else a d) = true.
Proof.
  intro Hd. unfold Llm.or_else. destruct a as [v|]; [|exact Hd].
  destruct (Llm.js_truthy v) eqn:E; [exact E | exact Hd].
Qed.

Lemma normalizeImagePrompt_value_truthy (lower : jsstring -> jsstring)
  (prompt v : Llm.json) :
  Llm.normalizeImagePrompt_value lower prompt = Normal v ->
  Llm.js_truthy v = true.
Proof.
  unfold Llm.normalizeImagePrompt_value.
  destruct (Llm.js_truthy prompt) eqn:Et; simpl.
  - destruct prompt as [| b | q | s | items | fields]; try discriminate.
    + intro H. injection H as <-. simpl.
      apply (proj1 (normalizeImagePrompt_styled lower s)).
    + destruct (Llm.array_includes items Llm.ZOOTOPIA_CN); [|discriminate].
      intro H. injection H as <-. reflexivity.
  - intro H. injection H as <-. reflexivity.
Qed.

Lemma normalize_slide_wellformed (lower : jsstring -> jsstring)
  (slide : Llm.json) (index : nat) (s : Llm.script_slide) :
  Llm.normalize_slide lower slide index = Normal s ->
  Measures.slide_wellformed s.
Proof.
  unfold Llm.normalize_slide.
  destruct (Llm.get slide Llm.K_TITLE) as [t|]; [|discriminate].
  destruct (Llm.get slide Llm.K_SCRIPT) as [sc|]; [|discriminate].
  destruct (Llm.get slide Llm.K_IMAGEPROMPT) as [p1|]; [|discriminate].
  destruct (Llm.get slide Llm.K_IMAGE_PROMPT) as [p2|]; [|discriminate].
  cbn [bind].
  destruct (Llm.normalizeImagePrompt_value lower _) as [p|] eqn:Ep;
    [|discriminate].
  cbn [bind].
  destruct (Llm.get slide Llm.K_SUBTITLE) as [c|]; [|discriminate].
  destruct (Llm.get slide Llm.K_SUBTITLES) as [subs|]; [|discriminate].
  cbn [bind]. intro H. injection H as <-.
  split; simpl.
  - apply or_else_truthy. reflexivity.
  - eapply normalizeImagePrompt_value_truthy. exact Ep.
Qed.

Lemma map_slides_wellformed (lower : jsstring -> jsstring)
  (items : list Llm.json) :
  forall index l,
    Llm.map_slides lower items index = Normal l ->
    Forall Measures.slide_wellformed l.
Proof.
  induction items as [|slide rest IH]; intros index l; simpl.
  - intro H. injection H as <-. constructor.
  - destruct (Llm.normalize_slide lower slide index) as [s|] eqn:Es;
      [|discriminate].
    cbn [bind].
    destruct (Llm.map_slides lower rest (S index)) as [tail|] eqn:Et;
      [|discriminate].
    cbn [bind]. intro H. injection H as <-.
    constructor; [eapply normalize_slide_wellformed; exact Es|].
    eapply IH. exact Et.
Qed.

(** What does hold of the returned script: for a non-empty knowledge
    point, every slide it contains has a title and an image prompt. *)
Lemma generatePPTScript_slides_wellformed
  (toLowerCase : jsstring -> jsstring)
  (JSON_parse : jsstring -> completion Llm.json)
  (callLLM : jsstring -> jsstring -> list jsstring -> completion jsstring)
  (knowledgePoint summary : jsstring) (keyPoints : list jsstring)
  (script : Llm.ppt_script) :
  truthy knowledgePoint = true ->
  Llm.generatePPTScript toLowerCase JSON_parse callLLM
    knowledgePoint summary keyPoints = Normal script ->
  Forall Measures.slide_wellformed (Llm.slides script).
Proof.
  intros Hkp. unfold Llm.generatePPTScript, try_catch.
  destruct (bind _ _) as [s | e] eqn:E.
  - intro H. injection H as <-.
    destruct (callLLM knowledgePoint summary keyPoints) as [response|];
      [|discriminate].
    cbn [bind] in E. unfold Llm.validate in E.
    destruct (Llm.js_truthy _); [|discriminate].
    destruct (Llm.get _ Llm.K_SLIDES) as [[field|]|]; try discriminate.
    cbn [bind] in E.
    destruct field as [| b | q | x | items | fields]; try discriminate.
    destruct (Llm.map_slides toLowerCase items 0) as [l|] eqn:El;
      [|discriminate].
    cbn [bind] in E. injection E as <-. simpl.
    eapply map_slides_wellformed. exact El.
  - intro H. injection H as <-.
    destruct knowledgePoint as [|k kp]; [discriminate|].
    unfold Llm.generateDefaultScript, Llm.default_slide. simpl Llm.slides.
    repeat constructor.
Qed.

(** The fallback script has five slides. *)
Lemma generateDefaultScript_five_slides (knowledgePoint summary : jsstring) :
  length (Llm.slides (Llm.generateDefaultScript knowledgePoint summary)) = 5%nat.
Proof. reflexivity. Qed.

(** C4 fails on the code: when the model answers [{"slides": []}], which
    [JSON.parse] reads as an object with an empty [slides] array, the
    validation accepts it and the returned script has no slide at all;
    the fallback script is not used. *)
Theorem generatePPTScript_empty_slides_array
  (toLowerCase : jsstring -> jsstring)
  (JSON_parse : jsstring -> completion Llm.json)
  (callLLM : jsstring -> jsstring -> list jsstring -> completion jsstring)
  (knowledgePoint summary : jsstring) (keyPoints : list jsstring) :
  callLLM knowledgePoint summary keyPoints = Normal Samples.EMPTY_SLIDES_RESPONSE ->
  JSON_parse Samples.EMPTY_SLIDES_RESPONSE
    = Normal (Llm.JObj [(Llm.K_SLIDES, Llm.JArr [])]) ->
  Llm.generatePPTScript toLowerCase JSON_parse callLLM
    knowledgePoint summary keyPoints = Normal (Llm.mkScript []).
Proof.
  intros Hllm Hparse.
  unfold Llm.generatePPTScript. rewrite Hllm. simpl bind.
  assert (Hm : Llm.match_object Samples.EMPTY_SLIDES_RESPONSE
               = Some Samples.EMPTY_SLIDES_RESPONSE) by reflexivity.
  unfold Llm.parse_attempts. rewrite Hm, Hparse. reflexivity.
Qed.

(** The theorem at a parser that reads the response as [JSON.parse] does. *)
Lemma generatePPTScript_empty_slides_array_witness :
  Llm.generatePPTScript toLowerCaseASCII Samples.parse_empty_slides
    (fun _ _ _ => Normal Samples.EMPTY_SLIDES_RESPONSE) [0x41]%N [] []
  = Normal (Llm.mkScript []).
Proof.
  apply generatePPTScript_empty_slides_array; reflexivity.
Defined.

(* ===================================================================== *)
(** ** The subtitle timer (C2, C3) *)
(* ===================================================================== *)

Section SubtitleTimer.

Import VideoSynth Measures.

Lemma Qnat_le (i j : nat) : (i <= j)%nat -> Qnat i <= Qnat j.
Proof. intro H. unfold Qnat. rewrite <- Zle_Qle. lia. Qed.

Lemma Qnat_nonneg (i : nat) : 0 <= Qnat i.
Proof. apply (Qnat_le 0 i). lia. Qed.

Lemma Qnat_pos (k : nat) : (0 < k)%nat -> 0 < Qnat k.
Proof.
  intro H. unfold Qnat. change 0 with (inject_Z 0). rewrite <- Zlt_Qlt. lia.
Qed.

Lemma Qnat_scale_le (i j : nat) (sub : Q) :
  0 <= sub -> (i <= j)%nat -> Qnat i * sub <= Qnat j * sub.
Proof.
  intros Hs Hij. apply Qmult_le_compat_r; [now apply Qnat_le | exact Hs].
Qed.

(** The clamped duration of a segment. *)
Lemma segment_duration_bounds (T : Q) (totalChars n index : nat)
  (segment : jsstring) (t : Q) :
  (3 # 2) <= segment_duration T totalChars n index segment t
  /\ ((index =? n - 1)%nat = false ->
      segment_duration T totalChars n index segment t <= 8)
  /\ ((index =? n - 1)%nat = true ->
      segment_duration T totalChars n index segment t = js_max (3 # 2) (T - t)).
Proof.
  unfold segment_duration.
  destruct (index =? n - 1)%nat.
  - split; [|split; [discriminate | reflexivity]].
    split_minmax; lra.
  - split; [|split; [intros _ | discriminate]]; split_minmax; lra.
Qed.

(** The cues of the sub-parts of one comma-split segment. *)
Lemma sub_cues_props (t sub : Q) (parts : list jsstring) :
  0 <= sub ->
  forall i,
    Forall (fun c => t + Qnat i * sub <= start c
                     /\ start c <= t + Qnat (i + length parts) * sub
                     /\ duration c = js_max 1 sub)
           (sub_cues t sub i parts)
    /\ starts_sorted (sub_cues t sub i parts)
    /\ (parts <> [] ->
        start (first_cue (sub_cues t sub i parts)) = t + Qnat i * sub
        /\ start (last_cue (sub_cues t sub i parts))
           = t + Qnat (i + length parts - 1) * sub
        /\ duration (last_cue (sub_cues t sub i parts)) = js_max 1 sub).
Proof.
  intro Hsub. induction parts as [|p rest IH]; intro i; simpl.
  - split; [constructor | split; [constructor | intro H; contradiction]].
  - destruct (IH (S i)) as [Hall [Hsorted Hends]].
    split; [|split].
    + constructor.
      * simpl. split; [lra | split; [|reflexivity]].
        pose proof (Qnat_scale_le i (i + S (length rest)) sub Hsub ltac:(lia)). lra.
      * eapply Forall_impl; [|exact Hall]. intros c [H1 [H2 H3]].
        pose proof (Qnat_scale_le i (S i) sub Hsub ltac:(lia)).
        replace (i + S (length rest))%nat with (S i + length rest)%nat by lia.
        split; [lra | split; [lra | exact H3]].
    + constructor; [exact Hsorted|].
      destruct rest as [|q rest']; simpl; constructor. simpl.
      pose proof (Qnat_scale_le i (S i) sub Hsub ltac:(lia)). lra.
    + intros _. split; [reflexivity|].
      destruct rest as [|q rest'].
      * simpl. replace (i + 1 - 1)%nat with i by lia. split; reflexivity.
      * destruct Hends as [_ [Hl Hd]]; [discriminate|].
        replace (i + S (length (q :: rest')) - 1)%nat
          with (S i + length (q :: rest') - 1)%nat by lia.
        split; [exact Hl | exact Hd].
Qed.

Lemma splitByComma_nonempty (text : jsstring) (maxLength : nat) :
  splitByComma text maxLength <> [].
Proof.
  unfold splitByComma.
  destruct (comma_loop maxLength _ []) as [|x l] eqn:E; simpl; discriminate.
Qed.

Lemma sorted_app (a b : list cue) (bound : Q) :
  starts_sorted a -> starts_sorted b ->
  Forall (fun c => start c <= bound) a ->
  Forall (fun c => bound <= start c) b ->
  starts_sorted (a ++ b).
Proof.
  unfold starts_sorted. intros Ha Hb Hla Hlb.
  induction a as [|x a IH]; simpl; [exact Hb|].
  inversion Ha as [|x' a' Hsa Hhd]; subst.
  inversion Hla as [|x' a' Hx Hla']; subst.
  constructor; [now apply IH|].
  destruct a as [|y a]; simpl.
  - destruct b as [|z b]; constructor.
    inversion Hlb; subst. lra.
  - inversion Hhd; subst. now constructor.
Qed.

Lemma first_cue_app (a b : list cue) :
  a <> [] -> first_cue (a ++ b) = first_cue a.
Proof. destruct a; [contradiction | reflexivity]. Qed.

Lemma last_cue_app (a b : list cue) :
  b <> [] -> last_cue (a ++ b) = last_cue b.
Proof.
  intro Hb. unfold last_cue. induction a as [|x a IH]; simpl; [reflexivity|].
  rewrite IH. destruct (a ++ b) eqn:E; [|reflexivity].
  apply app_eq_nil in E as [_ E]. contradiction.
Qed.

(** The cues one segment contributes, for an allotted duration [d] of at
    least 1.5 seconds beginning at [t]. *)
Lemma segment_cues_props (segment : jsstring) (t d : Q) :
  (3 # 2) <= d ->
  let cs := segment_cues segment t d in
  cs <> []
  /\ Forall (fun c => t <= start c /\ start c <= t + d
                      /\ 1 <= duration c /\ (d <= 8 -> duration c <= 8)) cs
  /\ starts_sorted cs
  /\ start (first_cue cs) == t
  /\ t + d <= cue_end (last_cue cs)
  /\ ((3 # 2) < duration (last_cue cs) ->
      cue_end (last_cue cs) == t + d /\ (3 # 2) < d)
  /\ ((length segment <= 25)%nat -> cs = [mkCue segment t d]).
Proof.
  intros Hd cs. unfold cs, segment_cues.
  destruct (25 <? length segment)%nat eqn:Elen.
  - set (parts := splitByComma segment 25).
    assert (Hne : parts <> []) by apply splitByComma_nonempty.
    assert (Hk : (0 < length parts)%nat).
    { destruct parts; [contradiction | simpl; lia]. }
    set (k := length parts) in *.
    set (sub := d / Qnat k).
    pose proof (Qnat_pos k Hk) as Hkpos.
    assert (Hprod : Qnat k * sub == d).
    { unfold sub. field. lra. }
    assert (Hsub : 0 <= sub).
    { unfold sub. apply Qle_shift_div_l; [exact Hkpos | lra]. }
    assert (Hone : 1 <= Qnat k).
    { apply (Qnat_le 1 k). lia. }
    assert (Hsubd : sub <= d).
    { rewrite <- Hprod. rewrite <- (Qmult_1_l sub) at 1.
      apply Qmult_le_compat_r; assumption. }
    assert (Hpred : Qnat (0 + k - 1) * sub == d - sub).
    { assert (Hq : Qnat (0 + k - 1) == Qnat k - 1).
      { replace k with (S (k - 1)) at 2 by lia. rewrite Qnat_S.
        replace (0 + k - 1)%nat with (k - 1)%nat by lia. ring. }
      rewrite Hq. rewrite <- Hprod. ring. }
    assert (Hzero : Qnat 0 * sub == 0) by (unfold Qnat; simpl; ring).
    destruct (sub_cues_props t sub parts Hsub 0) as [Hall [Hsorted Hends]].
    destruct (Hends Hne) as [Hfirst [Hlast Hdur]]. fold k in Hlast, Hall.
    split; [|split; [|split; [exact Hsorted|split; [|split; [|split]]]]].
    + destruct parts; [contradiction | simpl; discriminate].
    + eapply Forall_impl; [|exact Hall]. intros c [H1 [H2 H3]].
      simpl plus in H2. rewrite Hprod in H2. rewrite Hzero in H1. rewrite H3.
      split; [lra | split; [lra | split; [|intro H8]]]; split_minmax; lra.
    + rewrite Hfirst, Hzero. ring.
    + unfold cue_end. rewrite Hlast, Hdur, Hpred. split_minmax; lra.
    + unfold cue_end. rewrite Hlast, Hdur, Hpred. split_minmax; intro H;
        split; lra.
    + apply Nat.ltb_lt in Elen. lia.
  - simpl. unfold cue_end, last_cue, first_cue. simpl.
    split; [discriminate|].
    split; [repeat constructor; simpl; lra|].
    split; [repeat constructor|].
    split; [reflexivity|].
    split; [lra|].
    split; [intro H; split; [reflexivity | exact H] | reflexivity].
Qed.

(** The cues of the segments from [index] on, beginning at time [t]. *)
Lemma forEach_segment_covers (T : Q) (totalChars n : nat)
  (segments : list jsstring) :
  forall index t,
    (index + length segments = n)%nat -> segments <> [] ->
    let cues := forEach_segment T totalChars n index segments t in
    cues <> []
    /\ Forall (fun c => t <= start c) cues
    /\ starts_sorted cues
    /\ start (first_cue cues) == t
    /\ T <= cue_end (last_cue cues)
    /\ ((3 # 2) < duration (last_cue cues) -> cue_end (last_cue cues) == T).
Proof.
  induction segments as [|segment rest IH]; intros index t Hn Hne;
    [contradiction|].
  simpl.
  set (d := segment_duration T totalChars n index segment t).
  destruct (segment_duration_bounds T totalChars n index segment t)
    as [Hd [Hnotlast Hlast]]. fold d in Hd, Hnotlast, Hlast.
  clearbody d.
  destruct (segment_cues_props segment t d Hd)
    as [Hcs [Hall [Hsorted [Hfirst [Hend [Hexact _]]]]]].
  destruct rest as [|s2 rest'].
  - simpl. rewrite app_nil_r.
    assert (Hidx : (index =? n - 1)%nat = true).
    { apply Nat.eqb_eq. simpl in Hn. lia. }
    specialize (Hlast Hidx).
    split; [exact Hcs|].
    split; [eapply Forall_impl; [|exact Hall]; intros c [Hc _]; exact Hc|].
    split; [exact Hsorted|]. split; [exact Hfirst|].
    split.
    + revert Hend. rewrite Hlast. split_minmax; lra.
    + intro Hlong. destruct (Hexact Hlong) as [He Hd2].
      rewrite He. revert Hd2. rewrite Hlast. split_minmax; lra.
  - assert (Hidx : (index =? n - 1)%nat = false).
    { apply Nat.eqb_neq. simpl in Hn. lia. }
    specialize (Hnotlast Hidx).
    destruct (IH (S index) (t + d)) as [Hr [Hrall [Hrs [_ [Hrend Hrex]]]]];
      [simpl in *; lia | discriminate|].
    set (cues_r := forEach_segment T totalChars n (S index) (s2 :: rest') (t + d))
      in *.
    split; [|split; [|split; [|split; [|split]]]].
    + intro E. apply app_eq_nil in E as [E _]. contradiction.
    + apply Forall_app. split.
      * eapply Forall_impl; [|exact Hall]. intros c [Hc _]; exact Hc.
      * eapply Forall_impl; [|exact Hrall]. simpl. intros c Hc. lra.
    + apply sorted_app with (bound := t + d); try assumption.
      eapply Forall_impl; [|exact Hall]. intros c [_ [Hc _]]; exact Hc.
    + now rewrite first_cue_app.
    + now rewrite last_cue_app.
    + now rewrite last_cue_app.
Qed.

(** *** Text with content yields at least one cue *)

Lemma In_dropWhile (f : N -> bool) (c : N) (s : jsstring) :
  In c s -> f c = false -> In c (dropWhile f s).
Proof.
  intros Hin Hf. induction s as [|x s IH]; simpl in *; [contradiction|].
  destruct (f x) eqn:E.
  - destruct Hin as [->|Hin]; [congruence | now apply IH].
  - exact Hin.
Qed.

Lemma In_trim (c : N) (s : jsstring) :
  In c s -> is_ws c = false -> In c (trim s).
Proof.
  intros Hin Hws. unfold trim, trimEnd, trimStart.
  apply -> in_rev. apply In_dropWhile; [|exact Hws].
  apply -> in_rev. now apply In_dropWhile.
Qed.

Lemma is_ink_not_ws (c : N) : is_ink c = true -> is_ws c = false.
Proof.
  unfold is_ink. intro H. apply andb_true_iff in H as [H _].
  now apply negb_true_iff in H.
Qed.

Lemma is_ink_not_end (c : N) : is_sentence_end c = true -> is_ink c = false.
Proof. unfold is_ink. intros ->. apply andb_false_r. Qed.

Lemma has_ink_trim (s : jsstring) : has_ink s = true -> has_ink (trim s) = true.
Proof.
  unfold has_ink. intro H. apply existsb_exists in H as [c [Hin Hc]].
  apply existsb_exists. exists c. split; [|exact Hc].
  apply In_trim; [exact Hin | now apply is_ink_not_ws].
Qed.

Lemma has_ink_app (a b : jsstring) :
  has_ink (a ++ b) = has_ink a || has_ink b.
Proof. apply existsb_app. Qed.

Lemma has_ink_truthy (s : jsstring) : has_ink s = true -> truthy s = true.
Proof. destruct s; [discriminate | reflexivity]. Qed.

Lemma split_keep_ink (acc s : jsstring) :
  has_ink (rev acc ++ s) = true ->
  Exists (fun p => has_ink p = true) (split_keep is_sentence_end acc s).
Proof.
  revert acc. induction s as [|c t IH]; intros acc H; simpl.
  - rewrite app_nil_r in H. now constructor.
  - destruct (is_sentence_end c) eqn:Ec.
    + rewrite has_ink_app in H. simpl in H.
      rewrite (is_ink_not_end c Ec) in H. simpl in H.
      apply orb_true_iff in H as [H|H]; [now constructor|].
      do 2 apply Exists_cons_tl. now apply IH.
    + apply IH. simpl. now rewrite <- app_assoc.
Qed.

Lemma split_keep_pure (acc s : jsstring) :
  existsb is_sentence_end acc = false ->
  Forall (fun p => existsb is_sentence_end p = true -> has_ink p = false)
         (split_keep is_sentence_end acc s).
Proof.
  revert acc. induction s as [|c t IH]; intros acc Hacc; simpl.
  - constructor; [|constructor]. rewrite existsb_rev_eq. congruence.
  - destruct (is_sentence_end c) eqn:Ec.
    + constructor; [rewrite existsb_rev_eq; congruence|].
      constructor; [|now apply IH].
      intros _. simpl. now rewrite (is_ink_not_end c Ec).
    + apply IH. simpl. now rewrite Ec.
Qed.

Lemma nonblank_ink (p : jsstring) : has_ink p = true -> nonblank p = true.
Proof.
  intro H. apply has_ink_trim in H. unfold nonblank.
  destruct (trim p); [discriminate | reflexivity].
Qed.

Lemma Exists_filter_ink (f : jsstring -> bool) (l : list jsstring) :
  (forall p, has_ink p = true -> f p = true) ->
  Exists (fun p => has_ink p = true) l ->
  Exists (fun p => has_ink p = true) (filter f l).
Proof.
  intros Hf H. induction H as [p l Hp | p l _ IH]; simpl.
  - rewrite (Hf p Hp). now constructor.
  - destruct (f p); [now apply Exists_cons_tl | exact IH].
Qed.

Lemma merge_sentences_ink (parts : list jsstring) :
  Forall (fun p => existsb is_sentence_end p = true -> has_ink p = false) parts ->
  forall current,
    has_ink current = true \/ Exists (fun p => has_ink p = true) parts ->
    Exists (fun seg => has_ink seg = true) (merge_sentences parts current).
Proof.
  induction 1 as [|part rest Hpart _ IH]; intros current Hink; simpl.
  - destruct Hink as [Hc | He]; [|inversion He].
    rewrite (has_ink_truthy _ (has_ink_trim _ Hc)).
    constructor. now apply has_ink_trim.
  - destruct (existsb is_sentence_end part) eqn:Etest.
    + specialize (Hpart eq_refl).
      assert (Hrest : has_ink current = true
                      \/ Exists (fun p => has_ink p = true) rest).
      { destruct Hink as [Hc | He]; [now left|].
        inversion He; subst; [congruence | now right]. }
      destruct (truthy current) eqn:Et.
      * destruct (has_ink current) eqn:Hc.
        -- constructor. rewrite has_ink_app, (has_ink_trim _ Hc). reflexivity.
        -- apply Exists_cons_tl. apply IH. right.
           destruct Hrest as [Hx | Hx]; [discriminate | exact Hx].
      * apply IH. exact Hrest.
    + apply IH. rewrite has_ink_app.
      destruct Hink as [Hc | He]; [left; now rewrite Hc|].
      inversion He; subst; [left | now right].
      apply orb_true_iff. now right.
Qed.

Lemma script_segments_ink (script : jsstring) :
  has_ink script = true ->
  Exists (fun seg => has_ink seg = true) (script_segments script).
Proof.
  intro H. unfold script_segments. apply merge_sentences_ink.
  - apply Forall_filter_keep. now apply split_keep_pure.
  - right. apply Exists_filter_ink; [apply nonblank_ink|].
    now apply split_keep_ink.
Qed.

Lemma totalChars_ge (segments : list jsstring) (seg : jsstring) :
  In seg segments ->
  forall acc,
    (length seg <= fold_left (fun sum (s : jsstring) => (sum + length s)%nat) segments acc)%nat.
Proof.
  assert (Hmono : forall l acc,
             (acc <= fold_left (fun sum (s : jsstring) => (sum + length s)%nat) l acc)%nat).
  { induction l as [|x l IH]; intro acc; simpl; [lia|].
    specialize (IH (acc + length x)%nat). lia. }
  induction segments as [|x l IH]; intros Hin acc; simpl; [contradiction|].
  destruct Hin as [->|Hin].
  - specialize (Hmono l (acc + length seg)%nat). lia.
  - now apply IH.
Qed.

(** With content in the script the timer reaches its main loop over a
    non-empty list of segments. *)
Lemma generateSubtitlesFromScript_unfold (script : jsstring) (T : Q) :
  0 < T -> has_ink script = true ->
  script_segments script <> []
  /\ generateSubtitlesFromScript script T
     = forEach_segment T
         (fold_left (fun sum (s : jsstring) => (sum + length s)%nat)
            (script_segments script) 0%nat)
         (length (script_segments script)) 0 (script_segments script) 0.
Proof.
  intros HT Hink.
  pose proof (script_segments_ink script Hink) as Hex.
  apply Exists_exists in Hex as [seg [Hin Hseg]].
  assert (Hne : script_segments script <> []).
  { intro E. rewrite E in Hin. contradiction. }
  split; [exact Hne|].
  unfold generateSubtitlesFromScript.
  rewrite (has_ink_truthy script Hink). simpl negb. simpl orb.
  destruct (Qle_bool T 0) eqn:ET; [apply Qle_bool_iff in ET; lra|].
  destruct (length (script_segments script) =? 0)%nat eqn:El.
  { apply length_zero_nil in El. contradiction. }
  pose proof (totalChars_ge (script_segments script) seg Hin 0%nat) as Hge.
  assert (Hpos : (0 < length seg)%nat).
  { destruct seg; [discriminate | simpl; lia]. }
  destruct (fold_left _ _ _ =? 0)%nat eqn:Etot; [|reflexivity].
  apply Nat.eqb_eq in Etot. unfold jsstring in *. lia.
Qed.

Lemma generateSubtitlesFromScript_cases (script : jsstring) (T : Q) :
  generateSubtitlesFromScript script T = []
  \/ (script_segments script <> []
      /\ exists totalChars,
           generateSubtitlesFromScript script T
           = forEach_segment T totalChars (length (script_segments script)) 0
               (script_segments script) 0).
Proof.
  unfold generateSubtitlesFromScript.
  destruct (negb (truthy script) || Qle_bool T 0); [now left|].
  destruct (length (script_segments script) =? 0)%nat eqn:El; [now left|].
  destruct (fold_left _ _ _ =? 0)%nat; [now left|].
  right. split; [|eexists; reflexivity].
  intro E. rewrite E in El. discriminate.
Qed.

(** *** Durations of the cues *)




End SubtitleTimer.

(** C2, as stated, fails: for the one-character script and a total
    duration of 1 second the only cue lasts 1.5 seconds, so the cues
    overrun the duration. *)
Lemma subtitle_coverage_overrun :
  ~ (forall (script : jsstring) (totalDuration : Q),
       script <> [] -> 0 < totalDuration ->
       Measures.covers
         (VideoSynth.generateSubtitlesFromScript script totalDuration)
         totalDuration).
Proof.
  intro H.
  assert (Hc : Measures.covers
                 (VideoSynth.generateSubtitlesFromScript Samples.one_character 1) 1).
  { apply H; [discriminate | reflexivity]. }
  destruct Hc as [_ [_ [_ Hend]]].
  vm_compute in Hend. discriminate Hend.
Qed.

(** C2 (amended): for every total duration above 0, a script with at
    least one character that is neither white space nor sentence
    punctuation yields at least one cue; the start times never decrease;
    and whenever cues are returned the first starts at 0 and the final
    cue ends at or after the total duration (no gap), exactly at the
    total duration whenever the final cue is longer than 1.5 seconds. *)
Theorem subtitle_coverage (script : jsstring) (totalDuration : Q) :
  0 < totalDuration ->
  let cues := VideoSynth.generateSubtitlesFromScript script totalDuration in
  (Measures.has_ink script = true -> cues <> [])
  /\ Measures.starts_sorted cues
  /\ (cues <> [] ->
      VideoSynth.start (Measures.first_cue cues) == 0
      /\ totalDuration <= Measures.cue_end (Measures.last_cue cues)
      /\ ((3 # 2) < VideoSynth.duration (Measures.last_cue cues) ->
          Measures.cue_end (Measures.last_cue cues) == totalDuration)).
Proof.
  intros HT cues.
  assert (Hmain : cues = [] \/
            (cues <> [] /\ Measures.starts_sorted cues
             /\ VideoSynth.start (Measures.first_cue cues) == 0
             /\ totalDuration <= Measures.cue_end (Measures.last_cue cues)
             /\ ((3 # 2) < VideoSynth.duration (Measures.last_cue cues) ->
                 Measures.cue_end (Measures.last_cue cues) == totalDuration))).
  { destruct (generateSubtitlesFromScript_cases script totalDuration)
      as [E | [Hne [totalChars E]]]; [now left|].
    right. unfold cues. rewrite E.
    destruct (forEach_segment_covers totalDuration totalChars
                (length (VideoSynth.script_segments script))
                (VideoSynth.script_segments script) 0 0 eq_refl Hne)
      as [H1 [_ [H3 [H4 [H5 H6]]]]].
    repeat split; assumption. }
  split; [|split].
  - intro Hink.
    destruct (generateSubtitlesFromScript_unfold script totalDuration HT Hink)
      as [Hne E].
    unfold cues. rewrite E.
    apply (forEach_segment_covers totalDuration _
             (length (VideoSynth.script_segments script))
             (VideoSynth.script_segments script) 0 0 eq_refl Hne).
  - destruct Hmain as [E | [_ [Hs _]]]; [rewrite E; constructor | exact Hs].
  - intro Hne. destruct Hmain as [E | [_ [_ H]]]; [contradiction | exact H].
Qed.

(** Scenario A of the specification: two sentences over 10 seconds give
    two cues, of 12 and 22 characters, that share the 10 seconds. *)
Example scenario_A_two_cues :
  map (fun c => (length (VideoSynth.text c), Qred (VideoSynth.start c),
                 Qred (VideoSynth.duration c)))
      (VideoSynth.generateSubtitlesFromScript Samples.two_sentences 10)
  = [(12%nat, 0, 60 # 17); (22%nat, 60 # 17, 110 # 17)].
Proof. vm_compute. reflexivity. Qed.

(** The theorem at the two sentences of Scenario A. *)
Lemma subtitle_coverage_witness :
  VideoSynth.generateSubtitlesFromScript Samples.two_sentences 10 <> []
  /\ Measures.cue_end
       (Measures.last_cue
          (VideoSynth.generateSubtitlesFromScript Samples.two_sentences 10))
     == 10.
Proof.
  assert (HT : 0 < 10) by reflexivity.
  destruct (subtitle_coverage Samples.two_sentences 10 HT) as [H1 [_ H3]].
  assert (Hne : VideoSynth.generateSubtitlesFromScript Samples.two_sentences 10
                <> []) by (apply H1; reflexivity).
  split; [exact Hne|].
  destruct (H3 Hne) as [_ [_ Hexact]].
  apply Hexact. vm_compute. reflexivity.
Defined.



Section TimerNaN.

Import VideoSynth.











End TimerNaN.

(** With a duration that is not a number the timer returns cues whose
    durations are not numbers: the one cue of a one-character script. *)
Example subtitle_nan_duration :
  Timer.generateSubtitlesFromScript Samples.one_character NaN
  = [Timer.mkTimed Samples.one_character (Num 0) NaN].
Proof. reflexivity. Qed.



(* ===================================================================== *)
(** ** Splitting long text for synthesis (C6) *)
(* ===================================================================== *)

Section LongText.

Import Tts Measures.

Lemma utf8_length_cons (c : N) (t : jsstring) :
  utf8_length (c :: t)
  = if (c <? 0x80)%N then (1 + utf8_length t)%nat
    else if (c <? 0x800)%N then (2 + utf8_length t)%nat
    else if is_high c then
      match t with
      | d :: t' => if is_low d then (4 + utf8_length t')%nat
                   else (3 + utf8_length t)%nat
      | [] => 3%nat
      end
    else (3 + utf8_length t)%nat.
Proof. reflexivity. Qed.

Lemma utf8_length_le (s : jsstring) : (utf8_length s <= 3 * length s)%nat.
Proof.
  assert (H : forall n s, (length s <= n)%nat ->
                          (utf8_length s <= 3 * length s)%nat).
  { induction n as [|n IH]; intros [|c t] Hlen; simpl in Hlen;
      try (simpl; lia).
    rewrite utf8_length_cons.
    assert (Ht : (utf8_length t <= 3 * length t)%nat) by (apply IH; lia).
    cbn [length].
    destruct (c <? 0x80)%N; [lia|].
    destruct (c <? 0x800)%N; [lia|].
    destruct (is_high c); [|lia].
    destruct t as [|d t']; [lia|].
    destruct (is_low d); [|lia].
    assert (Ht' : (utf8_length t' <= 3 * length t')%nat)
      by (apply IH; simpl in Hlen; lia).
    cbn [length]. lia. }
  apply (H (length s)). lia.
Qed.

Lemma dropWhile_length (f : N -> bool) (s : jsstring) :
  (length (dropWhile f s) <= length s)%nat.
Proof.
  induction s as [|c t IH]; simpl; [lia|]. destruct (f c); simpl; lia.
Qed.

Lemma trim_length (s : jsstring) : (length (trim s) <= length s)%nat.
Proof.
  unfold trim, trimEnd, trimStart. rewrite length_rev.
  pose proof (dropWhile_length is_ws (rev (dropWhile is_ws s))) as H1.
  rewrite length_rev in H1.
  pose proof (dropWhile_length is_ws s). lia.
Qed.

Lemma dropWhile_none (f : N -> bool) (s : jsstring) :
  existsb f s = false -> dropWhile f s = s.
Proof.
  destruct s as [|c t]; simpl; [reflexivity|].
  intro H. apply orb_false_iff in H as [H _]. now rewrite H.
Qed.

Lemma trim_no_ws (s : jsstring) : no_ws s -> trim s = s.
Proof.
  unfold no_ws, trim, trimEnd, trimStart. intro H.
  rewrite (dropWhile_none is_ws s H).
  rewrite dropWhile_none; [apply rev_involutive|].
  now rewrite existsb_rev_eq.
Qed.

Lemma no_ws_app (a b : jsstring) : no_ws (a ++ b) <-> no_ws a /\ no_ws b.
Proof. unfold no_ws. rewrite existsb_app. apply orb_false_iff. Qed.

Lemma no_ws_firstn (n : nat) (s : jsstring) : no_ws s -> no_ws (firstn n s).
Proof.
  intro H. rewrite <- (firstn_skipn n s) in H. now apply no_ws_app in H.
Qed.

Lemma no_ws_skipn (n : nat) (s : jsstring) : no_ws s -> no_ws (skipn n s).
Proof.
  intro H. rewrite <- (firstn_skipn n s) in H. now apply no_ws_app in H.
Qed.

Lemma lastIndexOf_from_le (c : N) (fromIndex : nat) (s : jsstring) :
  forall i best r,
    (forall b, best = Some b -> (b <= fromIndex)%nat) ->
    lastIndexOf_from c fromIndex i s best = Some r -> (r <= fromIndex)%nat.
Proof.
  induction s as [|x t IH]; intros i best r Hbest H; simpl in H.
  - now apply Hbest.
  - eapply IH; [|exact H]. intros b Hb.
    destruct ((i <=? fromIndex)%nat && (x =? c)%N) eqn:E.
    + injection Hb as <-. apply andb_true_iff in E as [E _].
      now apply Nat.leb_le.
    + now apply Hbest.
Qed.

Lemma lastIndexOf_le (s : jsstring) (c : N) (fromIndex r : nat) :
  lastIndexOf s c fromIndex = Some r -> (r <= fromIndex)%nat.
Proof.
  unfold lastIndexOf. apply lastIndexOf_from_le. intros b Hb. discriminate.
Qed.

(** The forced split finishes within [length segment] iterations (for a
    positive [maxLength]), every piece has at most [maxLength + 1] code
    units, and nothing but white space is lost. *)
Lemma force_split_ok (maxLength : nat) (segment : jsstring) :
  (0 < maxLength)%nat ->
  forall fuel start,
    (length segment - start <= fuel)%nat ->
    exists pieces,
      force_split fuel maxLength segment start = Some pieces
      /\ Forall (fun p => (length p <= maxLength + 1)%nat) pieces
      /\ (no_ws segment -> concat pieces = skipn start segment).
Proof.
  intro Hpos. induction fuel as [|fuel IH]; intros start Hfuel.
  - exists []. simpl.
    destruct (start <? length segment)%nat eqn:E;
      [apply Nat.ltb_lt in E; lia|].
    apply Nat.ltb_ge in E.
    repeat split; [constructor|]. intros _. now rewrite skipn_all2.
  - cbn [force_split].
    destruct (start <? length segment)%nat eqn:E.
    + apply Nat.ltb_lt in E.
      set (end_ := if (start + maxLength <? length segment)%nat
                   then match lastIndexOf segment FW_COMMA (start + maxLength) with
                        | Some commaIndex =>
                            if (start <? commaIndex)%nat then S commaIndex
                            else (start + maxLength)%nat
                        | None => (start + maxLength)%nat
                        end
                   else (start + maxLength)%nat).
      assert (Hend : (start < end_ <= start + maxLength + 1)%nat).
      { unfold end_.
        destruct (start + maxLength <? length segment)%nat; [|lia].
        destruct (lastIndexOf segment FW_COMMA (start + maxLength))
          as [ci|] eqn:Eci; [|lia].
        apply lastIndexOf_le in Eci.
        destruct (start <? ci)%nat eqn:Es; [|lia].
        apply Nat.ltb_lt in Es. lia. }
      destruct (IH end_) as [pieces [Hp [Hlen Hcat]]]; [lia|].
      rewrite Hp. eexists. split; [reflexivity|]. split.
      * constructor; [|exact Hlen].
        pose proof (trim_length (substring segment start end_)) as Ht.
        unfold substring in *.
        pose proof (firstn_le_length (end_ - start) (skipn start segment)).
        lia.
      * intro Hws. cbn [concat]. rewrite (Hcat Hws).
        rewrite trim_no_ws
          by (unfold substring; now apply no_ws_firstn, no_ws_skipn).
        unfold substring.
        replace end_ with ((end_ - start) + start)%nat at 2 by lia.
        rewrite <- skipn_skipn. apply firstn_skipn.
    + apply Nat.ltb_ge in E. exists [].
      repeat split; [constructor|]. intros _. now rewrite skipn_all2.
Qed.

Lemma accumulate_concat (maxLength : nat) (sentences : list jsstring) :
  Forall no_ws sentences ->
  forall current,
    no_ws current ->
    concat (accumulate maxLength sentences current) = current ++ concat sentences
    /\ Forall no_ws (accumulate maxLength sentences current).
Proof.
  induction 1 as [|sentence rest Hs _ IH]; intros current Hc; simpl.
  - destruct current as [|c t]; simpl; [split; [reflexivity | constructor]|].
    rewrite (trim_no_ws _ Hc). simpl. rewrite !app_nil_r.
    split; [reflexivity | now constructor].
  - destruct (length current + length sentence <=? maxLength)%nat.
    + destruct (IH (current ++ sentence)) as [H1 H2];
        [now apply no_ws_app|].
      split; [rewrite H1; now rewrite app_assoc | exact H2].
    + destruct (IH sentence Hs) as [H1 H2].
      rewrite concat_app, H1.
      destruct current as [|c t]; simpl; [split; [reflexivity | exact H2]|].
      rewrite (trim_no_ws _ Hc). simpl. rewrite app_nil_r.
      split; [reflexivity | now constructor].
Qed.

Lemma split_long_ok (maxLength : nat) (segments : list jsstring) :
  (0 < maxLength)%nat ->
  exists result,
    split_long maxLength segments = Some result
    /\ Forall (fun p => (utf8_length p <= 1000 \/ length p <= maxLength + 1)%nat)
              result
    /\ (Forall no_ws segments -> concat result = concat segments).
Proof.
  intro Hpos. induction segments as [|segment rest IH]; simpl.
  - exists []. repeat split; constructor.
  - destruct IH as [tail [Ht [Hbound Hcat]]]. rewrite Ht.
    destruct (1000 <? utf8_length segment)%nat eqn:E.
    + destruct (force_split_ok maxLength segment Hpos (length segment) 0)
        as [pieces [Hp [Hlen Hpc]]]; [lia|].
      rewrite Hp. eexists. split; [reflexivity|]. split.
      * apply Forall_app. split; [|exact Hbound].
        eapply Forall_impl; [|exact Hlen]. intros p Hl. now right.
      * intro Hws. inversion Hws; subst.
        rewrite concat_app, Hcat by assumption.
        rewrite Hpc by assumption. reflexivity.
    + apply Nat.ltb_ge in E. eexists. split; [reflexivity|]. split.
      * constructor; [now left | exact Hbound].
      * intro Hws. inversion Hws; subst. simpl.
        now rewrite Hcat by assumption.
Qed.

Lemma split_runs_concat (sep : N -> bool) (s : jsstring) :
  forall inrun acc,
    concat (split_runs sep inrun acc s) = rev acc ++ s
    /\ (no_ws acc -> no_ws s -> Forall no_ws (split_runs sep inrun acc s)).
Proof.
  assert (Hrev : forall a, no_ws a -> no_ws (rev a)).
  { intros a Ha. unfold no_ws. now rewrite existsb_rev_eq. }
  assert (Hnil : no_ws []) by reflexivity.
  induction s as [|c t IH]; intros inrun acc; simpl.
  - destruct inrun; simpl; rewrite ?app_nil_r;
      (split; [reflexivity | intros Ha _; repeat constructor; auto]).
  - assert (Hcons : forall a, no_ws a -> no_ws (c :: t) ->
                              no_ws (c :: a) /\ no_ws [c] /\ no_ws t).
    { unfold no_ws. simpl. intros a Ha Hct.
      apply orb_false_iff in Hct as [Hc Ht]. rewrite Hc, Ha, Ht. auto. }
    destruct (sep c), inrun.
    + destruct (IH true (c :: acc)) as [H1 H2]. split.
      * rewrite H1. simpl. now rewrite <- app_assoc.
      * intros Ha Hs. destruct (Hcons acc Ha Hs) as [? [? ?]]. auto.
    + destruct (IH true [c]) as [H1 H2]. split.
      * simpl. rewrite H1. reflexivity.
      * intros Ha Hs. destruct (Hcons acc Ha Hs) as [? [? ?]].
        constructor; auto.
    + destruct (IH false [c]) as [H1 H2]. split.
      * simpl. rewrite H1. reflexivity.
      * intros Ha Hs. destruct (Hcons acc Ha Hs) as [? [? ?]].
        constructor; auto.
    + destruct (IH false (c :: acc)) as [H1 H2]. split.
      * rewrite H1. simpl. now rewrite <- app_assoc.
      * intros Ha Hs. destruct (Hcons acc Ha Hs) as [? [? ?]]. auto.
Qed.

Lemma concat_filter_nonempty (f : jsstring -> bool) (l : list jsstring) :
  (forall s, f s = false -> s = []) ->
  concat (filter f l) = concat l.
Proof.
  intro Hf. induction l as [|x l IH]; simpl; [reflexivity|].
  destruct (f x) eqn:E; simpl; rewrite IH; [reflexivity|].
  now rewrite (Hf x E).
Qed.

End LongText.

Section Content.

Import Tts Cuts.

Lemma content_app (a b : jsstring) : content (a ++ b) = content a ++ content b.
Proof. apply filter_app. Qed.

Lemma content_dropWhile (s : jsstring) : content (dropWhile is_ws s) = content s.
Proof.
  induction s as [|c t IH]; [reflexivity|].
  cbn [dropWhile]. destruct (is_ws c) eqn:E; [|reflexivity].
  rewrite IH. unfold content. cbn [filter]. unfold visible at 2.
  rewrite E. reflexivity.
Qed.

Lemma content_trim (s : jsstring) : content (trim s) = content s.
Proof.
  unfold trim, trimEnd, trimStart, content.
  rewrite filter_rev. fold (content (dropWhile is_ws (rev (dropWhile is_ws s)))).
  rewrite content_dropWhile. unfold content. rewrite filter_rev, rev_involutive.
  apply content_dropWhile.
Qed.

Lemma content_no_ws (s : jsstring) : Measures.no_ws s -> content s = s.
Proof.
  unfold Measures.no_ws. induction s as [|c t IH]; simpl; [reflexivity|].
  intro H. apply orb_false_iff in H as [Hc Ht]. unfold visible. rewrite Hc.
  simpl. now rewrite (IH Ht).
Qed.

Lemma utf8_length_low (d : N) (t : jsstring) :
  is_low d = true -> utf8_length (d :: t) = (3 + utf8_length t)%nat.
Proof.
  intro H. rewrite utf8_length_cons.
  unfold is_low in H. apply andb_true_iff in H as [H1 H2].
  apply N.leb_le in H1. apply N.leb_le in H2.
  destruct (d <? 0x80)%N eqn:E1; [apply N.ltb_lt in E1; lia|].
  destruct (d <? 0x800)%N eqn:E2; [apply N.ltb_lt in E2; lia|].
  destruct (is_high d) eqn:E3; [|reflexivity].
  unfold is_high in E3. apply andb_true_iff in E3 as [_ E3].
  apply N.leb_le in E3. lia.
Qed.

Lemma utf8_length_tail (c : N) (t : jsstring) :
  (utf8_length t <= utf8_length (c :: t) <= 3 + utf8_length t)%nat.
Proof.
  rewrite utf8_length_cons.
  destruct (c <? 0x80)%N; [lia|].
  destruct (c <? 0x800)%N; [lia|].
  destruct (is_high c); [|lia].
  destruct t as [|d t']; [simpl; lia|].
  destruct (is_low d) eqn:E; [|lia].
  rewrite (utf8_length_low d t' E). lia.
Qed.

Lemma ws_plain (c : N) (t : jsstring) :
  is_ws c = true -> (utf8_length t <= utf8_length (c :: t))%nat.
Proof. intros _. apply utf8_length_tail. Qed.

Lemma visible_low (d : N) : is_low d = true -> visible d = true.
Proof.
  unfold is_low, visible, is_ws. intro H.
  apply andb_true_iff in H as [H1 H2].
  apply N.leb_le in H1. apply N.leb_le in H2.
  repeat match goal with
         | |- context [(?a <=? ?b)%N] =>
             let E := fresh in destruct (a <=? b)%N eqn:E;
             [apply N.leb_le in E | apply N.leb_gt in E]
         | |- context [(?a =? ?b)%N] =>
             let E := fresh in destruct (a =? b)%N eqn:E;
             [apply N.eqb_eq in E | apply N.eqb_neq in E]
         end; simpl; try reflexivity; lia.
Qed.

(** Removing white space never adds bytes. *)
Lemma utf8_length_content (s : jsstring) :
  (utf8_length (content s) <= utf8_length s)%nat.
Proof.
  assert (H : forall n s, (length s <= n)%nat ->
                          (utf8_length (content s) <= utf8_length s)%nat).
  { induction n as [|n IH]; intros [|c t] Hlen; simpl in Hlen;
      try (simpl; lia).
    assert (Ht : (utf8_length (content t) <= utf8_length t)%nat)
      by (apply IH; lia).
    unfold content. cbn [filter]. fold (content t).
    destruct (visible c) eqn:Ev.
    - rewrite (utf8_length_cons c t), (utf8_length_cons c (content t)).
      destruct (c <? 0x80)%N; [lia|].
      destruct (c <? 0x800)%N; [lia|].
      destruct (is_high c) eqn:Eh; [|lia].
      destruct t as [|d t'].
      + simpl. lia.
      + destruct (is_low d) eqn:El.
        * unfold content. cbn [filter]. rewrite (visible_low d El).
          fold (content t'). rewrite El.
          assert (Ht' : (utf8_length (content t') <= utf8_length t')%nat)
            by (apply IH; simpl in Hlen; lia).
          lia.
        * destruct (content (d :: t')) as [|d' u] eqn:Eu; [lia|].
          destruct (is_low d') eqn:El'; [|lia].
          rewrite (utf8_length_low d' u El') in Ht. lia.
    - pose proof (utf8_length_tail c t). lia. }
  apply (H (length s)). lia.
Qed.

Lemma accumulate_content (maxLength : nat) (sentences : list jsstring) :
  forall current,
    content (concat (accumulate maxLength sentences current))
    = content (current ++ concat sentences).
Proof.
  induction sentences as [|sentence rest IH]; intro current; simpl.
  - rewrite app_nil_r. destruct current as [|c t]; [reflexivity|].
    cbn [truthy concat]. rewrite app_nil_r. apply content_trim.
  - destruct (length current + length sentence <=? maxLength)%nat.
    + rewrite IH. now rewrite app_assoc.
    + rewrite concat_app, content_app, IH, !content_app.
      destruct current as [|c t]; [reflexivity|].
      cbn [truthy concat]. now rewrite app_nil_r, content_trim.
Qed.

Lemma lastIndexOf_from_spec (c : N) (fromIndex : nat) (s : jsstring) :
  forall pre best,
    last_match (pre ++ s) c fromIndex (length pre) best ->
    last_match (pre ++ s) c fromIndex (length (pre ++ s))
      (lastIndexOf_from c fromIndex (length pre) s best).
Proof.
  induction s as [|x t IH]; intros pre best Hbest.
  - simpl. now rewrite app_nil_r in *.
  - cbn [lastIndexOf_from].
    assert (Hpre : pre ++ x :: t = (pre ++ [x]) ++ t)
      by (now rewrite <- app_assoc).
    assert (Hx : nth_error (pre ++ x :: t) (length pre) = Some x).
    { rewrite nth_error_app2 by lia. now rewrite Nat.sub_diag. }
    assert (Hlen : length (pre ++ [x]) = S (length pre))
      by (rewrite length_app; simpl; lia).
    rewrite Hpre. rewrite <- Hlen. apply IH. rewrite Hlen, <- Hpre.
    destruct ((length pre <=? fromIndex)%nat && (x =? c)%N) eqn:E.
    + apply andb_true_iff in E as [E1 E2].
      apply Nat.leb_le in E1. apply N.eqb_eq in E2. subst x.
      simpl. repeat split; [lia | exact E1 | exact Hx |].
      intros k H1 H2 H3. lia.
    + destruct best as [j|]; simpl in *.
      * destruct Hbest as [H1 [H2 [H3 H4]]].
        repeat split; [lia | exact H2 | exact H3 |].
        intros k Hk1 Hk2 Hk3.
        destruct (Nat.eq_dec k (length pre)) as [->|Hne];
          [|apply H4; lia].
        rewrite Hx. intro Hc. injection Hc as ->.
        rewrite N.eqb_refl, andb_true_r in E. apply Nat.leb_gt in E. lia.
      * intros k Hk1 Hk2.
        destruct (Nat.eq_dec k (length pre)) as [->|Hne];
          [|apply Hbest; lia].
        rewrite Hx. intro Hc. injection Hc as ->.
        rewrite N.eqb_refl, andb_true_r in E. apply Nat.leb_gt in E. lia.
Qed.

Lemma lastIndexOf_spec (s : jsstring) (c : N) (fromIndex : nat) :
  match lastIndexOf s c fromIndex with
  | Some j =>
      (j <= fromIndex)%nat /\ nth_error s j = Some c
      /\ forall k, (j < k <= fromIndex)%nat -> nth_error s k <> Some c
  | None => forall k, (k <= fromIndex)%nat -> nth_error s k <> Some c
  end.
Proof.
  pose proof (lastIndexOf_from_spec c fromIndex s [] None) as H.
  simpl in H. specialize (H ltac:(intros k Hk; lia)).
  unfold lastIndexOf. destruct (lastIndexOf_from c fromIndex 0 s None) as [j|];
    simpl in H.
  - destruct H as [H1 [H2 [H3 H4]]]. repeat split; try assumption.
    intros k Hk. destruct (Nat.lt_ge_cases k (length s)) as [Hlt|Hge].
    + apply H4; lia.
    + apply nth_error_None in Hge. rewrite Hge. discriminate.
  - intros k Hk. destruct (Nat.lt_ge_cases k (length s)) as [Hlt|Hge].
    + apply H; lia.
    + apply nth_error_None in Hge. rewrite Hge. discriminate.
Qed.

(** The forced split cuts where the specification says; nothing but
    white space is lost. *)
Lemma force_split_cuts (maxLength : nat) (segment : jsstring) :
  (0 < maxLength)%nat ->
  forall fuel start,
    (length segment - start <= fuel)%nat ->
    exists cuts,
      force_split fuel maxLength segment start
      = Some (map (piece segment) cuts)
      /\ chain segment start cuts
      /\ Forall (fun cut => forced_cut maxLength segment (fst cut) (snd cut))
                cuts
      /\ content (concat (map (piece segment) cuts))
         = content (skipn start segment).
Proof.
  intro Hpos. induction fuel as [|fuel IH]; intros start Hfuel.
  - exists []. simpl.
    destruct (start <? length segment)%nat eqn:E;
      [apply Nat.ltb_lt in E; lia|].
    apply Nat.ltb_ge in E.
    repeat split; [exact E | constructor |]. now rewrite skipn_all2.
  - cbn [force_split].
    destruct (start <? length segment)%nat eqn:E.
    + apply Nat.ltb_lt in E.
      set (end_ := if (start + maxLength <? length segment)%nat
                   then match lastIndexOf segment FW_COMMA (start + maxLength) with
                        | Some commaIndex =>
                            if (start <? commaIndex)%nat then S commaIndex
                            else (start + maxLength)%nat
                        | None => (start + maxLength)%nat
                        end
                   else (start + maxLength)%nat).
      assert (Hcut : forced_cut maxLength segment start end_
                     /\ (start < end_)%nat).
      { unfold forced_cut, end_.
        destruct (start + maxLength <? length segment)%nat; [|split; lia].
        pose proof (lastIndexOf_spec segment FW_COMMA (start + maxLength)) as Hs.
        destruct (lastIndexOf segment FW_COMMA (start + maxLength)) as [ci|].
        - destruct Hs as [H1 [H2 H3]].
          destruct (start <? ci)%nat eqn:Es.
          + apply Nat.ltb_lt in Es. split; [|lia]. left. exists ci.
            repeat split; try assumption; try lia.
          + apply Nat.ltb_ge in Es. split; [|lia]. right.
            split; [|reflexivity]. intros j Hj. apply H3. lia.
        - split; [|lia]. right. split; [|reflexivity].
          intros j Hj. apply Hs. lia. }
      destruct Hcut as [Hcut Hlt].
      destruct (IH end_) as [cuts [Hp [Hchain [Hall Hcontent]]]]; [lia|].
      rewrite Hp. exists ((start, end_) :: cuts).
      split; [reflexivity|]. split; [|split].
      * cbn [chain]. auto.
      * constructor; [exact Hcut | exact Hall].
      * cbn [map concat]. rewrite content_app, Hcontent.
        unfold piece. cbn [fst snd]. rewrite content_trim, <- content_app.
        unfold substring.
        replace (skipn end_ segment)
          with (skipn (end_ - start) (skipn start segment))
          by (rewrite skipn_skipn; f_equal; lia).
        now rewrite firstn_skipn.
    + apply Nat.ltb_ge in E. exists [].
      repeat split; [exact E | constructor |]. simpl. now rewrite skipn_all2.
Qed.

Lemma split_long_groups (maxLength : nat) (segments : list jsstring) :
  (0 < maxLength)%nat ->
  exists groups,
    split_long maxLength segments = Some (concat groups)
    /\ Forall2 (splits maxLength) segments groups
    /\ content (concat (concat groups)) = content (concat segments).
Proof.
  intro Hpos. induction segments as [|segment rest IH]; simpl.
  - exists []. repeat split; constructor.
  - destruct IH as [groups [Ht [Hall Hcontent]]]. rewrite Ht.
    destruct (1000 <? utf8_length segment)%nat eqn:E.
    + destruct (force_split_cuts maxLength segment Hpos (length segment) 0)
        as [cuts [Hp [Hchain [Hcuts Hc]]]]; [lia|].
      rewrite Hp. exists (map (piece segment) cuts :: groups).
      split; [reflexivity|]. split.
      * constructor; [|exact Hall]. unfold splits. rewrite E.
        exists cuts. auto.
      * cbn [concat]. rewrite concat_app, !content_app, Hcontent, Hc.
        reflexivity.
    + exists ([segment] :: groups). split; [reflexivity|]. split.
      * constructor; [|exact Hall]. unfold splits. now rewrite E.
      * cbn [concat app]. rewrite !content_app, Hcontent. reflexivity.
Qed.

End Content.

(** C6, as stated, fails: the letter 'a' followed by 1100 spaces has
    1101 bytes of UTF-8, and the splitter answers the single segment 'a'
    (segments are trimmed and empty ones dropped). *)
Lemma long_text_single_segment :
  ~ (forall text : jsstring,
       (1024 < utf8_length text)%nat ->
       exists segments,
         Tts.splitTextByPunctuation text 300 = Some segments
         /\ (2 <= length segments)%nat
         /\ Forall (fun s => (utf8_length s <= 1024)%nat) segments).
Proof.
  intro H.
  destruct (H Samples.padded_letter) as [segments [Hs [Hl _]]].
  - apply Nat.ltb_lt. vm_compute. reflexivity.
  - vm_compute in Hs. injection Hs as <-. simpl in Hl. lia.
Qed.

(** C6 (amended): for every text the splitter (target length 300)
    terminates and every segment it returns is non-empty and at most
    1024 bytes of UTF-8 (it is at most 1000 bytes, or a forced piece of
    at most 301 code units).  Nothing but white space is lost: without
    their white space, the segments concatenate to the text; so a text
    whose content other than white space exceeds 1024 bytes yields at
    least 2 segments (a text that exceeds 1024 bytes only through its
    white space may yield one segment, or none).  A segment of more than
    1000 bytes is replaced by forced pieces: while more than 300 code
    units remain, a piece ends right after the last full-width comma
    among the next 300 indices after its start, and after 300 code units
    when there is no such comma; the last piece takes the rest; every
    piece is trimmed.  Every text sent to the synthesis boundary is at
    most 1024 bytes. *)
Theorem long_text_segments_fit (text : jsstring) :
  exists segments,
    Tts.splitTextByPunctuation text 300 = Some segments
    /\ Forall (fun s => (utf8_length s <= 1024)%nat /\ s <> []
                         /\ (utf8_length s <= 1000 \/ length s <= 301)%nat)
              segments
    /\ Cuts.content (concat segments) = Cuts.content text
    /\ (Measures.no_ws text -> concat segments = text)
    /\ ((1024 < utf8_length (Cuts.content text))%nat ->
        (2 <= length segments)%nat)
    /\ ((1024 < utf8_length text)%nat -> Measures.no_ws text ->
        (2 <= length segments)%nat)
    /\ (exists groups,
          segments = filter (fun s : jsstring => (0 <? length s)%nat)
                            (concat groups)
          /\ Forall2 (Cuts.splits 300)
               (Tts.accumulate 300
                  (filter truthy
                     (split_runs VideoSynth.is_sentence_end false [] text))
                  [])
               groups)
    /\ exists requests,
         Tts.tts_requests text = Some requests
         /\ Forall (fun s => (utf8_length s <= 1024)%nat) requests.
Proof.
  unfold Tts.tts_requests, Tts.splitTextByPunctuation.
  set (sentences := filter truthy
                      (split_runs VideoSynth.is_sentence_end false [] text)).
  set (segs := Tts.accumulate 300 sentences []).
  destruct (split_long_ok 300 segs) as [result [Hr [Hbound Hcat]]]; [lia|].
  destruct (split_long_groups 300 segs) as [groups [Hg [Hsplits Hkept]]];
    [lia|].
  assert (Hres : result = concat groups) by congruence.
  rewrite Hr.
  set (out := filter (fun s : jsstring => (0 <? length s)%nat) result).
  assert (Hfit : Forall (fun s => (utf8_length s <= 1024)%nat /\ s <> []
                                  /\ (utf8_length s <= 1000 \/ length s <= 301)%nat)
                        out).
  { apply Forall_forall. intros s Hin. unfold out in Hin.
    apply filter_In in Hin as [Hin Hlen].
    rewrite Forall_forall in Hbound. specialize (Hbound s Hin).
    split; [|split].
    - pose proof (utf8_length_le s). lia.
    - intro E. subst s. discriminate Hlen.
    - exact Hbound. }
  assert (Hdrop : concat out = concat result).
  { unfold out. apply concat_filter_nonempty.
    intros [|c t] E; [reflexivity | discriminate E]. }
  assert (Hsentences : concat sentences = text).
  { unfold sentences. rewrite concat_filter_nonempty.
    - exact (proj1 (split_runs_concat VideoSynth.is_sentence_end text false [])).
    - intros [|c t] E; [reflexivity | discriminate E]. }
  assert (Hcontent : Cuts.content (concat out) = Cuts.content text).
  { rewrite Hdrop, Hres, Hkept. unfold segs.
    rewrite accumulate_content. simpl. now rewrite Hsentences. }
  assert (Hwhole : Measures.no_ws text -> concat out = text).
  { intro Hws.
    destruct (split_runs_concat VideoSynth.is_sentence_end text false [])
      as [Hc Hpieces].
    assert (Hsent : Forall Measures.no_ws sentences).
    { unfold sentences. apply Forall_filter_keep. apply Hpieces;
        [reflexivity | exact Hws]. }
    destruct (accumulate_concat 300 sentences Hsent [] eq_refl) as [Ha Hsegs].
    rewrite Hdrop, (Hcat Hsegs). fold segs in Ha. rewrite Ha. simpl.
    exact Hsentences. }
  assert (Htwo : (1024 < utf8_length (Cuts.content text))%nat ->
                 (2 <= length out)%nat).
  { intros Hbig. rewrite <- Hcontent in Hbig.
    destruct out as [|x [|y rest]]; [| |simpl; lia].
    - simpl in Hbig. lia.
    - simpl in Hbig. rewrite app_nil_r in Hbig.
      pose proof (Forall_inv Hfit) as [Hx _].
      pose proof (utf8_length_content x). lia. }
  exists out. split; [reflexivity|]. split; [exact Hfit|].
  split; [exact Hcontent|]. split; [exact Hwhole|]. split; [exact Htwo|].
  split.
  { intros Hbig Hws. apply Htwo. now rewrite (content_no_ws text Hws). }
  split.
  { exists groups. split; [unfold out; now rewrite Hres | exact Hsplits]. }
  destruct (1024 <? utf8_length text)%nat eqn:E.
  - exists out. split; [reflexivity|].
    eapply Forall_impl; [|exact Hfit]. intros s [Hs _]. exact Hs.
  - apply Nat.ltb_ge in E. exists [text]. split; [reflexivity|].
    constructor; [exact E | constructor].
Qed.

(** The theorem at a text of 1500 bytes without white space, and at a
    text of 1501 bytes with a space inside. *)
Lemma long_text_segments_fit_witness :
  (exists segments,
     Tts.splitTextByPunctuation Samples.long_unbroken 300 = Some segments
     /\ (2 <= length segments)%nat)
  /\ (exists segments,
        Tts.splitTextByPunctuation Samples.long_spaced 300 = Some segments
        /\ (2 <= length segments)%nat).
Proof.
  split.
  - destruct (long_text_segments_fit Samples.long_unbroken)
      as [segments [H1 [_ [_ [_ [_ [H6 _]]]]]]].
    exists segments. split; [exact H1|].
    apply H6.
    + apply Nat.ltb_lt. vm_compute. reflexivity.
    + vm_compute. reflexivity.
  - destruct (long_text_segments_fit Samples.long_spaced)
      as [segments [H1 [_ [_ [_ [H5 _]]]]]].
    exists segments. split; [exact H1|].
    apply H5. apply Nat.ltb_lt. vm_compute. reflexivity.
Defined.

(** A sentence of 500 code units with a full-width comma at index 200:
    the first forced piece ends right after the comma, the second takes
    the rest. *)
Example forced_split_at_comma :
  Tts.splitTextByPunctuation Samples.comma_inside 300
  = Some [repeat 0x597D%N 200 ++ [FW_COMMA]; repeat 0x597D%N 299].
Proof. vm_compute. reflexivity. Qed.

(* ===================================================================== *)
(** ** Scenarios of the specification *)
(* ===================================================================== *)

(** Scenario B: a source of 185 seconds with a marker at 300 seconds
    gives the window from 0 to 185 seconds. *)
Example scenario_B_window :
  Processor.marker_window (fun _ => Normal []) (fun _ => Num 185) [] 300
  = Normal (0, Num 185).
Proof. vm_compute. reflexivity. Qed.

(** Scenario D: three markers, the second failing. *)
Example scenario_D_second_marker_fails :
  fst (Processor.processMultipleMarkers Samples.second_marker_fails []
         [100; 200; 300] (0%nat, []))
  = Normal [Processor.FullResult 100 0%nat;
            Processor.FailedResult 200 [0x45]%N;
            Processor.FullResult 300 2%nat].
Proof. vm_compute. reflexivity. Qed.

(* ===================================================================== *)
(** ** Further properties: XML escaping *)
(* ===================================================================== *)

Section Escaping.

Import Markup.

Lemma replace_all_app (c : N) (rep a b : jsstring) :
  replace_all c rep (a ++ b) = replace_all c rep a ++ replace_all c rep b.
Proof. unfold replace_all. apply flat_map_app. Qed.

Lemma escapeXml_app (a b : jsstring) :
  escapeXml (a ++ b) = escapeXml a ++ escapeXml b.
Proof. unfold escapeXml. now rewrite !replace_all_app. Qed.

Lemma escapeXml_one (c : N) : escapeXml [c] = entity c.
Proof.
  unfold entity.
  destruct (c =? AMP)%N eqn:E1; [apply N.eqb_eq in E1; subst; reflexivity|].
  destruct (c =? LT)%N eqn:E2; [apply N.eqb_eq in E2; subst; reflexivity|].
  destruct (c =? GT)%N eqn:E3; [apply N.eqb_eq in E3; subst; reflexivity|].
  destruct (c =? QUOT)%N eqn:E4; [apply N.eqb_eq in E4; subst; reflexivity|].
  destruct (c =? APOS)%N eqn:E5; [apply N.eqb_eq in E5; subst; reflexivity|].
  unfold escapeXml, replace_all. cbn [flat_map app].
  rewrite E1. cbn [flat_map app]. rewrite E2. cbn [flat_map app].
  rewrite E3. cbn [flat_map app]. rewrite E4. cbn [flat_map app].
  rewrite E5. reflexivity.
Qed.

Lemma entity_no_markup (c : N) : existsb is_markup (entity c) = false.
Proof.
  unfold entity.
  destruct (c =? AMP)%N eqn:E1; [reflexivity|].
  destruct (c =? LT)%N eqn:E2; [reflexivity|].
  destruct (c =? GT)%N eqn:E3; [reflexivity|].
  destruct (c =? QUOT)%N eqn:E4; [reflexivity|].
  destruct (c =? APOS)%N eqn:E5; [reflexivity|].
  simpl. unfold is_markup. now rewrite E2, E3, E4, E5.
Qed.

End Escaping.

(** X1: the five successive replacements of [escapeXml] amount to turning
    each character into its entity in one pass (an ampersand of the input
    is escaped once, never twice), and the result contains none of the
    characters [<], [>], double quote and apostrophe. *)
Theorem escapeXml_no_markup (text : jsstring) :
  Markup.escapeXml text = flat_map Markup.entity text
  /\ existsb Markup.is_markup (Markup.escapeXml text) = false.
Proof.
  assert (H : Markup.escapeXml text = flat_map Markup.entity text).
  { induction text as [|c t IH]; [reflexivity|].
    change (c :: t) with ([c] ++ t).
    rewrite escapeXml_app, escapeXml_one, IH. reflexivity. }
  split; [exact H|]. rewrite H.
  induction text as [|c t IH]; [reflexivity|].
  simpl. rewrite existsb_app, entity_no_markup. simpl.
  apply IH. clear IH H.
  induction t as [|d t IH]; [reflexivity|].
  change (d :: t) with ([d] ++ t).
  rewrite escapeXml_app, escapeXml_one, IH. reflexivity.
Qed.

(* ===================================================================== *)
(** ** Further properties: the transcription window and its chunks *)
(* ===================================================================== *)

Section Window.

Import VideoSynth.

Lemma batches_length (tasks : list Asr.segment_task) :
  (3 * length (Asr.batches tasks) <= length tasks + 2)%nat.
Proof.
  assert (H : forall n l, (length l <= n)%nat ->
                          (3 * length (Asr.batches l) <= length l + 2)%nat).
  { induction n as [|n IH]; intros l Hl.
    - destruct l; [simpl; lia | simpl in Hl; lia].
    - destruct l as [|a [|b [|c rest]]]; simpl; try lia.
      specialize (IH rest). simpl in Hl. lia. }
  apply (H (length tasks)). lia.
Qed.

Lemma chunk_index_lt (startTime endTime : Q) (i : nat) :
  (i < Asr.segmentCount startTime endTime)%nat ->
  Qnat i * 60 < endTime - startTime.
Proof.
  unfold Asr.segmentCount. intro Hi.
  set (x := (endTime - startTime) / 60) in *.
  assert (Hz : (Z.of_nat i <= Qceiling x - 1)%Z) by lia.
  pose proof (Qceiling_lt x) as Hc.
  assert (Hq : Qnat i <= inject_Z (Qceiling x - 1)).
  { unfold Qnat. now rewrite <- Zle_Qle. }
  assert (Hx : Qnat i < x) by lra.
  assert (H60 : Qnat i * 60 < x * 60)
    by (apply Qmult_lt_compat_r; [reflexivity | exact Hx]).
  assert (Hd : x * 60 == endTime - startTime) by (unfold x; field).
  lra.
Qed.

Lemma chunk_count_ge (startTime endTime : Q) :
  endTime - startTime <= Qnat (Asr.segmentCount startTime endTime) * 60.
Proof.
  unfold Asr.segmentCount.
  set (x := (endTime - startTime) / 60).
  pose proof (Qle_ceiling x) as Hc.
  assert (Hn : inject_Z (Qceiling x) <= Qnat (Z.to_nat (Qceiling x))).
  { unfold Qnat. rewrite <- Zle_Qle. lia. }
  assert (Hx : x <= Qnat (Z.to_nat (Qceiling x))) by lra.
  assert (H60 : x * 60 <= Qnat (Z.to_nat (Qceiling x)) * 60)
    by (apply Qmult_le_compat_r; [exact Hx | discriminate]).
  assert (Hd : x * 60 == endTime - startTime) by (unfold x; field).
  lra.
Qed.

Lemma nth_error_seq_map {A} (f : nat -> A) (n i : nat) :
  nth_error (map f (seq 0 n)) i = if (i <? n)%nat then Some (f i) else None.
Proof.
  destruct (i <? n)%nat eqn:E.
  - apply Nat.ltb_lt in E.
    rewrite nth_error_map, nth_error_nth' with (d := 0%nat)
      by (now rewrite length_seq).
    simpl. now rewrite seq_nth.
  - apply Nat.ltb_ge in E. apply nth_error_None.
    now rewrite length_map, length_seq.
Qed.

End Window.

(** *** Rounding to the nearest double *)

Section Rounding.

Import Doubles.

Lemma pow2_pos (e : Z) : 0 < 2 ^ e.
Proof. now apply Qpower_0_lt. Qed.

Lemma pow2_le (a b : Z) : (a <= b)%Z -> 2 ^ a <= 2 ^ b.
Proof. intro H. apply Qpower_le_compat_l; [exact H | discriminate]. Qed.

Lemma pow2_lt (a b : Z) : (a < b)%Z -> 2 ^ a < 2 ^ b.
Proof. intro H. apply Qpower_lt_compat_l; [exact H | reflexivity]. Qed.

Lemma pow2_plus (a b : Z) : 2 ^ (a + b) == 2 ^ a * 2 ^ b.
Proof. apply Qpower_plus. discriminate. Qed.

Lemma pow2_Z (e : Z) : (0 <= e)%Z -> 2 ^ e == inject_Z (2 ^ e).
Proof. intro H. symmetry. exact (Zpower_Qpower 2 e H). Qed.

Lemma pow2_minus (a b : Z) : 2 ^ (a - b) == 2 ^ a / 2 ^ b.
Proof.
  unfold Z.sub. rewrite pow2_plus, Qpower_opp. reflexivity.
Qed.

(** Division by a power of two keeps the order. *)
Lemma scale_le (x y : Q) (e : Z) : x <= y -> x / 2 ^ e <= y / 2 ^ e.
Proof.
  intro H. unfold Qdiv. apply Qmult_le_compat_r; [exact H|].
  apply Qlt_le_weak, Qinv_lt_0_compat, pow2_pos.
Qed.

Lemma scale_lt (x y : Q) (e : Z) : x < y -> x / 2 ^ e < y / 2 ^ e.
Proof.
  intro H. unfold Qdiv. apply Qmult_lt_compat_r; [|exact H].
  apply Qinv_lt_0_compat, pow2_pos.
Qed.

Lemma scale_back (x : Q) (e : Z) : x / 2 ^ e * 2 ^ e == x.
Proof.
  field. intro E. pose proof (pow2_pos e) as H. rewrite E in H. discriminate H.
Qed.

Lemma nearest_even_Z (z : Z) : nearest_even (inject_Z z) = z.
Proof.
  unfold nearest_even. rewrite Qfloor_Z.
  destruct (Qcompare_spec (inject_Z z - inject_Z z) (1 # 2)) as [H|H|H];
    [exfalso| reflexivity |exfalso];
    ring_simplify in H; discriminate H.
Qed.

Lemma nearest_even_bounds (x : Q) :
  (Qfloor x <= nearest_even x <= Qfloor x + 1)%Z.
Proof.
  unfold nearest_even.
  destruct (Qcompare _ _); [destruct (Z.even _)| |]; lia.
Qed.

Lemma nearest_even_le (x y : Q) : x <= y -> (nearest_even x <= nearest_even y)%Z.
Proof.
  intro Hxy.
  pose proof (Qfloor_resp_le x y Hxy) as Hf.
  pose proof (nearest_even_bounds x) as Hx.
  pose proof (nearest_even_bounds y) as Hy.
  destruct (Z.eq_dec (Qfloor x) (Qfloor y)) as [E|E]; [|lia].
  unfold nearest_even. rewrite <- E.
  destruct (Qcompare_spec (x - inject_Z (Qfloor x)) (1 # 2)) as [Hx'|Hx'|Hx'];
    destruct (Qcompare_spec (y - inject_Z (Qfloor x)) (1 # 2)) as [Hy'|Hy'|Hy'];
    try destruct (Z.even (Qfloor x)); try lia; exfalso; lra.
Qed.

Lemma nearest_even_proper (x y : Q) : x == y -> nearest_even x = nearest_even y.
Proof.
  intro E. apply Z.le_antisymm; apply nearest_even_le; rewrite E; apply Qle_refl.
Qed.

End Rounding.

Section Binade.

Import Doubles.

Lemma log2_bounds (n : Z) :
  (0 < n)%Z ->
  2 ^ Z.log2 n <= inject_Z n /\ inject_Z n < 2 ^ (Z.log2 n + 1).
Proof.
  intro Hn. destruct (Z.log2_spec n Hn) as [Hlo Hhi].
  pose proof (Z.log2_nonneg n) as H0.
  rewrite !pow2_Z by lia. rewrite <- Zle_Qle, <- Zlt_Qlt.
  split; [exact Hlo|]. now rewrite <- Z.add_1_r in Hhi.
Qed.

Lemma binade_spec (x : Q) :
  0 < x -> 2 ^ binade x <= x /\ x < 2 ^ (binade x + 1).
Proof.
  intro Hx. unfold binade.
  set (a := Z.log2 (Qnum x)). set (b := Z.log2 (Zpos (Qden x))).
  assert (Hn : (0 < Qnum x)%Z).
  { unfold Qlt in Hx. simpl in Hx. lia. }
  destruct (log2_bounds (Qnum x) Hn) as [Hn1 Hn2]. fold a in Hn1, Hn2.
  destruct (log2_bounds (Zpos (Qden x)) eq_refl) as [Hd1 Hd2].
  fold b in Hd1, Hd2.
  set (N := inject_Z (Qnum x)) in *. set (D := inject_Z (Zpos (Qden x))) in *.
  assert (HD : 0 < D) by reflexivity.
  assert (Hq : x * D == N).
  { unfold D, N. destruct x as [n d]. cbn [Qnum Qden].
    rewrite (Qmake_Qdiv n d). field. discriminate. }
  assert (Hup : x < 2 ^ (a - b + 1)).
  { apply (Qmult_lt_r _ _ D HD). rewrite Hq.
    apply Qlt_le_trans with (2 ^ (a + 1)); [exact Hn2|].
    replace (a + 1)%Z with ((a - b + 1) + b)%Z by lia.
    rewrite pow2_plus. apply Qmult_le_l; [apply pow2_pos | exact Hd1]. }
  assert (Hlow : 2 ^ (a - b - 1) < x).
  { apply (Qmult_lt_r _ _ D HD). rewrite Hq.
    apply Qlt_le_trans with (2 ^ a); [|exact Hn1].
    replace a with ((a - b - 1) + (b + 1))%Z at 2 by lia.
    rewrite pow2_plus. apply Qmult_lt_l; [apply pow2_pos | exact Hd2]. }
  destruct (Qle_bool (2 ^ (a - b)) x) eqn:E.
  - apply Qle_bool_iff in E. split; assumption.
  - assert (Hlt : x < 2 ^ (a - b)).
    { apply Qnot_le_lt. intro H. apply Qle_bool_iff in H. congruence. }
    split; [now apply Qlt_le_weak|].
    now replace (a - b - 1 + 1)%Z with (a - b)%Z by lia.
Qed.

Lemma binade_unique (x : Q) (k : Z) :
  2 ^ k <= x -> x < 2 ^ (k + 1) -> binade x = k.
Proof.
  intros Hlo Hhi.
  assert (Hx : 0 < x) by (apply Qlt_le_trans with (2 ^ k); [apply pow2_pos | exact Hlo]).
  destruct (binade_spec x Hx) as [Hlo' Hhi'].
  assert (H1 : (k < binade x + 1)%Z).
  { apply (Qpower_lt_compat_l_inv 2); [|reflexivity].
    eapply Qle_lt_trans; eassumption. }
  assert (H2 : (binade x < k + 1)%Z).
  { apply (Qpower_lt_compat_l_inv 2); [|reflexivity].
    eapply Qle_lt_trans; eassumption. }
  lia.
Qed.

Lemma binade_le (x y : Q) : 0 < x -> x <= y -> (binade x <= binade y)%Z.
Proof.
  intros Hx Hxy.
  assert (Hy : 0 < y) by (eapply Qlt_le_trans; eassumption).
  destruct (binade_spec x Hx) as [Hlo _].
  destruct (binade_spec y Hy) as [_ Hhi].
  assert (H : (binade x < binade y + 1)%Z).
  { apply (Qpower_lt_compat_l_inv 2); [|reflexivity].
    eapply Qle_lt_trans; [exact Hlo|]. eapply Qle_lt_trans; eassumption. }
  lia.
Qed.

Lemma binade_proper (x y : Q) : 0 < x -> x == y -> binade x = binade y.
Proof.
  intros Hx E. symmetry.
  destruct (binade_spec x Hx) as [Hlo Hhi].
  apply binade_unique; now rewrite <- E.
Qed.

End Binade.

Section RoundPositive.

Import Doubles.

Lemma ulp_exponent_le (j k : Z) :
  (j <= k)%Z -> (ulp_exponent j <= ulp_exponent k)%Z.
Proof. unfold ulp_exponent. lia. Qed.

(** A rounded value stays on the same side of every point of its grid. *)
Lemma round_positive_below (x : Q) (z : Z) :
  x <= inject_Z z * 2 ^ ulp_exponent (binade x) ->
  round_positive x <= inject_Z z * 2 ^ ulp_exponent (binade x).
Proof.
  intro H. unfold round_positive.
  set (e := ulp_exponent (binade x)) in *.
  apply Qmult_le_compat_r; [|apply Qlt_le_weak, pow2_pos].
  rewrite <- Zle_Qle.
  assert (Ht : x / 2 ^ e <= inject_Z z)
    by (apply Qle_shift_div_r; [apply pow2_pos | exact H]).
  apply nearest_even_le in Ht. now rewrite nearest_even_Z in Ht.
Qed.

Lemma round_positive_above (x : Q) (z : Z) :
  inject_Z z * 2 ^ ulp_exponent (binade x) <= x ->
  inject_Z z * 2 ^ ulp_exponent (binade x) <= round_positive x.
Proof.
  intro H. unfold round_positive.
  set (e := ulp_exponent (binade x)) in *.
  apply Qmult_le_compat_r; [|apply Qlt_le_weak, pow2_pos].
  rewrite <- Zle_Qle.
  assert (Ht : inject_Z z <= x / 2 ^ e)
    by (apply Qle_shift_div_l; [apply pow2_pos | exact H]).
  apply nearest_even_le in Ht. now rewrite nearest_even_Z in Ht.
Qed.

Lemma round_positive_nonneg (x : Q) : 0 < x -> 0 <= round_positive x.
Proof.
  intro Hx.
  assert (H : inject_Z 0 * 2 ^ ulp_exponent (binade x) <= round_positive x).
  { apply round_positive_above. rewrite Qmult_0_l. now apply Qlt_le_weak. }
  now rewrite Qmult_0_l in H.
Qed.

(** A value on the grid of its binade is not changed. *)
Lemma round_positive_on_grid (x : Q) (z : Z) :
  x == inject_Z z * 2 ^ ulp_exponent (binade x) -> round_positive x == x.
Proof.
  intro H. apply Qle_antisym.
  - rewrite H at 2. apply round_positive_below. rewrite <- H. apply Qle_refl.
  - rewrite H at 1. apply round_positive_above. rewrite <- H. apply Qle_refl.
Qed.

Lemma pow2_split (j e : Z) :
  (e <= j)%Z -> 2 ^ j == inject_Z (2 ^ (j - e)) * 2 ^ e.
Proof.
  intro H. rewrite <- pow2_Z by lia. rewrite <- pow2_plus.
  now replace (j - e + e)%Z with j by lia.
Qed.

(** A value rounds to at most the next power of two. *)
Lemma round_positive_le_pow2 (x : Q) (j : Z) :
  0 < x -> x <= 2 ^ j -> (ulp_exponent (binade x) <= j)%Z ->
  round_positive x <= 2 ^ j.
Proof.
  intros Hx Hle He.
  rewrite (pow2_split j _ He). apply round_positive_below.
  now rewrite <- (pow2_split j _ He).
Qed.

Lemma round_positive_ge_pow2 (x : Q) :
  0 < x -> (-1074 <= binade x - 52)%Z -> 2 ^ binade x <= round_positive x.
Proof.
  intros Hx Hk.
  assert (He : (ulp_exponent (binade x) <= binade x)%Z)
    by (unfold ulp_exponent; lia).
  rewrite (pow2_split _ _ He). apply round_positive_above.
  rewrite <- (pow2_split _ _ He). now apply binade_spec.
Qed.

Lemma round_positive_le (x y : Q) :
  0 < x -> x <= y -> round_positive x <= round_positive y.
Proof.
  intros Hx Hxy.
  assert (Hy : 0 < y) by (eapply Qlt_le_trans; eassumption).
  pose proof (binade_le x y Hx Hxy) as Hk.
  pose proof (ulp_exponent_le _ _ Hk) as He.
  destruct (Z.eq_dec (ulp_exponent (binade x)) (ulp_exponent (binade y)))
    as [E|E].
  - unfold round_positive. rewrite E.
    apply Qmult_le_compat_r; [|apply Qlt_le_weak, pow2_pos].
    rewrite <- Zle_Qle. apply nearest_even_le. now apply scale_le.
  - assert (Hlt : (ulp_exponent (binade x) < ulp_exponent (binade y))%Z) by lia.
    unfold ulp_exponent in Hlt.
    apply Qle_trans with (2 ^ binade y).
    + destruct (binade_spec x Hx) as [_ Hhi].
      apply round_positive_le_pow2; [exact Hx | | unfold ulp_exponent; lia].
      apply Qle_trans with (2 ^ (binade x + 1)); [now apply Qlt_le_weak|].
      apply pow2_le. lia.
    + apply round_positive_ge_pow2; [exact Hy | lia].
Qed.

Lemma round_positive_proper (x y : Q) :
  0 < x -> x == y -> round_positive x == round_positive y.
Proof.
  intros Hx E. unfold round_positive.
  rewrite <- (binade_proper x y Hx E).
  assert (H : nearest_even (x / 2 ^ ulp_exponent (binade x))
              = nearest_even (y / 2 ^ ulp_exponent (binade x))).
  { apply nearest_even_proper. unfold Qdiv.
    apply Qmult_comp; [exact E | reflexivity]. }
  now rewrite H.
Qed.

(** The binade of [z * 2 ^ t]. *)
Lemma binade_dyadic (z t : Z) :
  (0 < z)%Z -> binade (inject_Z z * 2 ^ t) = (Z.log2 z + t)%Z.
Proof.
  intro Hz. destruct (log2_bounds z Hz) as [Hlo Hhi].
  apply binade_unique.
  - rewrite pow2_plus. apply Qmult_le_compat_r; [exact Hlo|].
    apply Qlt_le_weak, pow2_pos.
  - replace (Z.log2 z + t + 1)%Z with (Z.log2 z + 1 + t)%Z by lia.
    rewrite pow2_plus. apply Qmult_lt_compat_r; [apply pow2_pos | exact Hhi].
Qed.

(** Integers of at most 53 bits, scaled by a power of two that a double
    can hold, are doubles. *)
Lemma round_positive_dyadic (z t : Z) :
  (0 < z <= 2 ^ 53)%Z -> (-1074 <= t)%Z ->
  round_positive (inject_Z z * 2 ^ t) == inject_Z z * 2 ^ t.
Proof.
  intros [Hz Hz53] Ht.
  set (x := inject_Z z * 2 ^ t).
  assert (Hk : binade x = (Z.log2 z + t)%Z) by now apply binade_dyadic.
  destruct (Z_le_gt_dec (ulp_exponent (binade x)) t) as [He|He].
  - apply (round_positive_on_grid x (z * 2 ^ (t - ulp_exponent (binade x)))).
    unfold x at 1. rewrite inject_Z_mult, <- Qmult_assoc.
    rewrite <- (pow2_split t _ He). reflexivity.
  - assert (Hlog : Z.log2 z = 53%Z).
    { assert (Z.log2 z <= 53)%Z.
      { change 53%Z with (Z.log2 (2 ^ 53)). now apply Z.log2_le_mono. }
      rewrite Hk in He. unfold ulp_exponent in He. lia. }
    assert (Ez : z = (2 ^ 53)%Z).
    { destruct (Z.log2_spec z Hz) as [Hlo _]. rewrite Hlog in Hlo. lia. }
    assert (Ee : ulp_exponent (binade x) = (t + 1)%Z).
    { rewrite Hk, Hlog. unfold ulp_exponent. lia. }
    apply (round_positive_on_grid x (2 ^ 52)).
    rewrite Ee. unfold x. rewrite Ez, pow2_plus.
    generalize (2 ^ t). intro p.
    setoid_replace (inject_Z (2 ^ 53)) with (inject_Z (2 ^ 52) * 2)
      by reflexivity.
    change (2 ^ 1) with 2. ring.
Qed.

(** Every rounded value is an integer of at most 53 bits scaled by a
    power of two not below [2 ^ -1074]. *)
Lemma round_positive_form (x : Q) :
  0 < x ->
  exists m e, (0 <= m <= 2 ^ 53)%Z /\ (-1074 <= e)%Z
              /\ round_positive x == inject_Z m * 2 ^ e.
Proof.
  intro Hx.
  exists (nearest_even (x / 2 ^ ulp_exponent (binade x))),
         (ulp_exponent (binade x)).
  split; [|split; [unfold ulp_exponent; lia | reflexivity]].
  set (e := ulp_exponent (binade x)).
  destruct (binade_spec x Hx) as [_ Hhi].
  split.
  - assert (Ht : inject_Z 0 <= x / 2 ^ e).
    { apply Qle_shift_div_l; [apply pow2_pos|].
      rewrite Qmult_0_l. now apply Qlt_le_weak. }
    apply nearest_even_le in Ht. now rewrite nearest_even_Z in Ht.
  - assert (Ht : x / 2 ^ e <= inject_Z (2 ^ 53)).
    { apply Qle_shift_div_r; [apply pow2_pos|].
      rewrite <- pow2_Z by lia. rewrite <- pow2_plus.
      apply Qle_trans with (2 ^ (binade x + 1)); [now apply Qlt_le_weak|].
      apply pow2_le. unfold e, ulp_exponent. lia. }
    apply nearest_even_le in Ht. now rewrite nearest_even_Z in Ht.
Qed.

End RoundPositive.

Section Round53.

Import Doubles.

Lemma round53_0 : round53 0 == 0.
Proof. reflexivity. Qed.

Lemma round53_pos (x : Q) : 0 < x -> round53 x = round_positive x.
Proof.
  intro H. unfold round53.
  destruct (Qcompare_spec x 0) as [E|E|E]; [| |reflexivity]; exfalso; lra.
Qed.

Lemma round53_neg (x : Q) : x < 0 -> round53 x = - round_positive (- x).
Proof.
  intro H. unfold round53.
  destruct (Qcompare_spec x 0) as [E|E|E]; [|reflexivity|]; exfalso; lra.
Qed.

Lemma round53_zero (x : Q) : x == 0 -> round53 x = 0.
Proof.
  intro H. unfold round53.
  destruct (Qcompare_spec x 0) as [E|E|E]; [reflexivity| |]; exfalso; lra.
Qed.

Lemma round53_proper (x y : Q) : x == y -> round53 x == round53 y.
Proof.
  intro E. destruct (Q_dec x 0) as [[H|H]|H].
  - rewrite (round53_neg x H), (round53_neg y) by lra.
    apply Qopp_comp, round_positive_proper; lra.
  - rewrite (round53_pos x H), (round53_pos y) by lra.
    now apply round_positive_proper.
  - rewrite (round53_zero x H), (round53_zero y) by lra. reflexivity.
Qed.

(** Rounding keeps the order. *)
Lemma round53_le (x y : Q) : x <= y -> round53 x <= round53 y.
Proof.
  intro Hxy.
  destruct (Q_dec x 0) as [[Hx|Hx]|Hx]; destruct (Q_dec y 0) as [[Hy|Hy]|Hy];
    try (exfalso; lra).
  - rewrite (round53_neg x Hx), (round53_neg y Hy).
    apply Qopp_le_compat, round_positive_le; lra.
  - rewrite (round53_neg x Hx), (round53_pos y Hy).
    assert (0 <= round_positive (- x)) by (apply round_positive_nonneg; lra).
    assert (0 <= round_positive y) by (apply round_positive_nonneg; lra).
    lra.
  - rewrite (round53_neg x Hx), (round53_zero y Hy).
    assert (0 <= round_positive (- x)) by (apply round_positive_nonneg; lra).
    lra.
  - rewrite (round53_pos x Hx), (round53_pos y Hy).
    now apply round_positive_le.
  - rewrite (round53_zero x Hx), (round53_pos y Hy).
    now apply round_positive_nonneg.
  - rewrite (round53_zero x Hx), (round53_zero y Hy). apply Qle_refl.
Qed.

(** Integers of at most 53 bits scaled by a power of two from
    [2 ^ -1074] on are doubles. *)
Lemma round53_dyadic (z t : Z) :
  (- 2 ^ 53 <= z <= 2 ^ 53)%Z -> (-1074 <= t)%Z ->
  round53 (inject_Z z * 2 ^ t) == inject_Z z * 2 ^ t.
Proof.
  intros Hz Ht. pose proof (pow2_pos t) as Hp.
  destruct (Z.lt_trichotomy z 0) as [Hneg|[E|Hpos]].
  - assert (Hx : inject_Z z * 2 ^ t < 0).
    { setoid_replace 0 with (0 * 2 ^ t) by ring.
      apply Qmult_lt_compat_r; [exact Hp|]. unfold Qlt. simpl. lia. }
    rewrite (round53_neg _ Hx).
    assert (E : - (inject_Z z * 2 ^ t) == inject_Z (- z) * 2 ^ t)
      by (rewrite inject_Z_opp; ring).
    assert (H0 : 0 < - (inject_Z z * 2 ^ t)) by lra.
    rewrite (round_positive_proper _ _ H0 E).
    rewrite round_positive_dyadic by lia.
    rewrite inject_Z_opp. ring.
  - subst z. rewrite round53_zero; [ring_simplify; reflexivity | ring].
  - assert (Hx : 0 < inject_Z z * 2 ^ t).
    { setoid_replace 0 with (0 * 2 ^ t) by ring.
      apply Qmult_lt_compat_r; [exact Hp|]. unfold Qlt. simpl. lia. }
    rewrite (round53_pos _ Hx). apply round_positive_dyadic; lia.
Qed.

(** Whole numbers up to [2 ^ 53] in magnitude are doubles. *)
Lemma round53_Z (z : Z) :
  (- 2 ^ 53 <= z <= 2 ^ 53)%Z -> round53 (inject_Z z) == inject_Z z.
Proof.
  intro Hz.
  assert (E : inject_Z z == inject_Z z * 2 ^ 0) by (change (2 ^ 0) with 1; ring).
  rewrite (round53_proper _ _ E). rewrite round53_dyadic by lia.
  now rewrite <- E.
Qed.

(** Every double is an integer of at most 53 bits scaled by a power of
    two from [2 ^ -1074] on. *)
Lemma round53_form (x : Q) :
  exists m e, (- 2 ^ 53 <= m <= 2 ^ 53)%Z /\ (-1074 <= e)%Z
              /\ round53 x == inject_Z m * 2 ^ e.
Proof.
  destruct (Q_dec x 0) as [[H|H]|H].
  - rewrite (round53_neg x H).
    destruct (round_positive_form (- x)) as [m [e [Hm [He E]]]]; [lra|].
    exists (- m)%Z, e. split; [lia|]. split; [exact He|].
    rewrite E, inject_Z_opp. ring.
  - rewrite (round53_pos x H).
    destruct (round_positive_form x H) as [m [e [Hm [He E]]]].
    exists m, e. split; [lia|]. split; assumption.
  - rewrite (round53_zero x H). exists 0%Z, 0%Z.
    split; [lia|]. split; [lia | reflexivity].
Qed.

Lemma round53_nonneg (x : Q) : 0 <= x -> 0 <= round53 x.
Proof. intro H. apply (round53_le 0 x H). Qed.

Lemma round53_nonpos (x : Q) : x <= 0 -> round53 x <= 0.
Proof. intro H. apply (round53_le x 0 H). Qed.

(** Rounding moves a value of magnitude at most [2 ^ 53] by less than 1
    and not across a whole number. *)
Lemma round53_between (x : Q) :
  - inject_Z (2 ^ 53) <= x <= inject_Z (2 ^ 53) ->
  inject_Z (Qfloor x) <= round53 x <= inject_Z (Qceiling x).
Proof.
  intros [Hlo Hhi].
  assert (Hf : (- 2 ^ 53 <= Qfloor x)%Z).
  { rewrite <- (Qfloor_Z (- 2 ^ 53)). apply Qfloor_resp_le.
    now rewrite inject_Z_opp. }
  assert (Hc : (Qceiling x <= 2 ^ 53)%Z).
  { rewrite <- (Qceiling_Z (2 ^ 53)). now apply Qceiling_resp_le. }
  pose proof (Qle_floor_ceiling x) as Hfc. rewrite <- Zle_Qle in Hfc.
  split.
  - pose proof (round53_Z (Qfloor x) ltac:(lia)) as E.
    pose proof (round53_le _ _ (Qfloor_le x)) as H. lra.
  - pose proof (round53_Z (Qceiling x) ltac:(lia)) as E.
    pose proof (round53_le _ _ (Qle_ceiling x)) as H. lra.
Qed.

End Round53.

#[global] Instance round53_comp : Proper (Qeq ==> Qeq) Doubles.round53.
Proof. exact round53_proper. Qed.

Section DoubleFacts.

Import Doubles.

Lemma round53_idempotent (x : Q) : round53 (round53 x) == round53 x.
Proof.
  destruct (round53_form x) as [m [e [Hm [He E]]]].
  rewrite (round53_proper _ _ E), E. now apply round53_dyadic.
Qed.

(** A positive double is a whole multiple of the unit of its binade. *)
Lemma double_on_grid (x : Q) :
  0 < x -> round53 x == x ->
  exists m, (0 < m)%Z /\ x == inject_Z m * 2 ^ ulp_exponent (binade x).
Proof.
  intros Hx E. rewrite (round53_pos x Hx) in E.
  exists (nearest_even (x / 2 ^ ulp_exponent (binade x))).
  split; [|symmetry; exact E].
  destruct (Z_lt_le_dec 0 (nearest_even (x / 2 ^ ulp_exponent (binade x))))
    as [H|H]; [exact H|exfalso].
  unfold round_positive in E.
  assert (Hn : inject_Z (nearest_even (x / 2 ^ ulp_exponent (binade x))) <= 0).
  { unfold Qle. simpl. lia. }
  pose proof (pow2_pos (ulp_exponent (binade x))) as Hp.
  assert (Hle : inject_Z (nearest_even (x / 2 ^ ulp_exponent (binade x)))
                * 2 ^ ulp_exponent (binade x) <= 0 * 2 ^ ulp_exponent (binade x)).
  { apply Qmult_le_compat_r; [exact Hn | now apply Qlt_le_weak]. }
  rewrite E, Qmult_0_l in Hle. lra.
Qed.

(** A whole multiple of [2 ^ e] is a whole multiple of every smaller power
    of two. *)
Lemma regrid (m e g : Z) :
  (g <= e)%Z -> inject_Z m * 2 ^ e == inject_Z (m * 2 ^ (e - g)) * 2 ^ g.
Proof.
  intro H. rewrite inject_Z_mult, <- Qmult_assoc, <- (pow2_split e g H).
  reflexivity.
Qed.

Lemma whole_on_grid (c g : Z) :
  (g <= 0)%Z -> inject_Z c == inject_Z (c * 2 ^ (- g)) * 2 ^ g.
Proof.
  intro H.
  assert (E : inject_Z c == inject_Z c * 2 ^ 0) by (change (2 ^ 0) with 1; ring).
  rewrite E at 1. rewrite (regrid c 0 g H). now replace (0 - g)%Z with (- g)%Z by lia.
Qed.

(** A positive whole multiple of a positive number is at least it. *)
Lemma multiple_ge (d : Z) (p : Q) : 0 < p -> 0 < inject_Z d * p -> p <= inject_Z d * p.
Proof.
  intros Hp Hd.
  assert (H1 : (1 <= d)%Z).
  { destruct (Z_lt_le_dec 0 d) as [H|H]; [lia|exfalso].
    assert (Hn : inject_Z d <= 0) by (unfold Qle; simpl; lia).
    assert (inject_Z d * p <= 0 * p)
      by (apply Qmult_le_compat_r; [exact Hn | now apply Qlt_le_weak]).
    lra. }
  assert (Hq : 1 <= inject_Z d) by (unfold Qle; simpl; lia).
  assert (1 * p <= inject_Z d * p)
    by (apply Qmult_le_compat_r; [exact Hq | now apply Qlt_le_weak]).
  lra.
Qed.

(** Taking a whole number away from a larger double of at most [2 ^ 53]
    is exact. *)
Lemma double_minus_whole (x : Q) (c : Z) :
  round53 x == x -> x <= inject_Z (2 ^ 53) ->
  (0 <= c)%Z -> inject_Z c < x ->
  round53 (x - inject_Z c) == x - inject_Z c.
Proof.
  intros E H53 Hc Hlt.
  assert (Hx : 0 < x).
  { assert (0 <= inject_Z c) by (unfold Qle; simpl; lia). lra. }
  destruct (double_on_grid x Hx E) as [m [Hm Em]].
  set (e := ulp_exponent (binade x)) in *.
  pose proof (pow2_pos e) as Hp.
  destruct (Z_le_gt_dec 0 e) as [He|He].
  - assert (Ez : x == inject_Z (m * 2 ^ e)).
    { rewrite Em, inject_Z_mult, <- pow2_Z by lia. reflexivity. }
    assert (Ed : x - inject_Z c == inject_Z (m * 2 ^ e - c)).
    { rewrite Ez. unfold Z.sub. rewrite inject_Z_plus, inject_Z_opp. ring. }
    rewrite (round53_proper _ _ Ed), Ed. apply round53_Z.
    rewrite Ez in H53, Hlt. rewrite <- Zle_Qle in H53. rewrite <- Zlt_Qlt in Hlt.
    lia.
  - assert (Hg : (e <= 0)%Z) by lia.
    assert (Ed : x - inject_Z c == inject_Z (m - c * 2 ^ (- e)) * 2 ^ e).
    { rewrite Em, (whole_on_grid c e Hg).
      unfold Z.sub. rewrite inject_Z_plus, inject_Z_opp. ring. }
    rewrite (round53_proper _ _ Ed), Ed. apply round53_dyadic.
    + assert (Hpos : 0 < inject_Z (m - c * 2 ^ (- e)) * 2 ^ e)
        by (rewrite <- Ed; lra).
      assert (Hd : (0 < m - c * 2 ^ (- e))%Z).
      { destruct (Z_lt_le_dec 0 (m - c * 2 ^ (- e))) as [H|H]; [exact H|exfalso].
        assert (Hn : inject_Z (m - c * 2 ^ (- e)) <= 0)
          by (unfold Qle; simpl; lia).
        assert (inject_Z (m - c * 2 ^ (- e)) * 2 ^ e <= 0 * 2 ^ e)
          by (apply Qmult_le_compat_r; [exact Hn | now apply Qlt_le_weak]).
        lra. }
      assert (Hm53 : (m <= 2 ^ 53)%Z).
      { (* x < 2 ^ (binade x + 1) and e >= binade x - 52 *)
        destruct (binade_spec x Hx) as [_ Hhi].
        assert (Hb : 2 ^ (binade x + 1) <= inject_Z (2 ^ 53) * 2 ^ e).
        { rewrite <- pow2_Z by lia. rewrite <- pow2_plus.
          apply pow2_le. unfold e, ulp_exponent. lia. }
        assert (Hlt' : inject_Z m * 2 ^ e < inject_Z (2 ^ 53) * 2 ^ e)
          by (rewrite <- Em; lra).
        apply Qmult_lt_r in Hlt'; [|exact Hp].
        rewrite <- Zlt_Qlt in Hlt'. lia. }
      assert (0 <= c * 2 ^ (- e))%Z by (apply Z.mul_nonneg_nonneg; lia).
      lia.
    + unfold e, ulp_exponent. lia.
Qed.

Lemma nearest_even_up (t : Q) (K : Z) :
  inject_Z K + (1 # 2) < t -> (K + 1 <= nearest_even t)%Z.
Proof.
  intro H.
  assert (Hf : (K <= Qfloor t)%Z).
  { rewrite <- (Qfloor_Z K). apply Qfloor_resp_le. lra. }
  pose proof (nearest_even_bounds t) as Hb.
  destruct (Z.eq_dec (Qfloor t) K) as [E|E]; [|lia].
  unfold nearest_even. rewrite E.
  destruct (Qcompare_spec (t - inject_Z K) (1 # 2)) as [H'|H'|H'];
    [exfalso; lra | exfalso; lra | lia].
Qed.

End DoubleFacts.

Section Quotient.

Import Doubles.

Lemma binade_pow2 (j : Z) : binade (2 ^ j) = j.
Proof.
  apply binade_unique; [apply Qle_refl | apply pow2_lt; lia].
Qed.

Lemma round53_pow2 (j : Z) : (-1074 <= j)%Z -> round53 (2 ^ j) == 2 ^ j.
Proof.
  intro H.
  assert (E : 2 ^ j == inject_Z 1 * 2 ^ j) by ring.
  rewrite E at 1. rewrite round53_dyadic by lia. now rewrite <- E.
Qed.

Lemma least_quotient : 0 < round53 (Float64.least_length / 60).
Proof. vm_compute. reflexivity. Qed.

(** The quotient by 60 of a double above [60 * k] rounds to more than
    [k]: a double above [60 * k] is too far above it for its quotient to
    round down to [k]. *)
Lemma quotient_above (x : Q) (k : Z) :
  round53 x == x -> x <= inject_Z (2 ^ 53) -> Float64.least_length <= x ->
  (0 <= k)%Z -> inject_Z k * 60 < x ->
  inject_Z k < round53 (x / 60).
Proof.
  intros E H53 Hleast Hk Hlt.
  destruct (Z.eq_dec k 0) as [->|Hk0].
  - apply Qlt_le_trans with (round53 (Float64.least_length / 60));
      [exact least_quotient|].
    apply round53_le. unfold Qdiv.
    apply Qmult_le_compat_r; [exact Hleast | discriminate].
  - assert (Hkpos : (0 < k)%Z) by lia.
    set (j := Z.log2 k).
    destruct (log2_bounds k Hkpos) as [Hlo Hhi]. fold j in Hlo, Hhi.
    assert (Hj0 : (0 <= j)%Z) by apply Z.log2_nonneg.
    assert (Hk60 : (k * 60 < 2 ^ 53)%Z).
    { rewrite Zlt_Qlt, inject_Z_mult.
      change (inject_Z 60) with 60. lra. }
    assert (Hj : (j < 48)%Z).
    { apply Z.log2_lt_pow2; [exact Hkpos|].
      change (2 ^ 48)%Z with 281474976710656%Z.
      change (2 ^ 53)%Z with 9007199254740992%Z in Hk60. lia. }
    assert (Hx : 0 < x).
    { assert (0 <= inject_Z k) by (unfold Qle; simpl; lia). lra. }
    (* the grid of x *)
    assert (Hx5 : 2 ^ (j + 5) <= x).
    { rewrite pow2_plus. change (2 ^ 5) with 32. lra. }
    assert (Hb : (j + 5 <= binade x)%Z).
    { rewrite <- (binade_pow2 (j + 5)).
      apply binade_le; [apply pow2_pos | exact Hx5]. }
    destruct (double_on_grid x Hx E) as [m [Hm Em]].
    set (e := ulp_exponent (binade x)) in *.
    set (g := (j - 47)%Z).
    assert (Hge : (g <= e)%Z) by (unfold g, e, ulp_exponent; lia).
    assert (Hg0 : (g <= 0)%Z) by (unfold g; lia).
    assert (Ed : x - inject_Z k * 60
                 == inject_Z (m * 2 ^ (e - g) - k * 60 * 2 ^ (- g)) * 2 ^ g).
    { rewrite Em at 1. rewrite (regrid m e g Hge).
      setoid_replace (inject_Z k * 60) with (inject_Z (k * 60))
        by (rewrite inject_Z_mult; reflexivity).
      rewrite (whole_on_grid (k * 60) g Hg0).
      generalize (m * 2 ^ (e - g))%Z (k * 60 * 2 ^ (- g))%Z. intros A B.
      unfold Z.sub. rewrite inject_Z_plus, inject_Z_opp. ring. }
    assert (Hgap : 2 ^ g <= x - inject_Z k * 60).
    { rewrite Ed. apply multiple_ge; [apply pow2_pos|]. rewrite <- Ed. lra. }
    set (u := 2 ^ (j - 52)).
    assert (Hu : 0 < u) by apply pow2_pos.
    assert (Eg : 2 ^ g == 32 * u).
    { unfold g, u. replace (j - 47)%Z with (5 + (j - 52))%Z by lia.
      rewrite pow2_plus. reflexivity. }
    assert (Hq : inject_Z k + (32 # 60) * u <= x / 60).
    { apply Qle_shift_div_l; [reflexivity|]. rewrite Eg in Hgap.
      ring_simplify. ring_simplify in Hgap. lra. }
    assert (Hq0 : 0 < x / 60).
    { apply Qlt_shift_div_l; [reflexivity | lra]. }
    assert (Hbq : (j <= binade (x / 60))%Z).
    { rewrite <- (binade_pow2 j).
      apply binade_le; [apply pow2_pos|].
      assert (0 <= (32 # 60) * u)
        by (apply Qmult_le_0_compat; [discriminate | now apply Qlt_le_weak]).
      lra. }
    destruct (Z.eq_dec (binade (x / 60)) j) as [Ej|Ej].
    + rewrite (round53_pos _ Hq0). unfold round_positive. rewrite Ej.
      assert (Eu : ulp_exponent j = (j - 52)%Z) by (unfold ulp_exponent; lia).
      rewrite Eu. fold u.
      assert (EK : inject_Z k == inject_Z (k * 2 ^ (- (j - 52))) * u).
      { apply whole_on_grid. lia. }
      set (K := (k * 2 ^ (- (j - 52)))%Z) in *.
      assert (Hup : (K + 1 <= nearest_even (x / 60 / u))%Z).
      { apply nearest_even_up.
        apply Qlt_le_trans with (inject_Z K + (32 # 60)); [lra|].
        apply Qle_shift_div_l; [exact Hu|].
        rewrite Qmult_plus_distr_l, <- EK. exact Hq. }
      assert (Hn : inject_Z (K + 1) <= inject_Z (nearest_even (x / 60 / u)))
        by now rewrite <- Zle_Qle.
      assert (Hmul : inject_Z (K + 1) * u
                     <= inject_Z (nearest_even (x / 60 / u)) * u)
        by (apply Qmult_le_compat_r; [exact Hn | now apply Qlt_le_weak]).
      rewrite inject_Z_plus, Qmult_plus_distr_l, <- EK in Hmul.
      change (inject_Z 1) with 1 in Hmul. lra.
    + assert (Hb1 : (j + 1 <= binade (x / 60))%Z) by lia.
      destruct (binade_spec (x / 60) Hq0) as [Hlo' _].
      assert (H1 : 2 ^ (j + 1) <= x / 60).
      { apply Qle_trans with (2 ^ binade (x / 60)); [|exact Hlo'].
        now apply pow2_le. }
      pose proof (round53_le _ _ H1) as H2.
      rewrite round53_pow2 in H2 by lia. lra.
Qed.

End Quotient.

Section FloatWindow.

Import VideoSynth Doubles.

Lemma js_min_proper (a b b' : Q) : b == b' -> js_min a b == js_min a b'.
Proof. intro E. split_minmax; lra. Qed.

Lemma Qceiling_proper (x y : Q) : x == y -> Qceiling x = Qceiling y.
Proof.
  intro E. apply Z.le_antisymm; apply Qceiling_resp_le; rewrite E; apply Qle_refl.
Qed.

(** A length of at most [B] seconds, [B <= 60 * k], makes at most [k]
    chunks. *)
Lemma float_count_le (length : Q) (B k : Z) :
  length <= inject_Z B -> (B <= 60 * k)%Z ->
  (0 <= k)%Z -> (- 2 ^ 53 <= B <= 2 ^ 53)%Z -> (k <= 2 ^ 53)%Z ->
  (Float64.segmentCount 0 length <= Z.to_nat k)%nat.
Proof.
  intros Hlen HB Hk HB53 Hk53. unfold Float64.segmentCount, sub, div.
  assert (H1 : round53 (length - 0) <= inject_Z B).
  { rewrite <- (round53_Z B HB53). apply round53_le. lra. }
  assert (H2 : round53 (length - 0) / 60 <= inject_Z k).
  { apply Qle_shift_div_r; [reflexivity|].
    assert (inject_Z B <= inject_Z k * 60).
    { change 60 with (inject_Z 60). rewrite <- inject_Z_mult, <- Zle_Qle. lia. }
    lra. }
  assert (H3 : round53 (round53 (length - 0) / 60) <= inject_Z k).
  { rewrite <- (round53_Z k) by lia. now apply round53_le. }
  apply Qceiling_resp_le in H3. rewrite Qceiling_Z in H3. lia.
Qed.

Lemma float_count_zero (endTime : Q) :
  endTime <= 0 -> Float64.segmentCount 0 endTime = 0%nat.
Proof.
  intro H.
  pose proof (float_count_le endTime 0 0) as Hc.
  cbn [Z.to_nat] in Hc.
  assert (Float64.segmentCount 0 endTime <= 0)%nat; [|lia].
  apply Hc; [exact H | lia | lia | lia | lia].
Qed.

(** The ends of the window and its length, for a marker of magnitude at
    most [2 ^ 52]. *)
Lemma float_window (markerTime a : Q) :
  - inject_Z (2 ^ 52) <= markerTime <= inject_Z (2 ^ 52) ->
  let startTime := js_max 0 (sub markerTime 300) in
  let endTime := js_min a (add markerTime 180) in
  0 <= startTime /\ markerTime - 301 < startTime
  /\ endTime <= a /\ endTime < markerTime + 181
  /\ Float64.window_length startTime endTime <= 481
  /\ (forall z, markerTime == inject_Z z ->
        markerTime - 300 <= startTime /\ endTime <= markerTime + 180
        /\ Float64.window_length startTime endTime <= 480).
Proof.
  intros [Hlo Hhi] startTime endTime.
  change (inject_Z (2 ^ 52)) with 4503599627370496 in Hlo, Hhi.
  assert (Hb1 : - inject_Z (2 ^ 53) <= markerTime - 300 <= inject_Z (2 ^ 53)).
  { change (inject_Z (2 ^ 53)) with 9007199254740992. split; lra. }
  assert (Hb2 : - inject_Z (2 ^ 53) <= markerTime + 180 <= inject_Z (2 ^ 53)).
  { change (inject_Z (2 ^ 53)) with 9007199254740992. split; lra. }
  destruct (round53_between _ Hb1) as [Hs _].
  destruct (round53_between _ Hb2) as [_ He].
  pose proof (Qlt_floor (markerTime - 300)) as Hf.
  pose proof (Qceiling_lt (markerTime + 180)) as Hc.
  rewrite inject_Z_plus in Hf. unfold Z.sub in Hc.
  rewrite inject_Z_plus, inject_Z_opp in Hc.
  change (inject_Z 1) with 1 in Hf, Hc.
  assert (Hz : (Qceiling (markerTime + 180)
                <= Qfloor (markerTime - 300) + 481)%Z).
  { assert (H : inject_Z (Qceiling (markerTime + 180))
                < inject_Z (Qfloor (markerTime - 300) + 482)).
    { rewrite inject_Z_plus. change (inject_Z 482) with 482. lra. }
    rewrite <- Zlt_Qlt in H. lia. }
  assert (Hq : inject_Z (Qceiling (markerTime + 180))
               <= inject_Z (Qfloor (markerTime - 300)) + 481).
  { rewrite Zle_Qle, inject_Z_plus in Hz. exact Hz. }
  assert (Hlen : endTime - startTime <= 481).
  { unfold startTime, endTime, sub, add. split_minmax; lra. }
  assert (H481 : round53 481 == 481) by (apply (round53_Z 481); lia).
  assert (H480 : round53 480 == 480) by (apply (round53_Z 480); lia).
  split; [unfold startTime; split_minmax; lra|].
  split; [unfold startTime, sub; split_minmax; lra|].
  split; [unfold endTime; split_minmax; lra|].
  split; [unfold endTime, add; split_minmax; lra|].
  split.
  - unfold Float64.window_length, sub. rewrite <- H481. now apply round53_le.
  - intros z Ez.
    assert (Hz53 : (- 2 ^ 52 <= z <= 2 ^ 52)%Z).
    { rewrite Ez in Hlo, Hhi.
      change (- (4503599627370496)) with (inject_Z (- 2 ^ 52)) in Hlo.
      change 4503599627370496 with (inject_Z (2 ^ 52)) in Hhi.
      rewrite <- Zle_Qle in Hlo, Hhi. lia. }
    assert (E1 : sub markerTime 300 == markerTime - 300).
    { unfold sub.
      assert (E : markerTime - 300 == inject_Z (z - 300)).
      { rewrite Ez. unfold Z.sub. rewrite inject_Z_plus. reflexivity. }
      rewrite E. apply round53_Z. lia. }
    assert (E2 : add markerTime 180 == markerTime + 180).
    { unfold add.
      assert (E : markerTime + 180 == inject_Z (z + 180)).
      { rewrite Ez, inject_Z_plus. reflexivity. }
      rewrite E. apply round53_Z. lia. }
    assert (Hlen' : endTime - startTime <= 480).
    { unfold startTime, endTime. split_minmax; lra. }
    split; [unfold startTime; split_minmax; lra|].
    split; [unfold endTime; split_minmax; lra|].
    unfold Float64.window_length, sub. rewrite <- H480. now apply round53_le.
Qed.

(** From 0, the program cuts a double into as many chunks as exact
    arithmetic would. *)
Lemma float_count_exact (endTime : Q) :
  round53 endTime == endTime -> endTime <= inject_Z (2 ^ 53) ->
  Float64.least_length <= endTime ->
  Float64.segmentCount 0 endTime = Asr.segmentCount 0 endTime.
Proof.
  intros Hd H53 Hleast.
  assert (Hpos : 0 < endTime).
  { apply Qlt_le_trans with Float64.least_length; [reflexivity | exact Hleast]. }
  unfold Float64.segmentCount, Asr.segmentCount, sub, div.
  assert (E0 : round53 (endTime - 0) == endTime).
  { assert (E : endTime - 0 == endTime) by ring. now rewrite E. }
  assert (E1 : round53 (round53 (endTime - 0) / 60) == round53 (endTime / 60))
    by now rewrite E0.
  rewrite (Qceiling_proper _ _ E1).
  assert (E2 : (endTime - 0) / 60 == endTime / 60) by (unfold Qdiv; ring).
  rewrite (Qceiling_proper _ _ E2).
  set (c := Qceiling (endTime / 60)).
  assert (Hq : 0 < endTime / 60)
    by (apply Qlt_shift_div_l; [reflexivity | lra]).
  pose proof (Qle_ceiling (endTime / 60)) as Hc1. fold c in Hc1.
  pose proof (Qceiling_lt (endTime / 60)) as Hc2. fold c in Hc2.
  assert (Hc0 : (1 <= c)%Z).
  { assert (H : inject_Z 0 < inject_Z c) by (change (inject_Z 0) with 0; lra).
    rewrite <- Zlt_Qlt in H. lia. }
  assert (Hc53 : (c <= 2 ^ 53)%Z).
  { unfold c. rewrite <- (Qceiling_Z (2 ^ 53)). apply Qceiling_resp_le.
    apply Qle_shift_div_r; [reflexivity|].
    change (inject_Z (2 ^ 53)) with 9007199254740992 in *. lra. }
  f_equal. apply Z.le_antisymm.
  - assert (H : round53 (endTime / 60) <= inject_Z c).
    { rewrite <- (round53_Z c) by lia. now apply round53_le. }
    apply Qceiling_resp_le in H. now rewrite Qceiling_Z in H.
  - assert (H : inject_Z (c - 1) < round53 (endTime / 60)).
    { apply quotient_above; [exact Hd | exact H53 | exact Hleast | lia |].
      assert (H60 : inject_Z (c - 1) * 60 < endTime / 60 * 60)
        by (apply Qmult_lt_compat_r; [reflexivity | exact Hc2]).
      assert (Eq : endTime / 60 * 60 == endTime) by field.
      lra. }
    pose proof (Qle_ceiling (round53 (endTime / 60))) as H'.
    assert (H'' : inject_Z (c - 1)
                  < inject_Z (Qceiling (round53 (endTime / 60)))) by lra.
    rewrite <- Zlt_Qlt in H''. lia.
Qed.

(** From 0, the start and the length of a chunk are computed without
    rounding error. *)
Lemma float_task_exact (endTime : Q) (i : nat) :
  round53 endTime == endTime -> endTime <= inject_Z (2 ^ 53) ->
  Qnat i * 60 < endTime ->
  let segmentStart := add 0 (mul (Qnat i) 60) in
  segmentStart == Qnat i * 60
  /\ js_min 60 (sub endTime segmentStart)
     == js_min 60 (endTime - Qnat i * 60).
Proof.
  intros Hd H53 Hi segmentStart.
  assert (Ec : Qnat i * 60 == inject_Z (Z.of_nat i * 60)).
  { unfold Qnat. rewrite inject_Z_mult. reflexivity. }
  assert (Hc53 : (Z.of_nat i * 60 < 2 ^ 53)%Z).
  { rewrite Zlt_Qlt, <- Ec. lra. }
  assert (Es : segmentStart == Qnat i * 60).
  { unfold segmentStart, add, mul.
    rewrite Ec, round53_Z by lia.
    assert (E : 0 + inject_Z (Z.of_nat i * 60) == inject_Z (Z.of_nat i * 60))
      by ring.
    rewrite E. apply round53_Z. lia. }
  split; [exact Es|].
  apply js_min_proper. unfold sub. rewrite Es, Ec.
  apply double_minus_whole; [exact Hd | exact H53 | lia | now rewrite <- Ec].
Qed.

End FloatWindow.

(** *** The window and its chunks in double arithmetic *)

(** X2: when the probe answers a duration [a] and the marker has a
    magnitude of at most [2 ^ 52] seconds, the window computed in double
    arithmetic starts at or after 0 and less than 301 seconds before the
    marker, ends at or before [a] and less than 181 seconds after the
    marker, and the length handed to the transcription is at most 481
    seconds; for a marker at a whole number of seconds nothing is rounded:
    the window starts at most 300 seconds before the marker, ends at most
    180 seconds after it and is at most 480 seconds long. *)
Theorem marker_window_bounds
  (ffprobe : jsstring -> completion jsstring) (parseFloat : jsstring -> jsnum)
  (path output : jsstring) (markerTime a : Q) :
  ffprobe path = Normal output ->
  parseFloat (trim output) = Num a ->
  - inject_Z (2 ^ 52) <= markerTime <= inject_Z (2 ^ 52) ->
  exists startTime endTime,
    Float64.marker_window ffprobe parseFloat path markerTime
      = Normal (startTime, Num endTime)
    /\ 0 <= startTime /\ markerTime - 301 < startTime
    /\ endTime <= a /\ endTime < markerTime + 181
    /\ Float64.window_length startTime endTime <= 481
    /\ (forall z, markerTime == inject_Z z ->
          markerTime - 300 <= startTime /\ endTime <= markerTime + 180
          /\ Float64.window_length startTime endTime <= 480).
Proof.
  intros Hprobe Hparse Hm.
  unfold Float64.marker_window, Asr.getAudioDuration.
  rewrite Hprobe. simpl. rewrite Hparse. simpl.
  eexists. eexists. split; [reflexivity|].
  exact (float_window markerTime a Hm).
Qed.

(** The theorem at Scenario B: 185 seconds of audio, marker at 300. *)
Lemma marker_window_bounds_witness :
  exists startTime endTime,
    Float64.marker_window (fun _ => Normal []) (fun _ => Num 185) [] 300
      = Normal (startTime, Num endTime)
    /\ Float64.window_length startTime endTime <= 480.
Proof.
  destruct (marker_window_bounds (fun _ => Normal []) (fun _ => Num 185)
              [] [] 300 185 eq_refl eq_refl)
    as [s [e [H [_ [_ [_ [_ [_ Hz]]]]]]]].
  - split; discriminate.
  - exists s, e. split; [exact H|].
    exact (proj2 (proj2 (Hz 300%Z ltac:(reflexivity)))).
Defined.

(** For the marker at 332.19 seconds in 1000 seconds of audio the length
    handed to the transcription is 480.00000000000006 seconds. *)
Example window_longer_than_480 :
  Float64.marker_window (fun _ => Normal []) (fun _ => Num 1000) []
    Times.marker_332_19
  = Normal (Doubles.sub Times.marker_332_19 300,
            Num (Doubles.add Times.marker_332_19 180))
  /\ Float64.window_length (Doubles.sub Times.marker_332_19 300)
       (Doubles.add Times.marker_332_19 180)
     == 8444249301319681 # 17592186044416
  /\ 480 < 8444249301319681 # 17592186044416.
Proof.
  split; [vm_compute; reflexivity|]. split; vm_compute; reflexivity.
Qed.

(** X3: the window of a marker of magnitude at most [2 ^ 52] seconds is
    transcribed in at most 9 chunks, hence in at most 3 batches of
    concurrent requests; in at most 8 chunks when the marker is at a
    whole number of seconds.  The length handed to the transcription is
    a double. *)
Theorem marker_chunks_at_most_9
  (ffprobe : jsstring -> completion jsstring) (parseFloat : jsstring -> jsnum)
  (path : jsstring) (markerTime startTime endTime : Q) :
  - inject_Z (2 ^ 52) <= markerTime <= inject_Z (2 ^ 52) ->
  Float64.marker_window ffprobe parseFloat path markerTime
    = Normal (startTime, Num endTime) ->
  let duration := Float64.window_length startTime endTime in
  let tasks := Float64.segmentTasks 0 duration in
  (Float64.segmentCount 0 duration <= 9)%nat
  /\ (length tasks <= 9)%nat
  /\ (length (Asr.batches tasks) <= 3)%nat
  /\ ((exists z, markerTime == inject_Z z) ->
      (Float64.segmentCount 0 duration <= 8)%nat)
  /\ Doubles.round53 duration == duration.
Proof.
  intros Hm H duration tasks.
  unfold Float64.marker_window, Asr.getAudioDuration in H.
  destruct (ffprobe path) as [output|]; [|discriminate].
  simpl in H. destruct (parseFloat (trim output)) as [|a]; [discriminate|].
  simpl in H. injection H as Es Ee.
  destruct (float_window markerTime a Hm) as [_ [_ [_ [_ [H481 Hz]]]]].
  rewrite Es, Ee in H481, Hz. fold duration in H481, Hz.
  assert (Hc : (Float64.segmentCount 0 duration <= 9)%nat).
  { apply (float_count_le duration 481 9); [exact H481 | lia..]. }
  assert (Hl : length tasks = Float64.segmentCount 0 duration).
  { unfold tasks, Float64.segmentTasks. now rewrite length_map, length_seq. }
  split; [exact Hc|]. split; [lia|]. split.
  - pose proof (batches_length tasks). lia.
  - split.
    + intros [z Ez]. destruct (Hz z Ez) as [_ [_ H480]].
      apply (float_count_le duration 480 8); [exact H480 | lia..].
    + unfold duration, Float64.window_length, Doubles.sub.
      apply round53_idempotent.
Qed.

(** The theorem at Scenario B. *)
Lemma marker_chunks_at_most_9_witness :
  (Float64.segmentCount 0 (Float64.window_length 0 185) <= 9)%nat.
Proof.
  refine (proj1 (marker_chunks_at_most_9 (fun _ => Normal [])
                   (fun _ => Num 185) [] 300 0 185 _ _)).
  - split; discriminate.
  - vm_compute. reflexivity.
Defined.

(** The window of the marker at 332.19 seconds is cut into 9 chunks; the
    last one starts at 480 seconds and lasts [2 ^ -44] seconds. *)
Example marker_in_9_chunks :
  let duration := Float64.window_length (Doubles.sub Times.marker_332_19 300)
                    (Doubles.add Times.marker_332_19 180) in
  Float64.segmentCount 0 duration = 9%nat
  /\ exists t, nth_error (Float64.segmentTasks 0 duration) 8 = Some t
               /\ Asr.segmentStart t == 480
               /\ Asr.segmentLength t == 2 ^ (-44).
Proof.
  cbv zeta. split; [vm_compute; reflexivity|].
  eexists. split; [vm_compute; reflexivity|]. split; vm_compute; reflexivity.
Qed.

(** X4: called from 0 with an end that is a double of at most [2 ^ 53]
    seconds, the transcription prepares no chunk when the end is at or
    before 0; when the end is at least [31 * 2 ^ -1074] it prepares as
    many chunks as exact arithmetic gives, at least one; chunk [i] has
    index [i] and starts at [60 * i] seconds; every chunk lasts more than
    0 and at most 60 seconds, every chunk but the last lasts 60 seconds
    and ends where the next one starts, and the last one ends at the
    end. *)
Theorem segmentTasks_tile (endTime : Q) :
  Doubles.round53 endTime == endTime -> endTime <= inject_Z (2 ^ 53) ->
  let tasks := Float64.segmentTasks 0 endTime in
  (endTime <= 0 -> tasks = [])
  /\ (Float64.least_length <= endTime ->
      length tasks = Asr.segmentCount 0 endTime
      /\ tasks <> []
      /\ Forall (fun t => 0 < Asr.segmentLength t /\ Asr.segmentLength t <= 60)
                tasks
      /\ (forall i t, nth_error tasks i = Some t ->
            Asr.index t = i /\ Asr.segmentStart t == 60 * VideoSynth.Qnat i)
      /\ (forall i t u,
            nth_error tasks i = Some t -> nth_error tasks (S i) = Some u ->
            Asr.segmentLength t == 60
            /\ Asr.segmentStart u == Asr.segmentStart t + Asr.segmentLength t)
      /\ (forall t, nth_error tasks (length tasks - 1) = Some t ->
                    Asr.segmentStart t + Asr.segmentLength t == endTime)).
Proof.
  intros Hd H53 tasks. split.
  - intro Hle. unfold tasks, Float64.segmentTasks.
    now rewrite (float_count_zero endTime Hle).
  - intro Hleast.
    assert (Hpos : 0 < endTime).
    { apply Qlt_le_trans with Float64.least_length; [reflexivity | exact Hleast]. }
    set (n := Asr.segmentCount 0 endTime).
    assert (Hlen : length tasks = n).
    { unfold tasks, Float64.segmentTasks.
      rewrite length_map, length_seq. now apply float_count_exact. }
    assert (Hn : (0 < n)%nat).
    { pose proof (chunk_count_ge 0 endTime) as H. fold n in H.
      destruct (Nat.eq_dec n 0) as [E|E]; [|lia].
      rewrite E in H.
      assert (Hz : VideoSynth.Qnat 0 * 60 == 0) by reflexivity.
      lra. }
    assert (Hin : forall i, (i < n)%nat -> VideoSynth.Qnat i * 60 < endTime).
    { intros i Hi. pose proof (chunk_index_lt 0 endTime i Hi). lra. }
    assert (Hnth : forall i t,
               nth_error tasks i = Some t ->
               (i < n)%nat /\ Asr.index t = i
               /\ Asr.segmentStart t == VideoSynth.Qnat i * 60
               /\ Asr.segmentLength t
                  == VideoSynth.js_min 60 (endTime - VideoSynth.Qnat i * 60)).
    { intros i t Ht. unfold tasks, Float64.segmentTasks in Ht.
      rewrite (float_count_exact endTime Hd H53 Hleast) in Ht. fold n in Ht.
      rewrite nth_error_seq_map in Ht.
      destruct (i <? n)%nat eqn:Ei; [|discriminate].
      apply Nat.ltb_lt in Ei. injection Ht as <-. cbn [Asr.index
        Asr.segmentStart Asr.segmentLength].
      destruct (float_task_exact endTime i Hd H53 (Hin i Ei)) as [E1 E2].
      split; [exact Ei|]. split; [reflexivity|]. split; assumption. }
    split; [exact Hlen|].
    split; [intro E; rewrite E in Hlen; simpl in Hlen; lia|].
    split; [|split; [|split]].
    + apply Forall_forall. intros t Hin'.
      apply In_nth_error in Hin' as [i Hi].
      destruct (Hnth i t Hi) as [Ei [_ [_ El]]]. rewrite El.
      pose proof (Hin i Ei). VideoSynth.split_minmax; lra.
    + intros i t Ht. destruct (Hnth i t Ht) as [_ [Ex [Es _]]].
      split; [exact Ex|]. rewrite Es. ring.
    + intros i t u Ht Hu.
      destruct (Hnth i t Ht) as [_ [_ [Es El]]].
      destruct (Hnth (S i) u Hu) as [Ei' [_ [Es' _]]].
      pose proof (Hin (S i) Ei') as Hs. rewrite Qnat_S in Hs.
      rewrite Es', Es, El, Qnat_S.
      split; VideoSynth.split_minmax; lra.
    + intros t Ht. rewrite Hlen in Ht.
      destruct (Hnth (n - 1)%nat t Ht) as [_ [_ [Es El]]].
      rewrite Es, El.
      pose proof (chunk_count_ge 0 endTime) as Hge. fold n in Hge.
      replace n with (S (n - 1)) in Hge by lia. rewrite Qnat_S in Hge.
      VideoSynth.split_minmax; lra.
Qed.

(** The theorem at 150 seconds of audio. *)
Lemma segmentTasks_tile_witness :
  Float64.segmentTasks 0 150 <> []
  /\ Forall (fun t => 0 < Asr.segmentLength t /\ Asr.segmentLength t <= 60)
            (Float64.segmentTasks 0 150).
Proof.
  destruct (segmentTasks_tile 150) as [_ H].
  - vm_compute. reflexivity.
  - vm_compute. discriminate.
  - assert (Hl : Float64.least_length <= 150) by (vm_compute; discriminate).
    destruct (H Hl) as [_ [H1 [H2 _]]]. split; assumption.
Defined.

(** A positive length below [31 * 2 ^ -1074] seconds gets no chunk. *)
Example tiny_length_no_chunk :
  0 < Times.below_least
  /\ Doubles.round53 Times.below_least == Times.below_least
  /\ Float64.segmentTasks 0 Times.below_least = [].
Proof. split; [|split]; vm_compute; reflexivity. Qed.

(** From a start other than 0 rounding shows: the window from 268.7 to
    568.7 seconds gets 6 chunks, the last one of length 0. *)
Example chunks_from_268_7 :
  map (fun t => (Asr.index t, Qred (Asr.segmentStart t),
                 Qred (Asr.segmentLength t)))
      (Float64.segmentTasks Times.from_268_7 Times.to_568_7)
  = [(0%nat, Qred Times.from_268_7, 60);
     (1%nat, Qred (Doubles.add Times.from_268_7 60), 60);
     (2%nat, Qred (Doubles.add Times.from_268_7 120), 60);
     (3%nat, Qred (Doubles.add Times.from_268_7 180), 60);
     (4%nat, Qred (Doubles.add Times.from_268_7 240), 60);
     (5%nat, Qred Times.to_568_7, 0)].
Proof. vm_compute. reflexivity. Qed.

(* ===================================================================== *)
(** ** Further properties: progress reports *)
(* ===================================================================== *)

Section ChunkProgress.

Import Asr.

Variable recognise : jsstring -> segment_task -> completion jsstring.
Variable completion_order : nat -> nat -> list nat.
Variable audioFilePath : jsstring.

Lemma settle_counts (n : nat) (batch : list segment_task) (order : list nat) :
  Forall (fun k => (k < length batch)%nat) order ->
  forall ps slots,
    fst (fold_left (settle recognise audioFilePath n batch) order (ps, slots))
    = mkState (completedCount ps + length order)
        (reported ps
         ++ map (Reports.chunk_report n)
                (seq (S (completedCount ps)) (length order))).
Proof.
  induction 1 as [|k order Hk _ IH]; intros ps slots; simpl.
  - rewrite Nat.add_0_r, app_nil_r. now destruct ps.
  - destruct (nth_error batch k) as [task|] eqn:Ek.
    + rewrite IH. simpl. rewrite <- app_assoc. simpl.
      f_equal. lia.
    + apply nth_error_None in Ek. lia.
Qed.

Hypothesis every_request_settles_once :
  forall b k, Permutation (completion_order b k) (seq 0 k).

Lemma run_batch_counts (n b : nat) (batch : list segment_task)
  (ps : progress_state) :
  fst (run_batch recognise completion_order audioFilePath n b batch ps)
  = mkState (completedCount ps + length batch)
      (reported ps
       ++ map (Reports.chunk_report n)
              (seq (S (completedCount ps)) (length batch))).
Proof.
  unfold run_batch.
  assert (Hall : Forall (fun k => (k < length batch)%nat)
                        (completion_order b (length batch))).
  { apply Forall_forall. intros k Hin.
    eapply Permutation_in in Hin; [|apply every_request_settles_once].
    apply in_seq in Hin. lia. }
  pose proof (settle_counts n batch _ Hall ps (repeat None (length batch)))
    as H.
  assert (Hlen : length (completion_order b (length batch)) = length batch).
  { rewrite (Permutation_length (every_request_settles_once b (length batch))).
    apply length_seq. }
  rewrite Hlen in H.
  destruct (fold_left _ _ _) as [ps' slots]. simpl in *. exact H.
Qed.

Lemma run_batches_counts (n : nat) (bs : list (list segment_task)) :
  forall b ps allResults,
    fst (run_batches recognise completion_order audioFilePath n b bs ps allResults)
    = mkState (completedCount ps + length (concat bs))
        (reported ps
         ++ map (Reports.chunk_report n)
                (seq (S (completedCount ps)) (length (concat bs)))).
Proof.
  induction bs as [|batch rest IH]; intros b ps allResults; simpl.
  - rewrite Nat.add_0_r, app_nil_r. now destruct ps.
  - pose proof (run_batch_counts n b batch ps) as Hc.
    pose proof (run_batch_in_batch_order recognise completion_order
                  audioFilePath every_request_settles_once n b batch ps) as Hr.
    destruct (run_batch _ _ _ _ _ _ _) as [ps' [batchResults|]];
      simpl in Hc, Hr; [|discriminate].
    rewrite IH. subst ps'. simpl.
    rewrite length_app, seq_app, map_app, <- app_assoc.
    rewrite Nat.add_assoc. reflexivity.
Qed.

End ChunkProgress.

Lemma transcribeAudio_percentages
  (recognise : jsstring -> Asr.segment_task -> completion jsstring)
  (completion_order : nat -> nat -> list nat)
  (audioFilePath : jsstring) (startTime endTime : Q) :
  (forall b k, Permutation (completion_order b k) (seq 0 k)) ->
  let n := Asr.segmentCount startTime endTime in
  map Asr.percent
      (fst (Asr.transcribeAudio true recognise completion_order
              audioFilePath startTime endTime))
  = map (fun k => Asr.js_round (VideoSynth.Qnat k / VideoSynth.Qnat n * 80))
        (seq 1 n)
    ++ [100%Z].
Proof.
  intros Hperm n. unfold Asr.transcribeAudio. simpl negb. cbv iota.
  fold n.
  pose proof (run_batches_counts recognise completion_order audioFilePath
                Hperm n (Asr.batches (Asr.segmentTasks startTime endTime))
                0%nat (Asr.mkState 0 []) []) as Hc.
  pose proof (run_batches_in_order recognise completion_order audioFilePath
                Hperm n (Asr.batches (Asr.segmentTasks startTime endTime))
                0%nat (Asr.mkState 0 []) []) as Hr.
  destruct (Asr.run_batches _ _ _ _ _ _ _ _) as [ps [allResults|]];
    simpl in Hc, Hr; [|discriminate].
  subst ps. cbn [fst]. rewrite map_app. cbn [Asr.reported].
  rewrite (proj1 (batches_concat (Asr.segmentTasks startTime endTime))).
  unfold Asr.segmentTasks. rewrite length_map, length_seq.
  cbn [Nat.add]. rewrite map_map. reflexivity.
Qed.

(** X5: with the media toolkit present and every request of a batch
    settling exactly once, the progress reported by a transcription of
    [n] chunks does not depend on the order in which requests complete:
    it is the report of the [k]-th settlement, round(k/n*80) percent, for
    k = 1..n, followed by the final report of 100 percent. *)
Theorem transcribeAudio_progress
  (recognise : jsstring -> Asr.segment_task -> completion jsstring)
  (completion_order : nat -> nat -> list nat)
  (audioFilePath : jsstring) (startTime endTime : Q) :
  (forall b k, Permutation (completion_order b k) (seq 0 k)) ->
  let n := Asr.segmentCount startTime endTime in
  fst (Asr.transcribeAudio true recognise completion_order
         audioFilePath startTime endTime)
  = map (Reports.chunk_report n) (seq 1 n)
    ++ [Asr.mkProgress 100 Asr.MsgDone].
Proof.
  intros Hperm n. unfold Asr.transcribeAudio. simpl negb. cbv iota.
  fold n.
  pose proof (run_batches_counts recognise completion_order audioFilePath
                Hperm n (Asr.batches (Asr.segmentTasks startTime endTime))
                0%nat (Asr.mkState 0 []) []) as Hc.
  pose proof (run_batches_in_order recognise completion_order audioFilePath
                Hperm n (Asr.batches (Asr.segmentTasks startTime endTime))
                0%nat (Asr.mkState 0 []) []) as Hr.
  destruct (Asr.run_batches _ _ _ _ _ _ _ _) as [ps [allResults|]];
    simpl in Hc, Hr; [|discriminate].
  subst ps. simpl.
  rewrite (proj1 (batches_concat (Asr.segmentTasks startTime endTime))).
  unfold Asr.segmentTasks. rewrite length_map, length_seq. reflexivity.
Qed.

(** The theorem for 150 seconds of audio and batches completing last to
    first. *)
Lemma transcribeAudio_progress_witness :
  fst (Asr.transcribeAudio true Samples.recognise_second_fails
         Samples.reverse_order [] 0 150)
  = map (Reports.chunk_report 3) (seq 1 3) ++ [Asr.mkProgress 100 Asr.MsgDone].
Proof.
  refine (transcribeAudio_progress Samples.recognise_second_fails
            Samples.reverse_order [] 0 150 _).
  intros b k. unfold Samples.reverse_order. symmetry. apply Permutation_rev.
Defined.

Section OverallProgress.

Import VideoSynth Reports.

Lemma baseProgress_bounds (total i : nat) :
  (0 < total)%nat ->
  inject_Z (baseProgress total i) <= Qnat i / Qnat total * 100 + (1 # 2)
  /\ Qnat i / Qnat total * 100 + (1 # 2) < inject_Z (baseProgress total i) + 1
  /\ (0 <= baseProgress total i)%Z
  /\ ((i <= total)%nat -> (baseProgress total i <= 100)%Z).
Proof.
  intro Ht. unfold baseProgress, Asr.js_round.
  set (y := Qnat i / Qnat total * 100).
  pose proof (Qnat_pos total Ht) as Hpos.
  assert (Hy : 0 <= y).
  { unfold y. apply Qmult_le_0_compat; [|discriminate].
    apply Qle_shift_div_l; [exact Hpos|]. pose proof (Qnat_nonneg i). lra. }
  split; [apply Qfloor_le|]. split.
  { pose proof (Qlt_floor (y + (1 # 2))) as H.
    rewrite inject_Z_plus in H. exact H. }
  split.
  { change 0%Z with (Qfloor 0). apply Qfloor_resp_le. lra. }
  intro Hle. change 100%Z with (Qfloor (100 + (1 # 2))).
  apply Qfloor_resp_le.
  assert (Hi : Qnat i / Qnat total <= 1).
  { apply Qle_shift_div_r; [exact Hpos|].
    pose proof (Qnat_le i total Hle). lra. }
  unfold y. lra.
Qed.

End OverallProgress.

(** X6: while marker [i] of [total] is processed, an inner progress
    between 0 and 100 is reported as an overall progress that is at least
    the base progress of the marker, at most 1 above the base progress of
    the next marker, and between 0 and 101. *)
Theorem overall_progress_bounds (MarkerResult Msg Data : Type)
  (i total : nat) (prog : Z) (msg : Msg) :
  (i < total)%nat -> (0 <= prog <= 100)%Z ->
  exists p,
    Processor.wrap_event MarkerResult Msg Data i total
      (Reports.baseProgress total i) (Processor.InnerProgress prog msg)
    = Processor.OnProgress MarkerResult Msg Data p (Processor.MsgInner Msg msg)
    /\ (Reports.baseProgress total i <= p)%Z
    /\ (p <= Reports.baseProgress total (S i) + 1)%Z
    /\ (0 <= p <= 101)%Z.
Proof.
  intros Hi Hprog. eexists. split; [reflexivity|].
  assert (Ht : (0 < total)%nat) by lia.
  pose proof (Qnat_pos total Ht) as Hpos.
  destruct (baseProgress_bounds total i Ht) as [Hb1 [_ [Hb0 _]]].
  destruct (baseProgress_bounds total (S i) Ht) as [_ [Hn2 [_ Hn100]]].
  specialize (Hn100 Hi).
  set (B := Reports.baseProgress total i) in *.
  set (B' := Reports.baseProgress total (S i)) in *.
  set (x := inject_Z B + inject_Z prog / VideoSynth.Qnat total).
  assert (Hq0 : 0 <= inject_Z prog / VideoSynth.Qnat total).
  { apply Qle_shift_div_l; [exact Hpos|].
    assert (H0 : inject_Z 0 <= inject_Z prog) by (rewrite <- Zle_Qle; lia).
    change (inject_Z 0) with 0 in H0. lra. }
  assert (Hq1 : inject_Z prog / VideoSynth.Qnat total
                <= 100 / VideoSynth.Qnat total).
  { apply Qmult_le_compat_r.
    - assert (H1 : inject_Z prog <= inject_Z 100) by (rewrite <- Zle_Qle; lia).
      exact H1.
    - apply Qinv_le_0_compat. lra. }
  assert (Hstep : VideoSynth.Qnat (S i) / VideoSynth.Qnat total * 100
                  == VideoSynth.Qnat i / VideoSynth.Qnat total * 100
                     + 100 / VideoSynth.Qnat total).
  { rewrite Qnat_S. field. lra. }
  assert (Hlow : (B <= Asr.js_round x)%Z).
  { unfold Asr.js_round. rewrite <- (Qfloor_Z B) at 1.
    apply Qfloor_resp_le. unfold x. lra. }
  assert (Hup : (Asr.js_round x <= B' + 1)%Z).
  { unfold Asr.js_round.
    pose proof (Qfloor_le (x + (1 # 2))) as Hf.
    assert (Hlt : inject_Z (Qfloor (x + (1 # 2))) < inject_Z (B' + 2)).
    { rewrite inject_Z_plus. change (inject_Z 2) with 2. unfold x in *. lra. }
    rewrite <- Zlt_Qlt in Hlt. lia. }
  split; [exact Hlow|]. split; [exact Hup|]. lia.
Qed.

(** The theorem at the last of 8 markers when its processing reports 100
    percent. *)
Lemma overall_progress_bounds_witness :
  exists p,
    Processor.wrap_event nat unit unit 7 8 (Reports.baseProgress 8 7)
      (Processor.InnerProgress 100 tt)
    = Processor.OnProgress nat unit unit p (Processor.MsgInner unit tt)
    /\ (p <= 101)%Z.
Proof.
  destruct (overall_progress_bounds nat unit unit 7 8 100 tt) as [p [H [_ [_ Hp]]]];
    [lia | lia |].
  exists p. split; [exact H | lia].
Defined.

(** With 8 markers the bound 101 is reached: the last marker starts at
    round(87.5) = 88 percent and its final report is round(100.5). *)
Example overall_progress_reaches_101 :
  Processor.wrap_event nat unit unit 7 8 (Reports.baseProgress 8 7)
    (Processor.InnerProgress 100 tt)
  = Processor.OnProgress nat unit unit 101 (Processor.MsgInner unit tt).
Proof. vm_compute. reflexivity. Qed.

(* ===================================================================== *)
(** ** Further properties: the status updates of the batch *)
(* ===================================================================== *)

Section Updates.

Import Processor Protocol.

Variables (W MarkerResult Msg Data : Type).
Variable processTimeMarker :
  jsstring -> Q -> W -> list (inner_event Msg Data) * completion MarkerResult * W.

Lemma last_app_nonempty {A} (a b : list A) (d : A) :
  b <> [] -> last (a ++ b) d = last b d.
Proof.
  intro Hb. induction a as [|x a IH]; simpl; [reflexivity|].
  rewrite IH. destruct (a ++ b) eqn:E; [|reflexivity].
  apply app_eq_nil in E as [_ E]. contradiction.
Qed.

Lemma wrapped_calls_silent (i total : nat) (base : Z)
  (calls : list (inner_event Msg Data)) :
  started (map (wrap_event MarkerResult Msg Data i total base) calls) = []
  /\ finished (map (wrap_event MarkerResult Msg Data i total base) calls) = []
  /\ forallb well_tagged
       (map (wrap_event MarkerResult Msg Data i total base) calls) = true.
Proof.
  induction calls as [|c calls [IH1 [IH2 IH3]]]; [repeat split|].
  destruct c; simpl; unfold started, finished in *; simpl;
    rewrite ?IH1, ?IH2, ?IH3; repeat split.
Qed.

Lemma markers_loop_updates (audioFilePath : jsstring) (total : nat)
  (rest : list Q) :
  forall (i : nat) (results : list (entry MarkerResult)) (w : W)
         (tr : list (event MarkerResult Msg Data)),
  exists w' tr',
    markers_loop processTimeMarker audioFilePath total i rest results (w, tr)
    = (Normal (results ++ batch_spec processTimeMarker audioFilePath rest w),
       (w', tr ++ tr'))
    /\ started tr' = combine (seq i (length rest)) rest
    /\ finished tr'
       = combine (seq i (length rest))
           (batch_spec processTimeMarker audioFilePath rest w)
    /\ forallb well_tagged tr' = true
    /\ last tr' (OnProgress MarkerResult Msg Data 0 (MsgAllDone Msg))
       = OnProgress MarkerResult Msg Data 100 (MsgAllDone Msg).
Proof.
  induction rest as [|markerTime rest' IH]; intros i results w tr.
  - exists w. eexists. simpl. unfold mbind, emit, ret. simpl.
    rewrite app_nil_r. split; [reflexivity|]. repeat split.
  - simpl. unfold mbind at 1 2 3. unfold emit at 1 2. simpl.
    unfold try_catch_M, mbind at 1 2. unfold await_processTimeMarker.
    destruct (processTimeMarker audioFilePath markerTime w)
      as [[calls outcome] w1] eqn:Ecall.
    destruct (wrapped_calls_silent i total
                (Asr.js_round (VideoSynth.Qnat i / VideoSynth.Qnat total * 100))
                calls) as [Hs [Hf Hw]].
    destruct outcome as [result | e]; unfold mbind, emit, ret; simpl;
      match goal with
      | |- context [markers_loop _ _ _ ?j _ ?r (?w0, ?t0)] =>
          destruct (IH j r w0 t0) as [w' [tr' [Heq [H1 [H2 [H3 H4]]]]]]
      end;
      exists w'; eexists;
      (split; [rewrite Heq, <- !app_assoc; reflexivity|]);
      unfold started, finished in *;
      (split; [|split; [|split]]);
      try (rewrite !flat_map_app, Hs, H1; reflexivity);
      try (rewrite !flat_map_app, Hf, H2; reflexivity);
      try (rewrite !forallb_app, Hw, H3; reflexivity);
      rewrite !app_assoc; rewrite last_app_nonempty; try exact H4;
      intro E; rewrite E in H4; discriminate H4.
Qed.

End Updates.

(** X7: started from an empty trace, the batch announces every marker
    with a [start] update, in order and with its index and marker time,
    and announces every entry of the returned array, in order and at its
    index, with exactly one [completed] update (for a result) or [failed]
    update (for a failure placeholder); its last callback call is the
    progress report of 100 percent. *)
Theorem batch_updates_match_results
  (W MarkerResult Msg Data : Type)
  (processTimeMarker :
     jsstring -> Q -> W ->
     list (Processor.inner_event Msg Data) * completion MarkerResult * W)
  (audioFilePath : jsstring) (markerTimes : list Q) (w : W) :
  exists w' tr,
    Processor.processMultipleMarkers processTimeMarker audioFilePath markerTimes
      (w, [])
    = (Normal (Processor.batch_spec processTimeMarker audioFilePath markerTimes w),
       (w', tr))
    /\ Protocol.started tr = combine (seq 0 (length markerTimes)) markerTimes
    /\ Protocol.finished tr
       = combine (seq 0 (length markerTimes))
           (Processor.batch_spec processTimeMarker audioFilePath markerTimes w)
    /\ forallb Protocol.well_tagged tr = true
    /\ last tr (Processor.OnProgress MarkerResult Msg Data 0
                  (Processor.MsgAllDone Msg))
       = Processor.OnProgress MarkerResult Msg Data 100
           (Processor.MsgAllDone Msg).
Proof.
  destruct (markers_loop_updates W MarkerResult Msg Data processTimeMarker
              audioFilePath (length markerTimes) markerTimes 0 [] w [])
    as [w' [tr' H]].
  exists w', tr'. exact H.
Qed.

(* ===================================================================== *)
(** ** Further properties: synthesis of a long text *)
(* ===================================================================== *)

Section LongSynthesis.

Import LongSpeech.

Variable Buffer : Type.
Variable callTTSAPI : nat -> jsstring -> completion (tts_response Buffer).

Lemma total_duration_app (a b : list (nat * tts_response Buffer)) :
  total_duration (a ++ b) == total_duration a + total_duration b.
Proof.
  induction a as [|[k r] a IH]; simpl; [ring|]. rewrite IH. ring.
Qed.

(** The total after the responses [l], from the total [init] on. *)
Lemma synth_loop_spec (segments : list jsstring) :
  forall i tempFiles totalDuration,
    synth_loop callTTSAPI i segments tempFiles totalDuration
    = (tempFiles
       ++ map (fun '(k, r) => mkTemp k (tr_buffer r))
              (successes callTTSAPI i segments),
       fold_left (fun acc '(_, r) => js_plus acc (duration_or_0 r))
                 (successes callTTSAPI i segments) totalDuration).
Proof.
  unfold successes.
  induction segments as [|segment rest IH]; intros i tempFiles totalDuration;
    simpl.
  - now rewrite app_nil_r.
  - destruct (callTTSAPI i segment) as [result|e]; simpl.
    + rewrite IH, <- app_assoc. reflexivity.
    + apply IH.
Qed.

Lemma add_numbers (l : list (nat * tts_response Buffer)) :
  forall x,
    forallb (fun kr => numeric (snd kr)) l = true ->
    exists d,
      fold_left (fun acc '(_, r) => js_plus acc (duration_or_0 r)) l (TNum x)
      = TNum d
      /\ d == x + total_duration l.
Proof.
  induction l as [|[k r] l IH]; intros x Hall; simpl.
  - exists x. split; [reflexivity | ring].
  - simpl in Hall. apply andb_true_iff in Hall as [Hr Hl].
    unfold numeric in Hr. unfold number_of.
    destruct (duration_or_0 r) as [d0|s]; [|discriminate].
    destruct (IH (x + d0) Hl) as [d [E Hd]].
    exists d. split; [exact E|]. rewrite Hd. ring.
Qed.

Lemma append_texts (l : list (nat * tts_response Buffer)) :
  forall parts,
    fold_left (fun acc '(_, r) => js_plus acc (duration_or_0 r)) l (TStr parts)
    = TStr (parts ++ map (fun kr => appended (snd kr)) l).
Proof.
  induction l as [|[k r] l IH]; intro parts; simpl.
  - now rewrite app_nil_r.
  - unfold appended. destruct (duration_or_0 r) as [d0|s]; simpl;
      rewrite IH, <- app_assoc; reflexivity.
Qed.

(** The total once a response carries a string. *)
Lemma add_until_string (before after : list (nat * tts_response Buffer))
  (k : nat) (r : tts_response Buffer) :
  forallb (fun kr => numeric (snd kr)) before = true ->
  numeric r = false ->
  exists d,
    d == total_duration before
    /\ fold_left (fun acc '(_, r) => js_plus acc (duration_or_0 r))
                 (before ++ (k, r) :: after) (TNum 0)
       = TStr (Printed d :: appended r
                 :: map (fun kr => appended (snd kr)) after).
Proof.
  intros Hbefore Hr.
  destruct (add_numbers before 0 Hbefore) as [d [E Hd]].
  exists d. split; [rewrite Hd; ring|].
  rewrite fold_left_app, E. cbn [fold_left].
  unfold numeric in Hr. unfold appended at 1.
  destruct (duration_or_0 r) as [d0|s]; [discriminate|].
  cbn [js_plus]. rewrite append_texts. reflexivity.
Qed.

End LongSynthesis.

Lemma splitTextByPunctuation_total (text : jsstring) (maxLength : nat) :
  (0 < maxLength)%nat ->
  exists segments,
    Tts.splitTextByPunctuation text maxLength = Some segments
    /\ Forall (fun s => s <> []) segments.
Proof.
  intro Hpos. unfold Tts.splitTextByPunctuation.
  destruct (split_long_ok maxLength
              (Tts.accumulate maxLength
                 (filter truthy
                    (split_runs VideoSynth.is_sentence_end false [] text)) []))
    as [result [Hr _]]; [exact Hpos|].
  rewrite Hr. eexists. split; [reflexivity|].
  apply Forall_forall. intros s Hin. apply filter_In in Hin as [_ Hlen].
  intro E. subst s. discriminate Hlen.
Qed.

(** X8: the long-text synthesis terminates for every text; it sends one
    request per segment, keeps the segments whose request succeeded, in
    order, and throws when none succeeded; otherwise it hands exactly
    those audio pieces to the concatenation, whose failure it rethrows.
    The duration it reports is built from the durations of the kept
    responses as the service sent them, without conversion: while they
    are numbers (a missing duration and an empty string counting as 0)
    it is their sum; from the first response whose duration is a
    non-empty string on it is a string, namely the sum so far as it
    prints, followed by that string and by the durations of the later
    responses, each as it prints. *)
Theorem synthesizeLongText_keeps_successes
  (Buffer : Type)
  (callTTSAPI : nat -> jsstring -> completion (LongSpeech.tts_response Buffer))
  (ffmpeg_concat : list (LongSpeech.temp_file Buffer) -> completion nat)
  (text : jsstring) :
  exists segments outcome,
    Tts.splitTextByPunctuation text 300 = Some segments
    /\ LongSpeech.synthesizeLongText callTTSAPI ffmpeg_concat text = Some outcome
    /\ let kept := LongSpeech.successes callTTSAPI 0 segments in
       let files := map (fun '(k, r) =>
                           LongSpeech.mkTemp k (LongSpeech.tr_buffer r)) kept in
       (kept = [] -> outcome = Throw (mkError LongSpeech.ALL_FAILED))
       /\ (kept <> [] ->
           match ffmpeg_concat files with
           | Throw e => outcome = Throw e
           | Normal size =>
               exists total,
                 outcome = Normal (LongSpeech.mkSpeech (Some total) size)
                 /\ (forallb (fun kr => LongSpeech.numeric (snd kr)) kept = true ->
                     exists d, total = LongSpeech.TNum d
                               /\ d == LongSpeech.total_duration kept)
                 /\ (forall before k r after,
                       kept = before ++ (k, r) :: after ->
                       forallb (fun kr => LongSpeech.numeric (snd kr)) before
                       = true ->
                       LongSpeech.numeric r = false ->
                       exists d,
                         d == LongSpeech.total_duration before
                         /\ total
                            = LongSpeech.TStr
                                (LongSpeech.Printed d
                                   :: LongSpeech.appended r
                                   :: map (fun kr => LongSpeech.appended (snd kr))
                                          after))
           end).
Proof.
  destruct (splitTextByPunctuation_total text 300) as [segments [Hs _]];
    [lia|].
  unfold LongSpeech.synthesizeLongText. rewrite Hs.
  rewrite (synth_loop_spec Buffer callTTSAPI segments 0 [] (LongSpeech.TNum 0)).
  exists segments. eexists. split; [reflexivity|]. split; [reflexivity|].
  cbv zeta. cbn [app]. split.
  - intro E. rewrite E. reflexivity.
  - intro Hne.
    destruct (LongSpeech.successes callTTSAPI 0 segments) as [|[k r] l] eqn:Ek;
      [contradiction|].
    cbn [map length Nat.eqb].
    destruct (ffmpeg_concat _) as [size|e]; cbn [bind]; [|reflexivity].
    eexists. split; [reflexivity|]. split.
    + intro Hall.
      destruct (add_numbers Buffer ((k, r) :: l) 0 Hall) as [d [E Hd]].
      exists d. split; [exact E|]. rewrite Hd. ring.
    + intros before k' r' after Hk Hbefore Hr. rewrite Hk.
      exact (add_until_string Buffer before after k' r' Hbefore Hr).
Qed.

(** Two segments whose durations the service sends as the strings '1960'
    and '2000': the reported duration is the string made of the number 0
    as it prints, '1960' and '2000'. *)
Lemma synthesizeLongText_keeps_successes_witness :
  exists d,
    d == 0
    /\ LongSpeech.synthesizeLongText
         (fun k _ =>
            Normal (LongSpeech.mkResponse k
                      (Some (LongSpeech.DStr
                               (nth k [[0x31; 0x39; 0x36; 0x30]%N;
                                       [0x32; 0x30; 0x30; 0x30]%N]
                                    [0x35; 0x30; 0x30]%N)))))
         (fun files => Normal (length files)) Samples.long_unbroken
       = Some (Normal
                 (LongSpeech.mkSpeech
                    (Some (LongSpeech.TStr
                             [LongSpeech.Printed d;
                              LongSpeech.Literal [0x31; 0x39; 0x36; 0x30]%N;
                              LongSpeech.Literal [0x32; 0x30; 0x30; 0x30]%N]))
                    2)).
Proof.
  destruct (synthesizeLongText_keeps_successes nat
              (fun k _ =>
                 Normal (LongSpeech.mkResponse k
                           (Some (LongSpeech.DStr
                                    (nth k [[0x31; 0x39; 0x36; 0x30]%N;
                                            [0x32; 0x30; 0x30; 0x30]%N]
                                         [0x35; 0x30; 0x30]%N)))))
              (fun files => Normal (length files)) Samples.long_unbroken)
    as [segments [outcome [Hs [Ho [_ H]]]]].
  vm_compute in Hs. injection Hs as <-.
  cbv zeta in H.
  destruct (H ltac:(discriminate)) as [total [E [_ Hstr]]].
  destruct (Hstr [] 0%nat
              (LongSpeech.mkResponse 0%nat
                 (Some (LongSpeech.DStr [0x31; 0x39; 0x36; 0x30]%N)))
              [(1%nat, LongSpeech.mkResponse 1%nat
                         (Some (LongSpeech.DStr [0x32; 0x30; 0x30; 0x30]%N)))]
              eq_refl eq_refl eq_refl) as [d [Hd Et]].
  exists d. split; [exact Hd|].
  rewrite Ho, E, Et. reflexivity.
Defined.

(** Durations sent as strings are concatenated, not added: with '1960'
    and '2000' the reported duration reads '019602000'. *)
Example string_durations_concatenate :
  LongSpeech.synthesizeLongText
    (fun k _ =>
       Normal (LongSpeech.mkResponse k
                 (Some (LongSpeech.DStr
                          (nth k [[0x31; 0x39; 0x36; 0x30]%N;
                                  [0x32; 0x30; 0x30; 0x30]%N]
                               [0x35; 0x30; 0x30]%N)))))
    (fun files => Normal (length files)) Samples.long_unbroken
  = Some (Normal
            (LongSpeech.mkSpeech
               (Some (LongSpeech.TStr
                        [LongSpeech.Printed 0;
                         LongSpeech.Literal [0x31; 0x39; 0x36; 0x30]%N;
                         LongSpeech.Literal [0x32; 0x30; 0x30; 0x30]%N]))
               2)).
Proof. vm_compute. reflexivity. Qed.

(** Durations sent as numbers are added. *)
Example number_durations_add :
  LongSpeech.synthesizeLongText
    (fun k _ => Normal (LongSpeech.mkResponse k (Some (LongSpeech.DNum 1960))))
    (fun files => Normal (length files)) Samples.long_unbroken
  = Some (Normal (LongSpeech.mkSpeech (Some (LongSpeech.TNum 3920)) 2)).
Proof. vm_compute. reflexivity. Qed.

Lemma dropWhile_all (f : N -> bool) (s : jsstring) :
  forallb f s = true -> dropWhile f s = [].
Proof.
  induction s as [|c t IH]; simpl; [reflexivity|].
  intro H. apply andb_true_iff in H as [Hc Ht]. rewrite Hc. auto.
Qed.

Lemma trim_blank (s : jsstring) : forallb is_ws s = true -> trim s = [].
Proof.
  intro H. unfold trim, trimEnd, trimStart. rewrite (dropWhile_all _ _ H).
  reflexivity.
Qed.

Lemma forallb_rev (f : N -> bool) (s : jsstring) :
  forallb f s = true -> forallb f (rev s) = true.
Proof.
  rewrite !forallb_forall. intros H x Hx. apply H. now apply in_rev.
Qed.

Lemma split_runs_blank (sep : N -> bool) (s : jsstring) :
  forall inrun acc,
    forallb is_ws acc = true -> forallb is_ws s = true ->
    Forall (fun p => forallb is_ws p = true) (split_runs sep inrun acc s).
Proof.
  induction s as [|c t IH]; intros inrun acc Ha Hs; simpl.
  - destruct inrun; repeat constructor; now apply forallb_rev.
  - simpl in Hs. apply andb_true_iff in Hs as [Hc Ht].
    assert (Hca : forallb is_ws (c :: acc) = true) by (simpl; now rewrite Hc).
    assert (Hc1 : forallb is_ws [c] = true) by (simpl; now rewrite Hc).
    destruct (sep c), inrun; auto;
      (constructor; [now apply forallb_rev | auto]).
Qed.

Lemma accumulate_blank (maxLength : nat) (sentences : list jsstring) :
  Forall (fun p => forallb is_ws p = true) sentences ->
  forall currentSegment,
    forallb is_ws currentSegment = true ->
    Forall (fun s => s = []) (Tts.accumulate maxLength sentences currentSegment).
Proof.
  induction 1 as [|sentence rest Hs Hrest IH]; intros cur Hcur; simpl.
  - destruct (truthy cur); repeat constructor. now apply trim_blank.
  - destruct (_ <=? _)%nat.
    + apply IH. rewrite forallb_app, Hcur, Hs. reflexivity.
    + apply Forall_app. split; [|now apply IH].
      destruct (truthy cur); repeat constructor. now apply trim_blank.
Qed.

Lemma split_long_empty (maxLength : nat) (segments : list jsstring) :
  Forall (fun s => s = []) segments ->
  Tts.split_long maxLength segments = Some segments.
Proof.
  induction 1 as [|segment rest Hs Hrest IH]; simpl; [reflexivity|].
  subst segment. rewrite IH. reflexivity.
Qed.

Lemma filter_nonempty_of_empty (l : list jsstring) :
  Forall (fun s => s = []) l ->
  filter (fun s : jsstring => (0 <? length s)%nat) l = [].
Proof.
  induction 1 as [|s l Hs Hl IH]; simpl; [reflexivity|].
  subst s. exact IH.
Qed.

Lemma splitTextByPunctuation_blank (text : jsstring) (maxLength : nat) :
  forallb is_ws text = true ->
  Tts.splitTextByPunctuation text maxLength = Some [].
Proof.
  intro Hws. unfold Tts.splitTextByPunctuation.
  assert (Hacc : Forall (fun s : jsstring => s = [])
                   (Tts.accumulate maxLength
                      (filter truthy
                         (split_runs VideoSynth.is_sentence_end false [] text))
                      [])).
  { apply accumulate_blank; [|reflexivity].
    apply Forall_filter_keep. now apply split_runs_blank. }
  rewrite (split_long_empty _ _ Hacc). f_equal.
  now apply filter_nonempty_of_empty.
Qed.

(** X9: a text that consists of white space only and is longer than 1024
    bytes makes the speech synthesis throw the all-segments-failed error
    without a single request: the outcome is the same whatever the
    synthesis service and the concatenation would answer. *)
Theorem textToSpeechFile_blank_long_text
  (Buffer : Type)
  (callTTSAPI : nat -> jsstring -> completion (LongSpeech.tts_response Buffer))
  (ffmpeg_concat : list (LongSpeech.temp_file Buffer) -> completion nat)
  (buffer_length : Buffer -> nat)
  (text : jsstring) :
  forallb is_ws text = true ->
  (1024 < utf8_length text)%nat ->
  Tts.tts_requests text = Some []
  /\ LongSpeech.textToSpeechFile callTTSAPI ffmpeg_concat buffer_length text
     = Some (Throw (mkError LongSpeech.ALL_FAILED)).
Proof.
  intros Hws Hlong.
  unfold Tts.tts_requests, LongSpeech.textToSpeechFile,
    LongSpeech.synthesizeLongText.
  apply Nat.ltb_lt in Hlong. rewrite Hlong.
  rewrite (splitTextByPunctuation_blank text 300 Hws). split; reflexivity.
Qed.

Lemma textToSpeechFile_blank_long_text_witness :
  Tts.tts_requests (repeat 0x20%N 1025) = Some []
  /\ LongSpeech.textToSpeechFile
       (fun _ _ => Normal (LongSpeech.mkResponse tt (Some (LongSpeech.DNum 1))))
       (fun _ => Normal 0%nat) (fun _ => 0%nat) (repeat 0x20%N 1025)
     = Some (Throw (mkError LongSpeech.ALL_FAILED)).
Proof.
  apply textToSpeechFile_blank_long_text.
  - vm_compute. reflexivity.
  - apply Nat.ltb_lt. vm_compute. reflexivity.
Defined.

(* ===================================================================== *)
(** ** Further properties: analysis of the transcript *)
(* ===================================================================== *)

Lemma summary_of_truthy (transcript : jsstring) :
  Llm.js_truthy (Llm.JStr (Analysis.summary_of transcript)) = true.
Proof.
  unfold Analysis.summary_of. simpl.
  destruct (substring transcript 0 50); reflexivity.
Qed.

(** X10: the analysis of a transcript never throws, whatever the model
    call and the parser do; each of its four fields is truthy (a missing
    or falsy field of the answer is replaced by its default); and when
    the call throws, the answer holds no brace-delimited span or the
    parser throws, the result is the default analysis, whose summary is
    the first 50 code units of the transcript followed by an ellipsis. *)
Theorem analyzeKnowledgePoint_total_with_defaults
  (JSON_parse : jsstring -> completion Llm.json)
  (callLLM : jsstring -> completion jsstring)
  (transcript : jsstring) :
  exists a,
    Analysis.analyzeKnowledgePoint JSON_parse callLLM transcript = Normal a
    /\ Llm.js_truthy (Analysis.knowledgePoint a) = true
    /\ Llm.js_truthy (Analysis.summary a) = true
    /\ Llm.js_truthy (Analysis.subject a) = true
    /\ Llm.js_truthy (Analysis.keyPoints a) = true
    /\ ((forall response, callLLM transcript = Normal response ->
         forall m, Analysis.match_braces response = Some m ->
         exists e, JSON_parse m = Throw e) ->
        a = Analysis.default_analysis transcript).
Proof.
  unfold Analysis.analyzeKnowledgePoint.
  assert (Hdef : exists a,
             Normal (Analysis.default_analysis transcript) = Normal a
             /\ Llm.js_truthy (Analysis.knowledgePoint a) = true
             /\ Llm.js_truthy (Analysis.summary a) = true
             /\ Llm.js_truthy (Analysis.subject a) = true
             /\ Llm.js_truthy (Analysis.keyPoints a) = true
             /\ a = Analysis.default_analysis transcript).
  { eexists. split; [reflexivity|]. repeat split.
    apply summary_of_truthy. }
  destruct Hdef as [d [Hd [H1 [H2 [H3 [H4 H5]]]]]].
  destruct (callLLM transcript) as [response|e] eqn:Ecall; simpl;
    [|exists d; tauto].
  destruct (Analysis.match_braces response) as [m|] eqn:Em; simpl;
    [|exists d; tauto].
  destruct (JSON_parse m) as [result|e] eqn:Ep; simpl; [|exists d; tauto].
  destruct (Llm.get result Analysis.K_KNOWLEDGEPOINT) as [kp|e] eqn:Ekp;
    simpl; [|exists d; tauto].
  destruct (Llm.get result Analysis.K_SUMMARY) as [s|e] eqn:Es;
    simpl; [|exists d; tauto].
  destruct (Llm.get result Analysis.K_SUBJECT) as [subj|e] eqn:Esubj;
    simpl; [|exists d; tauto].
  destruct (Llm.get result Analysis.K_KEYPOINTS) as [pts|e] eqn:Epts;
    simpl; [|exists d; tauto].
  eexists. split; [reflexivity|]. simpl.
  repeat split; try (apply or_else_truthy; try reflexivity;
                     apply summary_of_truthy).
  intro Hfail. destruct (Hfail response eq_refl m Em) as [e He].
  congruence.
Qed.

Lemma analyzeKnowledgePoint_total_with_defaults_witness :
  Analysis.analyzeKnowledgePoint
    (fun _ => Throw (mkError [])) (fun _ => Normal [Llm.LBRACE; Llm.RBRACE])
    Analysis.MATH
  = Normal (Analysis.default_analysis Analysis.MATH).
Proof.
  destruct (analyzeKnowledgePoint_total_with_defaults
              (fun _ => Throw (mkError []))
              (fun _ => Normal [Llm.LBRACE; Llm.RBRACE]) Analysis.MATH)
    as [a [Ha [_ [_ [_ [_ Hd]]]]]].
  rewrite Ha. f_equal. apply Hd.
  intros response _ m _. eexists. reflexivity.
Defined.

(* ===================================================================== *)
(** ** Further properties: the slides of the generated script *)
(* ===================================================================== *)

Lemma template_names_style (lower : jsstring -> jsstring)
  (knowledgePoint head : jsstring) (tail : list jsstring) :
  includes head Llm.ZOOTOPIA_CN = true ->
  Llm.names_style lower (Llm.template knowledgePoint (head :: tail)) = true.
Proof.
  intro H. unfold Llm.names_style, Llm.template.
  destruct tail as [|x t].
  - simpl. now rewrite H.
  - change (join knowledgePoint (head :: x :: t))
      with (head ++ knowledgePoint ++ join knowledgePoint (x :: t)).
    now rewrite (includes_app_l _ _ _ H).
Qed.

Lemma generateDefaultScript_names_style (lower : jsstring -> jsstring)
  (knowledgePoint summary : jsstring) :
  Forall (fun s => Analysis.prompt_names_style lower (Llm.ss_imagePrompt s))
         (Llm.slides (Llm.generateDefaultScript knowledgePoint summary)).
Proof.
  unfold Llm.generateDefaultScript. simpl.
  repeat constructor; simpl; apply template_names_style; vm_compute;
    reflexivity.
Qed.

Lemma normalizeImagePrompt_value_names_style (lower : jsstring -> jsstring)
  (prompt v : Llm.json) :
  Llm.normalizeImagePrompt_value lower prompt = Normal v ->
  Analysis.prompt_names_style lower v.
Proof.
  unfold Llm.normalizeImagePrompt_value.
  destruct (Llm.js_truthy prompt) eqn:Et; simpl.
  - destruct prompt as [| b | q | s | items | fields]; try discriminate.
    + intro H. injection H as <-. simpl.
      apply (proj2 (normalizeImagePrompt_styled lower s)).
    + destruct (Llm.array_includes items Llm.ZOOTOPIA_CN) eqn:E;
        [|discriminate].
      intro H. injection H as <-. exact E.
  - intro H. injection H as <-. simpl. unfold Llm.names_style.
    replace (includes Llm.DEFAULT_PROMPT Llm.ZOOTOPIA_CN) with true
      by (vm_compute; reflexivity).
    reflexivity.
Qed.

Lemma normalize_slide_names_style (lower : jsstring -> jsstring)
  (slide : Llm.json) (index : nat) (s : Llm.script_slide) :
  Llm.normalize_slide lower slide index = Normal s ->
  Analysis.prompt_names_style lower (Llm.ss_imagePrompt s).
Proof.
  unfold Llm.normalize_slide.
  destruct (Llm.get slide Llm.K_TITLE) as [t|]; [|discriminate].
  destruct (Llm.get slide Llm.K_SCRIPT) as [sc|]; [|discriminate].
  destruct (Llm.get slide Llm.K_IMAGEPROMPT) as [p1|]; [|discriminate].
  destruct (Llm.get slide Llm.K_IMAGE_PROMPT) as [p2|]; [|discriminate].
  cbn [bind].
  destruct (Llm.normalizeImagePrompt_value lower _) as [p|] eqn:Ep;
    [|discriminate].
  cbn [bind].
  destruct (Llm.get slide Llm.K_SUBTITLE) as [c|]; [|discriminate].
  destruct (Llm.get slide Llm.K_SUBTITLES) as [subs|]; [|discriminate].
  cbn [bind]. intro H. injection H as <-. simpl.
  eapply normalizeImagePrompt_value_names_style. exact Ep.
Qed.

Lemma map_slides_names_style (lower : jsstring -> jsstring)
  (items : list Llm.json) :
  forall index l,
    Llm.map_slides lower items index = Normal l ->
    length l = length items
    /\ Forall (fun s => Analysis.prompt_names_style lower (Llm.ss_imagePrompt s))
              l.
Proof.
  induction items as [|slide rest IH]; intros index l; simpl.
  - intro H. injection H as <-. split; [reflexivity | constructor].
  - destruct (Llm.normalize_slide lower slide index) as [s|] eqn:Es;
      [|discriminate].
    cbn [bind].
    destruct (Llm.map_slides lower rest (S index)) as [tail|] eqn:Et;
      [|discriminate].
    cbn [bind]. intro H. injection H as <-.
    destruct (IH (S index) tail Et) as [Hlen Hall]. split.
    + simpl. now rewrite Hlen.
    + constructor; [eapply normalize_slide_names_style; exact Es | exact Hall].
Qed.

Lemma validate_outcome (lower : jsstring -> jsstring)
  (result : Llm.json) (script : Llm.ppt_script) :
  Llm.validate lower result = Normal script ->
  exists items,
    Llm.get result Llm.K_SLIDES = Normal (Some (Llm.JArr items))
    /\ Llm.map_slides lower items 0 = Normal (Llm.slides script).
Proof.
  unfold Llm.validate. destruct (Llm.js_truthy result); [|discriminate].
  destruct (Llm.get result Llm.K_SLIDES) as [[[| | | |items|]|]|];
    try discriminate.
  cbn [bind]. destruct (Llm.map_slides lower items 0) as [l|] eqn:El;
    [|discriminate].
  cbn [bind]. intro H. injection H as <-. exists items. split; [reflexivity|].
  exact El.
Qed.

(** X11: whatever the model answers and however the answer parses, every
    slide of the script that is returned carries an image prompt that
    names the required visual style: a string that mentions it in
    Chinese or (in any letter case) in English, or an array that holds
    the Chinese style name. *)
Theorem generatePPTScript_prompts_name_style
  (toLowerCase : jsstring -> jsstring)
  (JSON_parse : jsstring -> completion Llm.json)
  (callLLM : jsstring -> jsstring -> list jsstring -> completion jsstring)
  (knowledgePoint summary : jsstring) (keyPoints : list jsstring) :
  exists script,
    Llm.generatePPTScript toLowerCase JSON_parse callLLM
      knowledgePoint summary keyPoints = Normal script
    /\ Forall (fun s => Analysis.prompt_names_style toLowerCase
                          (Llm.ss_imagePrompt s))
              (Llm.slides script).
Proof.
  unfold Llm.generatePPTScript, try_catch.
  destruct (bind _ _) as [script | e] eqn:E; eexists; (split; [reflexivity|]).
  - destruct (callLLM knowledgePoint summary keyPoints) as [response|];
      [|discriminate].
    cbn [bind] in E.
    destruct (validate_outcome _ _ _ E) as [items [_ Hmap]].
    exact (proj2 (map_slides_names_style _ _ _ _ Hmap)).
  - apply generateDefaultScript_names_style.
Qed.

Lemma normalize_slide_throw_any_index (lower : jsstring -> jsstring)
  (slide : Llm.json) (i j : nat) (e : error) :
  Llm.normalize_slide lower slide i = Throw e ->
  Llm.normalize_slide lower slide j = Throw e.
Proof.
  unfold Llm.normalize_slide.
  destruct (Llm.get slide Llm.K_TITLE) as [t|]; [|exact (fun H => H)].
  destruct (Llm.get slide Llm.K_SCRIPT) as [sc|]; [|exact (fun H => H)].
  destruct (Llm.get slide Llm.K_IMAGEPROMPT) as [p1|]; [|exact (fun H => H)].
  destruct (Llm.get slide Llm.K_IMAGE_PROMPT) as [p2|]; [|exact (fun H => H)].
  cbn [bind].
  destruct (Llm.normalizeImagePrompt_value lower _) as [p|];
    [|exact (fun H => H)].
  cbn [bind].
  destruct (Llm.get slide Llm.K_SUBTITLE) as [c|]; [|exact (fun H => H)].
  destruct (Llm.get slide Llm.K_SUBTITLES) as [subs|]; [|exact (fun H => H)].
  cbn [bind]. discriminate.
Qed.

Lemma map_slides_throws (lower : jsstring -> jsstring) (items : list Llm.json)
  (slide : Llm.json) (e : error) :
  In slide items ->
  Llm.normalize_slide lower slide 0 = Throw e ->
  forall index, exists e', Llm.map_slides lower items index = Throw e'.
Proof.
  intros Hin Hthrow. induction items as [|x rest IH]; [contradiction|].
  intro index. simpl.
  destruct (Llm.normalize_slide lower x index) as [s|e0] eqn:Ex;
    [|eexists; reflexivity].
  cbn [bind]. destruct Hin as [-> | Hin].
  - rewrite (normalize_slide_throw_any_index lower slide 0 index e Hthrow) in Ex.
    discriminate.
  - destruct (IH Hin (S index)) as [e' He']. rewrite He'. eexists. reflexivity.
Qed.

Lemma map_slides_succeeds (lower : jsstring -> jsstring) (items : list Llm.json) :
  (forall slide, In slide items ->
                 exists s, Llm.normalize_slide lower slide 0 = Normal s) ->
  forall index, exists l, Llm.map_slides lower items index = Normal l.
Proof.
  induction items as [|x rest IH]; intros Hall index; simpl.
  - eexists. reflexivity.
  - destruct (Llm.normalize_slide lower x index) as [s|e] eqn:Ex.
    + cbn [bind].
      destruct (IH (fun slide H => Hall slide (or_intror H)) (S index))
        as [l Hl].
      rewrite Hl. eexists. reflexivity.
    + destruct (Hall x (or_introl eq_refl)) as [s Hs].
      rewrite (normalize_slide_throw_any_index lower x index 0 e Ex) in Hs.
      discriminate.
Qed.

(** X12: the slides of the model's answer are taken all or none.  When
    the parsed answer holds a [slides] array, one slide whose
    normalisation throws (a [null] slide, or an image prompt that is
    neither a string nor an array holding the style name) discards the
    whole answer for the built-in script; when every slide normalises,
    the returned script has exactly one slide per element of the array. *)
Theorem generatePPTScript_all_or_nothing
  (toLowerCase : jsstring -> jsstring)
  (JSON_parse : jsstring -> completion Llm.json)
  (callLLM : jsstring -> jsstring -> list jsstring -> completion jsstring)
  (knowledgePoint summary : jsstring) (keyPoints : list jsstring)
  (response : jsstring) (items : list Llm.json) :
  callLLM knowledgePoint summary keyPoints = Normal response ->
  Llm.get (Llm.parse_attempts JSON_parse response) Llm.K_SLIDES
    = Normal (Some (Llm.JArr items)) ->
  exists script,
    Llm.generatePPTScript toLowerCase JSON_parse callLLM
      knowledgePoint summary keyPoints = Normal script
    /\ ((exists slide e, In slide items
                         /\ Llm.normalize_slide toLowerCase slide 0 = Throw e) ->
        script = Llm.generateDefaultScript knowledgePoint summary)
    /\ (In Llm.JNull items ->
        script = Llm.generateDefaultScript knowledgePoint summary)
    /\ ((forall slide, In slide items ->
           exists s, Llm.normalize_slide toLowerCase slide 0 = Normal s) ->
        length (Llm.slides script) = length items).
Proof.
  intros Hcall Hget.
  assert (Htruthy : Llm.js_truthy (Llm.parse_attempts JSON_parse response) = true).
  { destruct (Llm.parse_attempts JSON_parse response); try discriminate;
      reflexivity. }
  assert (Hbad : (exists slide e, In slide items
                    /\ Llm.normalize_slide toLowerCase slide 0 = Throw e) ->
                 Llm.generatePPTScript toLowerCase JSON_parse callLLM
                   knowledgePoint summary keyPoints
                 = Normal (Llm.generateDefaultScript knowledgePoint summary)).
  { intros [slide [e [Hin He]]].
    unfold Llm.generatePPTScript. rewrite Hcall. cbn [bind].
    unfold Llm.validate. rewrite Htruthy, Hget. cbn [bind].
    destruct (map_slides_throws toLowerCase items slide e Hin He 0) as [e' He'].
    rewrite He'. reflexivity. }
  destruct (generatePPTScript_never_throws toLowerCase JSON_parse callLLM
              knowledgePoint summary keyPoints) as [script Hs].
  exists script. split; [exact Hs|]. split; [|split].
  - intro H. rewrite (Hbad H) in Hs. now injection Hs.
  - intro Hnull.
    assert (H : exists slide e, In slide items
                  /\ Llm.normalize_slide toLowerCase slide 0 = Throw e).
    { exists Llm.JNull, Llm.TypeError. split; [exact Hnull | reflexivity]. }
    rewrite (Hbad H) in Hs. now injection Hs.
  - intro Hall.
    destruct (map_slides_succeeds toLowerCase items Hall 0) as [l Hl].
    unfold Llm.generatePPTScript in Hs. rewrite Hcall in Hs. cbn [bind] in Hs.
    unfold Llm.validate in Hs. rewrite Htruthy, Hget in Hs. cbn [bind] in Hs.
    rewrite Hl in Hs. cbn [bind try_catch] in Hs. injection Hs as <-.
    exact (proj1 (map_slides_names_style _ _ _ _ Hl)).
Qed.

Lemma generatePPTScript_all_or_nothing_witness :
  Llm.generatePPTScript (fun s => s)
    (fun _ => Normal (Llm.JObj [(Llm.K_SLIDES, Llm.JArr [Llm.JObj []; Llm.JNull])]))
    (fun _ _ _ => Normal Samples.EMPTY_SLIDES_RESPONSE)
    Analysis.KP_DEFAULT [] []
  = Normal (Llm.generateDefaultScript Analysis.KP_DEFAULT []).
Proof.
  destruct (generatePPTScript_all_or_nothing (fun s => s)
              (fun _ => Normal (Llm.JObj [(Llm.K_SLIDES,
                                           Llm.JArr [Llm.JObj []; Llm.JNull])]))
              (fun _ _ _ => Normal Samples.EMPTY_SLIDES_RESPONSE)
              Analysis.KP_DEFAULT [] [] Samples.EMPTY_SLIDES_RESPONSE
              [Llm.JObj []; Llm.JNull] eq_refl eq_refl)
    as [script [Hs [_ [Hnull _]]]].
  rewrite Hs. f_equal. apply Hnull. simpl. auto.
Defined.

(* ===================================================================== *)
(** ** Further properties: the image of a response *)
(* ===================================================================== *)

Lemma strip_prefix_app (p s : jsstring) :
  ImageData.strip_prefix p (p ++ s) = Some s.
Proof.
  induction p as [|a p IH]; simpl; [now destruct s|].
  now rewrite N.eqb_refl.
Qed.




Lemma span_app (f : N -> bool) (a : jsstring) (c : N) (t : jsstring) :
  forallb f a = true -> f c = false ->
  ImageData.takeWhile f (a ++ c :: t) = a /\ dropWhile f (a ++ c :: t) = c :: t.
Proof.
  intros Ha Hc. induction a as [|x a IH]; simpl.
  - now rewrite Hc.
  - simpl in Ha. apply andb_true_iff in Ha as [Hx Ha]. rewrite Hx.
    destruct (IH Ha) as [H1 H2]. now rewrite H1, H2.
Qed.

Lemma truthy_nonempty (s : jsstring) : truthy s = true <-> s <> [].
Proof. destruct s; simpl; split; congruence. Qed.

(** X13: reading a data URL back.  For a non-empty format made of word
    characters and a non-empty payload without line terminators, the URL
    [data:image/<format>;base64,<payload>] is read as exactly that format
    and that payload. *)
Theorem extractBase64Data_reads_data_url (fmt payload : jsstring) :
  fmt <> [] -> forallb ImageData.is_word fmt = true ->
  payload <> [] ->
  forallb (fun c => negb (ImageData.is_line_terminator c)) payload = true ->
  ImageData.extractBase64Data
    (ImageData.DATA_IMAGE ++ fmt ++ ImageData.BASE64_MARK ++ payload)
  = Some (ImageData.mkImage fmt payload).
Proof.
  intros Hf Hword Hp Hline.
  unfold ImageData.extractBase64Data, ImageData.match_data_url.
  change (truthy (ImageData.DATA_IMAGE ++ fmt ++ ImageData.BASE64_MARK ++ payload))
    with true.
  cbn [negb]. rewrite strip_prefix_app.
  destruct (span_app ImageData.is_word fmt 0x3B%N
              ([0x62; 0x61; 0x73; 0x65; 0x36; 0x34; 0x2C]%N ++ payload)
              Hword eq_refl) as [H1 H2].
  change (fmt ++ ImageData.BASE64_MARK ++ payload)
    with (fmt ++ 0x3B%N :: [0x62; 0x61; 0x73; 0x65; 0x36; 0x34; 0x2C]%N ++ payload).
  cbv zeta. rewrite H1, H2.
  apply truthy_nonempty in Hf. rewrite Hf.
  change (0x3B%N :: [0x62; 0x61; 0x73; 0x65; 0x36; 0x34; 0x2C]%N ++ payload)
    with (ImageData.BASE64_MARK ++ payload).
  rewrite strip_prefix_app.
  apply truthy_nonempty in Hp. rewrite Hp, Hline. reflexivity.
Qed.

Lemma extractBase64Data_reads_data_url_witness :
  ImageData.extractBase64Data
    (ImageData.DATA_IMAGE ++ ImageData.PNG ++ ImageData.BASE64_MARK
       ++ [0x51; 0x51; 0x3D; 0x3D]%N)
  = Some (ImageData.mkImage ImageData.PNG [0x51; 0x51; 0x3D; 0x3D]%N).
Proof.
  apply extractBase64Data_reads_data_url;
    [discriminate | reflexivity | discriminate | reflexivity].
Defined.








Lemma replace_ext_swaps (stem ext new : jsstring) :
  ext <> [] ->
  forallb (fun c => negb (c =? ImageData.DOT)%N) ext = true ->
  ImageData.replace_ext (stem ++ ImageData.DOT :: ext) new = stem ++ new.
Proof.
  intros Hne Hnodot. unfold ImageData.replace_ext.
  assert (Hrev : rev (stem ++ ImageData.DOT :: ext)
                 = rev ext ++ ImageData.DOT :: rev stem).
  { rewrite rev_app_distr. simpl. now rewrite <- app_assoc. }
  rewrite Hrev.
  destruct (span_app (fun c => negb (c =? ImageData.DOT)%N) (rev ext)
              ImageData.DOT (rev stem)) as [H1 H2].
  { now apply forallb_rev. }
  { reflexivity. }
  cbv zeta. rewrite H1, H2, rev_involutive.
  simpl rev. rewrite rev_involutive.
  apply truthy_nonempty in Hne. rewrite Hne.
  replace (truthy (stem ++ [ImageData.DOT])) with true
    by (destruct stem; reflexivity).
  cbn [andb]. now rewrite removelast_last.
Qed.

(** X15: the file of a generated image is written next to the requested
    path, under the extension of its actual format: for a requested path
    [stem.ext] the file is [stem.jpg] when the conversion to JPEG works,
    and [stem.<format of the image>] when it does not; so the file is at
    the requested path exactly when its format equals the requested
    extension. *)
Theorem generateImageToFile_extension
  (toJpeg writeFileSync : jsstring -> completion unit)
  (img : ImageData.image) (stem ext : jsstring) (f : ImageData.image_file) :
  ext <> [] ->
  forallb (fun c => negb (c =? ImageData.DOT)%N) ext = true ->
  ImageData.generateImageToFile toJpeg writeFileSync (Normal img)
    (stem ++ ImageData.DOT :: ext) = Normal f ->
  ImageData.filepath f = stem ++ ImageData.DOT :: ImageData.file_format f
  /\ (ImageData.filepath f = stem ++ ImageData.DOT :: ext
      <-> ImageData.file_format f = ext)
  /\ match toJpeg (stem ++ ImageData.DOT :: ImageData.JPG) with
     | Normal _ => ImageData.file_format f = ImageData.JPG
     | Throw _ => ImageData.file_format f = ImageData.format img
     end.
Proof.
  intros Hne Hnodot. unfold ImageData.generateImageToFile. cbn [bind].
  rewrite !(replace_ext_swaps stem ext _ Hne Hnodot).
  assert (Hiff : forall fmt,
             stem ++ ImageData.DOT :: fmt = stem ++ ImageData.DOT :: ext
             <-> fmt = ext).
  { intro fmt. split; [|now intros ->].
    intro H. apply app_inv_head in H. now injection H. }
  destruct (toJpeg (stem ++ ImageData.DOT :: ImageData.JPG)) as [u|e].
  - intro H. injection H as <-. simpl. repeat split; apply Hiff.
  - destruct (writeFileSync (stem ++ ImageData.DOT :: ImageData.format img))
      as [u|e']; cbn [bind]; [|discriminate].
    intro H. injection H as <-. simpl. repeat split; apply Hiff.
Qed.

Lemma generateImageToFile_extension_witness :
  ImageData.filepath
    (ImageData.mkImageFile
       (Fixtures.slide_stem ++ ImageData.DOT :: ImageData.PNG) ImageData.PNG)
  = Fixtures.slide_stem ++ ImageData.DOT :: ImageData.JPG
  <-> ImageData.PNG = ImageData.JPG.
Proof.
  apply (generateImageToFile_extension
           (fun _ => Throw (mkError [])) (fun _ => Normal tt)
           (ImageData.mkImage ImageData.PNG Fixtures.PAYLOAD)
           Fixtures.slide_stem ImageData.JPG
           (ImageData.mkImageFile
              (Fixtures.slide_stem ++ ImageData.DOT :: ImageData.PNG)
              ImageData.PNG)).
  - discriminate.
  - reflexivity.
  - vm_compute. reflexivity.
Defined.

(* ===================================================================== *)
(** ** Further properties: the progress of one marker *)
(* ===================================================================== *)

Section Rising.

Import MarkerProgress.

Lemma js_round_mono (x y : Q) : x <= y -> (Asr.js_round x <= Asr.js_round y)%Z.
Proof.
  intro H. unfold Asr.js_round. apply Qfloor_resp_le. lra.
Qed.

Lemma rising_nil (lo hi : Z) : rising lo hi [].
Proof. split; constructor. Qed.

Lemma rising_single (lo hi x : Z) : (lo <= x <= hi)%Z -> rising lo hi [x].
Proof. intro H. split; repeat constructor; lia. Qed.

Lemma rising_app (a b c : Z) (l1 l2 : list Z) :
  (a <= b)%Z -> (b <= c)%Z ->
  rising a b l1 -> rising b c l2 -> rising a c (l1 ++ l2).
Proof.
  intros Hab Hbc [S1 B1] [S2 B2]. split.
  - induction S1 as [|x l S1 IH Hx]; simpl; [exact S2|].
    inversion B1 as [|? ? Bx Bl]; subst. constructor; [now apply IH|].
    apply Forall_app. split; [exact Hx|].
    eapply Forall_impl; [|exact B2]. simpl. intros y Hy. lia.
  - apply Forall_app. split.
    + eapply Forall_impl; [|exact B1]. simpl. intros y Hy. lia.
    + eapply Forall_impl; [|exact B2]. simpl. intros y Hy. lia.
Qed.

Lemma rising_map_seq (f : nat -> Z) (lo hi : Z) (n : nat) :
  forall s,
    (forall i j, (s <= i)%nat -> (i <= j)%nat -> (j < s + n)%nat ->
                 (f i <= f j)%Z) ->
    (forall i, (s <= i)%nat -> (i < s + n)%nat -> (lo <= f i <= hi)%Z) ->
    rising lo hi (map f (seq s n)).
Proof.
  induction n as [|n IH]; intros s Hmono Hbound; simpl; [apply rising_nil|].
  destruct (IH (S s)) as [S1 B1].
  { intros i j H1 H2 H3. apply Hmono; lia. }
  { intros i H1 H2. apply Hbound; lia. }
  split; constructor; try assumption.
  - apply Forall_forall. intros y Hy. apply in_map_iff in Hy as [j [<- Hj]].
    apply in_seq in Hj. apply Hmono; lia.
  - apply Hbound; lia.
Qed.

Lemma rising_map (g : Z -> Z) (lo hi lo' hi' : Z) (l : list Z) :
  (forall x y, (lo <= x)%Z -> (x <= y)%Z -> (y <= hi)%Z -> (g x <= g y)%Z) ->
  (lo' <= g lo)%Z -> (g hi <= hi')%Z ->
  rising lo hi l -> rising lo' hi' (map g l).
Proof.
  intros Hmono Hlo Hhi [S1 B1]. split.
  - induction S1 as [|x l S1 IH Hx]; simpl; constructor.
    + apply IH. now inversion B1.
    + inversion B1 as [|? ? Bx Bl]; subst.
      apply Forall_forall. intros y Hy. apply in_map_iff in Hy as [z [<- Hz]].
      rewrite Forall_forall in Hx, Bl. specialize (Hx z Hz).
      specialize (Bl z Hz). apply Hmono; lia.
  - apply Forall_forall. intros y Hy. apply in_map_iff in Hy as [z [<- Hz]].
    rewrite Forall_forall in B1. specialize (B1 z Hz).
    pose proof (Hmono lo z ltac:(lia) ltac:(lia) ltac:(lia)).
    pose proof (Hmono z hi ltac:(lia) ltac:(lia) ltac:(lia)). lia.
Qed.

Lemma ratio_le (i j n : nat) :
  (0 < n)%nat -> (i <= j)%nat ->
  VideoSynth.Qnat i / VideoSynth.Qnat n <= VideoSynth.Qnat j / VideoSynth.Qnat n.
Proof.
  intros Hn Hij. apply Qmult_le_compat_r; [now apply Qnat_le|].
  apply Qinv_le_0_compat. pose proof (Qnat_pos n Hn). lra.
Qed.

Lemma ratio_unit (i n : nat) :
  (0 < n)%nat -> (i <= n)%nat ->
  0 <= VideoSynth.Qnat i / VideoSynth.Qnat n <= 1.
Proof.
  intros Hn Hi. pose proof (Qnat_pos n Hn) as Hpos. split.
  - apply Qle_shift_div_l; [exact Hpos|]. pose proof (Qnat_nonneg i). lra.
  - apply Qle_shift_div_r; [exact Hpos|]. pose proof (Qnat_le i n Hi). lra.
Qed.

(** [Math.round(offset + (i / n) * span)] over [i = s .. s + k - 1]. *)
Lemma rising_ratio (g : nat -> Q) (offset span : Q) (lo hi : Z) (n s k : nat) :
  0 <= span -> (0 < n)%nat -> (s + k <= S n)%nat ->
  (forall i, g i == offset + VideoSynth.Qnat i / VideoSynth.Qnat n * span) ->
  lo = Asr.js_round offset -> hi = Asr.js_round (offset + span) ->
  rising lo hi (map (fun i => Asr.js_round (g i)) (seq s k)).
Proof.
  intros Hspan Hn Hle Hg -> ->. apply rising_map_seq.
  - intros i j H1 H2 H3. apply js_round_mono.
    pose proof (ratio_le i j n Hn H2) as Hr.
    pose proof (Hg i) as Gi. pose proof (Hg j) as Gj.
    set (a := VideoSynth.Qnat i / VideoSynth.Qnat n) in *.
    set (b := VideoSynth.Qnat j / VideoSynth.Qnat n) in *.
    assert (a * span <= b * span)
      by (apply Qmult_le_compat_r; assumption).
    lra.
  - intros i H1 H2.
    destruct (ratio_unit i n Hn ltac:(lia)) as [H0 H1'].
    pose proof (Hg i) as Gi.
    set (a := VideoSynth.Qnat i / VideoSynth.Qnat n) in *.
    assert (0 * span <= a * span) by (apply Qmult_le_compat_r; assumption).
    assert (a * span <= 1 * span) by (apply Qmult_le_compat_r; assumption).
    split; apply js_round_mono; lra.
Qed.

Lemma asr_scale_mono (x y : Z) : (x <= y)%Z -> (asr_scale x <= asr_scale y)%Z.
Proof.
  intro H. apply js_round_mono. rewrite Zle_Qle in H. lra.
Qed.

Lemma video_scale_mono (x y : Z) :
  (x <= y)%Z -> (video_scale x <= video_scale y)%Z.
Proof.
  intro H. apply js_round_mono. rewrite Zle_Qle in H. lra.
Qed.

Lemma synthesizeVideo_progress_rising (n : nat) :
  rising 0 100 (synthesizeVideo_progress n).
Proof.
  unfold synthesizeVideo_progress.
  apply (rising_app 0 60 100); [lia | lia | |].
  - destruct n as [|n]; [apply rising_nil|].
    apply (rising_ratio _ 0 60 0 60 (S n) 0 (S n));
      try lra; try lia; try reflexivity.
    intro i. ring.
  - split; repeat constructor; lia.
Qed.

Lemma chunk_percent_rising (n : nat) :
  rising 0 100
    (map (fun k => Asr.js_round (VideoSynth.Qnat k / VideoSynth.Qnat n * 80))
         (seq 1 n)
     ++ [100%Z]).
Proof.
  apply (rising_app 0 80 100); [lia | lia | |].
  - destruct n as [|n]; [apply rising_nil|].
    apply (rising_ratio _ 0 80 0 80 (S n) 1 (S n));
      try lra; try lia; try reflexivity.
    intro i. ring.
  - apply rising_single. lia.
Qed.

End Rising.

(** X16: the progress reported for one marker never goes back.  With the
    media toolkit present and every transcription request settling
    exactly once, the percentages that the processing of a marker
    reports when no step throws, taken in the order of the reports, are
    non-decreasing and lie between 5 and 100, whatever the number of
    audio chunks and of slides and whether or not a video is made. *)
Theorem marker_progress_never_goes_back
  (recognise : jsstring -> Asr.segment_task -> completion jsstring)
  (completion_order : nat -> nat -> list nat)
  (segmentPath : jsstring) (startTime endTime : Q)
  (totalSlides : nat) (ffmpeg : bool) :
  (forall b k, Permutation (completion_order b k) (seq 0 k)) ->
  let asr := fst (Asr.transcribeAudio true recognise completion_order
                    segmentPath 0 (endTime - startTime)) in
  let reported := MarkerProgress.marker_progress asr totalSlides ffmpeg in
  StronglySorted Z.le reported
  /\ Forall (fun p => (5 <= p <= 100)%Z) reported.
Proof.
  intros Hperm asr reported.
  change (MarkerProgress.rising 5 100 reported).
  unfold reported, asr, MarkerProgress.marker_progress.
  rewrite <- (map_map Asr.percent MarkerProgress.asr_scale).
  rewrite (transcribeAudio_percentages recognise completion_order segmentPath
             0 (endTime - startTime) Hperm).
  set (n := Asr.segmentCount 0 (endTime - startTime)).
  apply (rising_app 5 5 100); [lia | lia | apply rising_single; lia |].
  apply (rising_app 5 20 100); [lia | lia | |].
  { apply (rising_map MarkerProgress.asr_scale 0 100 5 20).
    - intros x y _ Hxy _. now apply asr_scale_mono.
    - vm_compute. discriminate.
    - vm_compute. discriminate.
    - apply chunk_percent_rising. }
  apply (rising_app 20 40 100); [lia | lia | |].
  { split; repeat constructor; lia. }
  apply (rising_app 40 70 100); [lia | lia | |].
  { destruct totalSlides as [|t]; [apply rising_nil|].
    apply (rising_ratio _ 40 30 40 70 (S t) 0 (S t));
      try lra; try lia; try reflexivity. }
  apply (rising_app 70 80 100); [lia | lia | apply rising_single; lia |].
  apply (rising_app 80 98 100); [lia | lia | | apply rising_single; lia].
  destruct ffmpeg; [|apply rising_nil].
  apply (rising_map MarkerProgress.video_scale 0 100 80 98).
  - intros x y _ Hxy _. now apply video_scale_mono.
  - vm_compute. discriminate.
  - vm_compute. discriminate.
  - apply synthesizeVideo_progress_rising.
Qed.

Lemma marker_progress_never_goes_back_witness :
  StronglySorted Z.le
    (MarkerProgress.marker_progress
       (fst (Asr.transcribeAudio true (fun _ _ => Normal [])
               (fun _ k => seq 0 k) [] 0 (130 - 0)))
       2 true).
Proof.
  apply (marker_progress_never_goes_back (fun _ _ => Normal [])
           (fun _ k => seq 0 k) [] 0 130 2 true).
  intros b k. apply Permutation_refl.
Defined.

(* ===================================================================== *)
(** ** Further properties: the subtitle track of the video *)
(* ===================================================================== *)

Section TrackProofs.

Import VideoSynth Track.

Lemma offset_snoc (done rest : list (video_slide * completion Q))
  (slide : video_slide) (clip : completion Q) :
  offset (done ++ (slide, clip) :: rest) (S (length done))
  = offset (done ++ (slide, clip) :: rest) (length done) + clip_duration clip.
Proof.
  unfold offset.
  assert (H1 : firstn (S (length done)) (done ++ (slide, clip) :: rest)
               = done ++ [(slide, clip)]).
  { replace (S (length done)) with (length done + 1)%nat by lia.
    rewrite firstn_app_2. reflexivity. }
  assert (H2 : firstn (length done) (done ++ (slide, clip) :: rest) = done).
  { replace (length done) with (length done + 0)%nat at 1 by lia.
    rewrite firstn_app_2. simpl. apply app_nil_r. }
  rewrite H1, H2, map_app, fold_left_app. reflexivity.
Qed.

Lemma collect_subtitles_all (rest : list (video_slide * completion Q)) :
  forall done subtitles,
    Forall (fun sc => exists d, snd sc = Normal d) rest ->
    collect_subtitles rest (offset (done ++ rest) (length done)) subtitles
    = Normal (subtitles
              ++ flat_map (placed_cues (done ++ rest))
                   (combine (seq (length done) (length rest)) rest),
              offset (done ++ rest) (length (done ++ rest))).
Proof.
  induction rest as [|[slide clip] rest IH]; intros done subtitles Hall.
  - simpl. rewrite !app_nil_r. reflexivity.
  - inversion Hall as [|? ? [d Hd] Hrest]; subst. simpl in Hd. subst clip.
    cbn [collect_subtitles].
    specialize (IH (done ++ [(slide, Normal d)])
                   (subtitles
                    ++ slide_cues slide
                         (offset (done ++ (slide, Normal d) :: rest)
                                 (length done)) d)
                   Hrest).
    rewrite <- app_assoc in IH. simpl app in IH.
    rewrite length_app in IH. simpl length in IH.
    replace (length done + 1)%nat with (S (length done)) in IH by lia.
    rewrite offset_snoc in IH. simpl clip_duration in IH.
    rewrite IH. cbn [length seq combine flat_map placed_cues clip_duration].
    rewrite <- app_assoc. reflexivity.
Qed.

Lemma collect_subtitles_abort (before : list (video_slide * completion Q)) :
  forall slide e after currentTime subtitles,
    Forall (fun sc => exists d, snd sc = Normal d) before ->
    collect_subtitles (before ++ (slide, Throw e) :: after)
      currentTime subtitles = Throw e.
Proof.
  induction before as [|[s c] before IH];
    intros slide e after currentTime subtitles Hall; simpl; [reflexivity|].
  inversion Hall as [|? ? [d Hd] Hrest]; subst. simpl in Hd. subst c.
  now apply IH.
Qed.

End TrackProofs.

(** X17: the subtitle track of a video.  When every clip is made, the
    track holds the cues of the slides in slide order, the cues of each
    slide being placed at the sum of the durations of the clips before
    it, and the duration reported for the video is the sum of all clip
    durations.  When a clip cannot be made, the synthesis throws the
    error of the first such clip, whatever the other slides are. *)
Theorem synthesizeVideo_track
  (slides : list (VideoSynth.video_slide * completion Q)) :
  (Forall (fun sc => exists d, snd sc = Normal d) slides ->
   VideoSynth.collect_subtitles slides 0 []
   = Normal (flat_map (Track.placed_cues slides)
               (combine (seq 0 (length slides)) slides),
             Track.offset slides (length slides)))
  /\ (forall before slide e after,
        slides = before ++ (slide, Throw e) :: after ->
        Forall (fun sc => exists d, snd sc = Normal d) before ->
        VideoSynth.collect_subtitles slides 0 [] = Throw e).
Proof.
  split.
  - intro Hall. exact (collect_subtitles_all slides [] [] Hall).
  - intros before slide e after -> Hall.
    now apply collect_subtitles_abort.
Qed.

Lemma synthesizeVideo_track_witness :
  VideoSynth.collect_subtitles
    [(Samples.slide_author_only, Normal 3);
     (Samples.slide_author_only, Throw (mkError []))] 0 []
  = Throw (mkError []).
Proof.
  apply (proj2 (synthesizeVideo_track _)
               [(Samples.slide_author_only, Normal 3)]
               Samples.slide_author_only (mkError []) []).
  - reflexivity.
  - repeat constructor. exists 3. reflexivity.
Defined.

Lemma str_eqb_eq (a b : jsstring) : VideoSynth.str_eqb a b = true <-> a = b.
Proof.
  unfold VideoSynth.str_eqb. destruct (list_eq_dec N.eq_dec a b); split;
    congruence.
Qed.

(** X18: the file that the video synthesis returns.  The merged video
    sits at a temporary path other than the output path and is none of
    the clips.  When the synthesis returns, either it returns the output
    path, which was written by the burn-in or by a copy of the merged
    video, and the merged video has been removed; or there were
    subtitles and the burn-in command failed: it then returns the path
    of the merged video, which is kept, and nothing was written at the
    output path. *)
Theorem synthesizeVideo_final_file
  (subtitles : list VideoSynth.cue) (slideVideos : list jsstring)
  (mergedVideoPath outputPath : jsstring)
  (mkdir prepared : completion unit) (burned : bool)
  (copyFileSync : completion unit)
  (finalVideoPath : jsstring) (effects : list FinalFile.fs_effect) :
  mergedVideoPath <> outputPath ->
  ~ In mergedVideoPath slideVideos ->
  FinalFile.finish subtitles slideVideos mergedVideoPath outputPath
    mkdir prepared burned copyFileSync
  = Normal (finalVideoPath, effects) ->
  (finalVideoPath = outputPath
   /\ Exists (FinalFile.writes outputPath) effects
   /\ In (FinalFile.Unlinked mergedVideoPath) effects)
  \/ (finalVideoPath = mergedVideoPath
      /\ subtitles <> [] /\ burned = false
      /\ ~ Exists (FinalFile.writes outputPath) effects
      /\ ~ In (FinalFile.Unlinked mergedVideoPath) effects).
Proof.
  intros Hdiff Hclip. unfold FinalFile.finish.
  destruct mkdir as [u|]; [|discriminate]. cbn [bind].
  assert (Hsame : VideoSynth.str_eqb mergedVideoPath mergedVideoPath = true)
    by now apply str_eqb_eq.
  assert (Hother : VideoSynth.str_eqb mergedVideoPath outputPath = false).
  { destruct (VideoSynth.str_eqb mergedVideoPath outputPath) eqn:E;
      [|reflexivity].
    apply str_eqb_eq in E. contradiction. }
  assert (Hcopy : forall (r : jsstring * list FinalFile.fs_effect ->
                                completion (jsstring * list FinalFile.fs_effect))
                           res,
            bind (FinalFile.copy_merged mergedVideoPath outputPath copyFileSync)
                 r = Normal res ->
            r (outputPath, [FinalFile.Copied mergedVideoPath outputPath])
            = Normal res).
  { intros r res. unfold FinalFile.copy_merged.
    destruct copyFileSync; [|discriminate]. exact (fun H => H). }
  assert (Hout : forall first final eff,
            Exists (FinalFile.writes outputPath) [first] ->
            Normal (outputPath,
                    [first] ++ map FinalFile.Unlinked slideVideos
                    ++ (if negb (VideoSynth.str_eqb mergedVideoPath outputPath)
                        then [FinalFile.Unlinked mergedVideoPath] else []))
            = Normal (final, eff) ->
            final = outputPath
            /\ Exists (FinalFile.writes outputPath) eff
            /\ In (FinalFile.Unlinked mergedVideoPath) eff).
  { intros first final eff Hw H. rewrite Hother in H. injection H as <- <-.
    split; [reflexivity|]. split.
    - inversion Hw as [? ? Hf | ? ? Hf]; [|inversion Hf]. now constructor.
    - right. apply in_or_app. right. now left. }
  unfold FinalFile.add_or_copy.
  destruct (0 <? length subtitles)%nat eqn:Esub.
  - unfold FinalFile.addSubtitles. destruct prepared as [u'|e].
    + cbn [bind]. destruct burned; cbv beta iota delta [bind].
      * intro H. left. apply (Hout (FinalFile.Burned outputPath));
          [constructor; reflexivity | exact H].
      * rewrite Hsame. cbn [negb app]. rewrite app_nil_r.
        intro H. injection H as <- <-. right.
        split; [reflexivity|]. split.
        { intro E. rewrite E in Esub. discriminate. }
        split; [reflexivity|]. split.
        { intro Hex. apply Exists_exists in Hex as [x [Hx Hw]].
          apply in_map_iff in Hx as [p [<- _]]. exact Hw. }
        { intro Hin. apply in_map_iff in Hin as [p [Hp Hin]].
          injection Hp as ->. contradiction. }
    + cbn [bind]. intro H. apply Hcopy in H. left.
      apply (Hout (FinalFile.Copied mergedVideoPath outputPath));
        [constructor; reflexivity | exact H].
  - intro H. apply Hcopy in H. left.
    apply (Hout (FinalFile.Copied mergedVideoPath outputPath));
      [constructor; reflexivity | exact H].
Qed.

Lemma synthesizeVideo_final_file_witness :
  (SamplePaths.merged_path = SamplePaths.output_path
   /\ Exists (FinalFile.writes SamplePaths.output_path)
             [FinalFile.Unlinked SamplePaths.clip_path]
   /\ In (FinalFile.Unlinked SamplePaths.merged_path)
         [FinalFile.Unlinked SamplePaths.clip_path])
  \/ (SamplePaths.merged_path = SamplePaths.merged_path
      /\ SamplePaths.one_cue <> [] /\ false = false
      /\ ~ Exists (FinalFile.writes SamplePaths.output_path)
                  [FinalFile.Unlinked SamplePaths.clip_path]
      /\ ~ In (FinalFile.Unlinked SamplePaths.merged_path)
              [FinalFile.Unlinked SamplePaths.clip_path]).
Proof.
  apply (synthesizeVideo_final_file SamplePaths.one_cue [SamplePaths.clip_path]
           SamplePaths.merged_path SamplePaths.output_path
           (Normal tt) (Normal tt) false (Normal tt)).
  - discriminate.
  - intros [H|[]]. discriminate H.
  - vm_compute. reflexivity.
Defined.

(* ===================================================================== *)
(** ** Further properties: the text of the cues *)
(* ===================================================================== *)

Section CueText.

Import VideoSynth.

Lemma dropWhile_head (f : N -> bool) (s : jsstring) (c : N) (t : jsstring) :
  dropWhile f s = c :: t -> f c = false /\ In c s.
Proof.
  induction s as [|x s IH]; simpl; [discriminate|].
  destruct (f x) eqn:E.
  - intro H. destruct (IH H). auto.
  - intro H. injection H as -> _. auto.
Qed.

Lemma nonblank_iff (s : jsstring) :
  nonblank s = true <-> exists c, In c s /\ is_ws c = false.
Proof.
  unfold nonblank. split.
  - intro H. apply Nat.ltb_lt in H.
    destruct (dropWhile is_ws s) as [|c t] eqn:E.
    + unfold trim, trimEnd, trimStart in H. rewrite E in H. simpl in H. lia.
    + exists c. destruct (dropWhile_head is_ws s c t E). auto.
  - intros [c [Hin Hc]]. apply Nat.ltb_lt.
    pose proof (In_trim c s Hin Hc) as H.
    destruct (trim s); [contradiction | simpl; lia].
Qed.

Lemma nonblank_trim (s : jsstring) :
  truthy (trim s) = true -> nonblank (trim s) = true.
Proof.
  intro H.
  assert (Hs : nonblank s = true).
  { unfold nonblank. destruct (trim s); [discriminate | reflexivity]. }
  apply nonblank_iff in Hs as [c [Hin Hc]].
  apply nonblank_iff. exists c. split; [now apply In_trim | exact Hc].
Qed.

Lemma nonblank_app (a b : jsstring) :
  nonblank a = true \/ nonblank b = true -> nonblank (a ++ b) = true.
Proof.
  intros [H|H]; apply nonblank_iff in H as [c [Hin Hc]]; apply nonblank_iff;
    exists c; (split; [apply in_or_app; auto | exact Hc]).
Qed.

Lemma nonblank_trim_of (s : jsstring) :
  nonblank s = true -> nonblank (trim s) = true.
Proof.
  intro H. apply nonblank_trim. unfold nonblank in H.
  destruct (trim s); [discriminate | reflexivity].
Qed.

Lemma merge_sentences_nonblank (parts : list jsstring) :
  Forall (fun p => nonblank p = true) parts ->
  forall current,
    current = [] \/ nonblank current = true ->
    Forall (fun seg => nonblank seg = true) (merge_sentences parts current).
Proof.
  induction 1 as [|part rest Hpart _ IH]; intros current Hcur; simpl.
  - destruct (truthy (trim current)) eqn:E; constructor; [|constructor].
    now apply nonblank_trim.
  - destruct (existsb is_sentence_end part).
    + destruct (truthy current) eqn:E.
      * constructor; [|apply IH; now left].
        destruct Hcur as [->|Hc]; [discriminate|].
        apply nonblank_app. left. now apply nonblank_trim_of.
      * now apply IH.
    + apply IH. right. apply nonblank_app. now right.
Qed.

Lemma comma_not_ws (part : jsstring) :
  existsb is_comma part = true -> nonblank part = true.
Proof.
  intro H. apply existsb_exists in H as [c [Hin Hc]].
  apply nonblank_iff. exists c. split; [exact Hin|].
  unfold is_comma in Hc. apply orb_true_iff in Hc as [Hc|Hc];
    apply N.eqb_eq in Hc; subst c; reflexivity.
Qed.

Lemma comma_loop_nonblank (maxLength : nat) (parts : list jsstring) :
  forall current,
    Forall (fun p => nonblank p = true) (comma_loop maxLength parts current).
Proof.
  induction parts as [|part rest IH]; intro current; simpl.
  - destruct (truthy (trim current)) eqn:E; constructor; [|constructor].
    now apply nonblank_trim.
  - destruct (existsb is_comma part) eqn:Ec.
    + destruct (Qle_bool _ _); [|apply IH].
      constructor; [|apply IH].
      apply nonblank_trim_of, nonblank_app. right. now apply comma_not_ws.
    + destruct (_ <? _)%nat; [|apply IH].
      apply Forall_app. split; [|apply IH].
      destruct (truthy (trim current)) eqn:E; constructor; [|constructor].
      now apply nonblank_trim.
Qed.

Lemma splitByComma_nonblank (text : jsstring) (maxLength : nat) :
  Forall (fun p => nonblank p = true) (splitByComma text maxLength).
Proof.
  unfold splitByComma. destruct (0 <? _)%nat.
  - apply comma_loop_nonblank.
  - constructor; [|constructor]. apply nonblank_app. right. reflexivity.
Qed.

Lemma sub_cues_text (t sub : Q) (parts : list jsstring) :
  forall i, map text (sub_cues t sub i parts) = parts.
Proof.
  induction parts as [|p rest IH]; intro i; simpl; [reflexivity|].
  now rewrite IH.
Qed.

Lemma segment_cues_nonblank (segment : jsstring) (t d : Q) :
  nonblank segment = true ->
  Forall (fun p => nonblank p = true) (map text (segment_cues segment t d)).
Proof.
  intro H. unfold segment_cues. destruct (25 <? length segment)%nat.
  - rewrite sub_cues_text. apply splitByComma_nonblank.
  - simpl. constructor; [exact H | constructor].
Qed.

Lemma forEach_segment_nonblank (T : Q) (totalChars n : nat)
  (segments : list jsstring) :
  Forall (fun seg => nonblank seg = true) segments ->
  forall index t,
    Forall (fun p => nonblank p = true)
           (map text (forEach_segment T totalChars n index segments t)).
Proof.
  induction 1 as [|segment rest Hseg _ IH]; intros index t; simpl;
    [constructor|].
  rewrite map_app. apply Forall_app. split; [|apply IH].
  now apply segment_cues_nonblank.
Qed.

Lemma script_segments_nonblank (script : jsstring) :
  Forall (fun seg => nonblank seg = true) (script_segments script).
Proof.
  unfold script_segments. apply merge_sentences_nonblank; [|now left].
  apply Forall_forall. intros p Hp. now apply filter_In in Hp.
Qed.

End CueText.

(** X19: no cue is blank.  For every script and every duration, the text
    of each cue generated from the script holds at least one code unit
    that is not white space. *)
Theorem generated_cues_not_blank (script : jsstring) (totalDuration : Q) :
  Forall (fun c => VideoSynth.nonblank (VideoSynth.text c) = true
                   /\ VideoSynth.text c <> [])
         (VideoSynth.generateSubtitlesFromScript script totalDuration).
Proof.
  assert (H : Forall (fun p => VideoSynth.nonblank p = true)
                (map VideoSynth.text
                   (VideoSynth.generateSubtitlesFromScript script
                      totalDuration))).
  { destruct (generateSubtitlesFromScript_cases script totalDuration)
      as [E | [_ [totalChars E]]]; rewrite E; [constructor|].
    apply forEach_segment_nonblank, script_segments_nonblank. }
  rewrite Forall_map in H. eapply Forall_impl; [|exact H].
  intros c Hc. cbv beta in Hc. split; [exact Hc|].
  intro E. rewrite E in Hc. discriminate Hc.
Qed.

(* ===================================================================== *)
(** ** Further properties: the background job of a task *)
(* ===================================================================== *)

Lemma on_event_keeps_error (MarkerResult Msg Data : Type)
  (calls : list (Processor.event MarkerResult Msg Data)) :
  forall t : Server.task MarkerResult Msg Data,
    Server.error (fold_left (Server.on_event MarkerResult Msg Data) calls t)
    = Server.error t.
Proof.
  induction calls as [|ev calls IH]; intro t; simpl; [reflexivity|].
  rewrite IH. destruct ev; reflexivity.
Qed.

(** X20: the background job of a task always ends as completed.  For
    every audio file, every list of markers and every behaviour of the
    marker processing, the task ends with status completed, progress
    100, no error, and as results the array of the batch, which has one
    entry per marker: a marker that fails shows as a failure entry, never
    as a failed task. *)
Theorem background_job_always_completes
  (W MarkerResult Msg Data : Type)
  (processTimeMarker :
     jsstring -> Q -> W ->
     list (Processor.inner_event Msg Data) * completion MarkerResult * W)
  (audioFilePath : jsstring) (markers : list Q) (w : W) :
  let t := fst (Server.processAudioInBackground processTimeMarker
                  audioFilePath markers w) in
  let entries := Processor.batch_spec processTimeMarker audioFilePath
                   markers w in
  Server.status t = Server.StatusCompleted
  /\ Server.progress t = 100%Z
  /\ Server.message t = Server.Finished
  /\ Server.results t = Server.Final entries
  /\ Server.error t = None
  /\ length entries = length markers.
Proof.
  intros t entries. unfold t, Server.processAudioInBackground.
  unfold Processor.processMultipleMarkers.
  destruct (markers_loop_resolves W MarkerResult Msg Data processTimeMarker
              audioFilePath (length markers) markers 0 [] w [])
    as [w' [tr' H]].
  rewrite H. simpl. repeat split.
  - apply on_event_keeps_error.
  - apply batch_spec_length.
Qed.

(* ===================================================================== *)
(** ** Further properties: order and numbering of the slides *)
(* ===================================================================== *)

Lemma map_slides_pointwise (lower : jsstring -> jsstring)
  (items : list Llm.json) :
  forall index l,
    Llm.map_slides lower items index = Normal l ->
    forall i item,
      nth_error items i = Some item ->
      exists s, nth_error l i = Some s
                /\ Llm.normalize_slide lower item (index + i) = Normal s.
Proof.
  induction items as [|x rest IH]; intros index l; simpl.
  - intros _ i item H. destruct i; discriminate.
  - destruct (Llm.normalize_slide lower x index) as [s|] eqn:Ex;
      [|discriminate].
    cbn [bind].
    destruct (Llm.map_slides lower rest (S index)) as [tail|] eqn:Et;
      [|discriminate].
    cbn [bind]. intro H. injection H as <-. intros [|i] item Hi; simpl in Hi.
    + injection Hi as <-. exists s. rewrite Nat.add_0_r. auto.
    + destruct (IH (S index) tail Et i item Hi) as [s' [H1 H2]].
      exists s'. split; [exact H1|].
      replace (index + S i)%nat with (S index + i)%nat by lia. exact H2.
Qed.

Lemma normalize_slide_fields (lower : jsstring -> jsstring)
  (fields : list (jsstring * Llm.json)) (index : nat) (s : Llm.script_slide) :
  Llm.normalize_slide lower (Llm.JObj fields) index = Normal s ->
  Llm.ss_title s
  = Llm.or_else (Llm.assoc Llm.K_TITLE fields)
      (Llm.JStr (Llm.PAGE_PRE ++ nat_to_string (index + 1) ++ Llm.PAGE_POST))
  /\ Llm.ss_script s = Llm.or_else (Llm.assoc Llm.K_SCRIPT fields) (Llm.JStr [])
  /\ Llm.ss_subtitle s
     = Llm.or_else (Llm.assoc Llm.K_SUBTITLE fields) (Llm.JStr []).
Proof.
  unfold Llm.normalize_slide. cbn [Llm.get bind].
  destruct (Llm.normalizeImagePrompt_value lower _) as [p|]; [|discriminate].
  cbn [bind]. intro H. injection H as <-. repeat split.
Qed.

(** X21: the slides of the script keep the order of the model's answer
    and are numbered from 1.  When the parsed answer holds a [slides]
    array whose every element normalises, slide [i] of the returned
    script is the normalisation of element [i]; for an element that is an
    object, its title is the element's title when that is truthy and
    otherwise the page title with the number [i + 1], and its script and
    subtitle are those of the element, or empty. *)
Theorem generatePPTScript_slides_in_order
  (toLowerCase : jsstring -> jsstring)
  (JSON_parse : jsstring -> completion Llm.json)
  (callLLM : jsstring -> jsstring -> list jsstring -> completion jsstring)
  (knowledgePoint summary : jsstring) (keyPoints : list jsstring)
  (response : jsstring) (items : list Llm.json) :
  callLLM knowledgePoint summary keyPoints = Normal response ->
  Llm.get (Llm.parse_attempts JSON_parse response) Llm.K_SLIDES
    = Normal (Some (Llm.JArr items)) ->
  (forall slide, In slide items ->
     exists s, Llm.normalize_slide toLowerCase slide 0 = Normal s) ->
  exists script,
    Llm.generatePPTScript toLowerCase JSON_parse callLLM
      knowledgePoint summary keyPoints = Normal script
    /\ length (Llm.slides script) = length items
    /\ forall i item,
         nth_error items i = Some item ->
         exists s,
           nth_error (Llm.slides script) i = Some s
           /\ Llm.normalize_slide toLowerCase item i = Normal s
           /\ forall fields,
                item = Llm.JObj fields ->
                Llm.ss_title s
                = Llm.or_else (Llm.assoc Llm.K_TITLE fields)
                    (Llm.JStr (Llm.PAGE_PRE ++ nat_to_string (i + 1)
                               ++ Llm.PAGE_POST))
                /\ Llm.ss_script s
                   = Llm.or_else (Llm.assoc Llm.K_SCRIPT fields) (Llm.JStr [])
                /\ Llm.ss_subtitle s
                   = Llm.or_else (Llm.assoc Llm.K_SUBTITLE fields)
                       (Llm.JStr []).
Proof.
  intros Hcall Hget Hall.
  assert (Htruthy : Llm.js_truthy (Llm.parse_attempts JSON_parse response) = true).
  { destruct (Llm.parse_attempts JSON_parse response); try discriminate;
      reflexivity. }
  destruct (map_slides_succeeds toLowerCase items Hall 0) as [l Hl].
  exists (Llm.mkScript l). split; [|split].
  - unfold Llm.generatePPTScript. rewrite Hcall. cbn [bind].
    unfold Llm.validate. rewrite Htruthy, Hget. cbn [bind].
    rewrite Hl. reflexivity.
  - exact (proj1 (map_slides_names_style _ _ _ _ Hl)).
  - intros i item Hi.
    destruct (map_slides_pointwise toLowerCase items 0 l Hl i item Hi)
      as [s [H1 H2]].
    exists s. split; [exact H1|]. split; [exact H2|].
    intros fields ->. exact (normalize_slide_fields _ _ _ _ H2).
Qed.

Lemma generatePPTScript_slides_in_order_witness :
  exists script,
    Llm.generatePPTScript (fun s => s)
      (fun _ => Normal (Llm.JObj [(Llm.K_SLIDES,
                                   Llm.JArr [Llm.JObj []; Llm.JObj []])]))
      (fun _ _ _ => Normal Samples.EMPTY_SLIDES_RESPONSE)
      Analysis.KP_DEFAULT [] [] = Normal script
    /\ length (Llm.slides script) = 2%nat.
Proof.
  destruct (generatePPTScript_slides_in_order (fun s => s)
              (fun _ => Normal (Llm.JObj [(Llm.K_SLIDES,
                                           Llm.JArr [Llm.JObj []; Llm.JObj []])]))
              (fun _ _ _ => Normal Samples.EMPTY_SLIDES_RESPONSE)
              Analysis.KP_DEFAULT [] [] Samples.EMPTY_SLIDES_RESPONSE
              [Llm.JObj []; Llm.JObj []] eq_refl eq_refl)
    as [script [Hs [Hlen _]]].
  - intros slide [<-|[<-|[]]]; eexists; reflexivity.
  - exists script. split; [exact Hs | exact Hlen].
Defined.

(* ===================================================================== *)
(** ** Further properties: the repair of a JSON text *)
(* ===================================================================== *)

Section Repair.

Import Llm JsonText.

Lemma escape_newlines_no_line_feed (s : jsstring) :
  existsb (N.eqb LF) (escape_newlines s) = false.
Proof.
  unfold escape_newlines. induction s as [|c t IH]; [reflexivity|].
  cbn [flat_map]. rewrite existsb_app, IH, orb_false_r.
  destruct (c =? LF)%N eqn:E; [vm_compute; reflexivity|].
  cbn [existsb]. rewrite N.eqb_sym, E. reflexivity.
Qed.

Lemma dropWhile_app_found (f : N -> bool) (a b : jsstring) :
  existsb (fun x => negb (f x)) a = true ->
  dropWhile f (a ++ b) = dropWhile f a ++ b.
Proof.
  induction a as [|x a IH]; simpl; [discriminate|].
  destruct (f x); simpl; [exact IH | reflexivity].
Qed.

Lemma from_first_found (p : N -> bool) (s : jsstring) :
  existsb p s = true ->
  exists c t, from_first p s = c :: t /\ p c = true.
Proof.
  unfold from_first. induction s as [|x s IH]; simpl; [discriminate|].
  destruct (p x) eqn:E; simpl.
  - intros _. exists x, s. auto.
  - exact IH.
Qed.

Lemma through_last_keeps_head (p : N -> bool) (c : N) (rest : jsstring) :
  existsb p rest = true ->
  exists body d, through_last p (c :: rest) = c :: body ++ [d] /\ p d = true.
Proof.
  intro H. unfold through_last. simpl rev.
  assert (Hrev : existsb p (rev rest) = true).
  { apply existsb_exists in H as [x [Hin Hx]]. apply existsb_exists.
    exists x. split; [now apply -> in_rev | exact Hx]. }
  unfold from_first. rewrite dropWhile_app_found.
  - destruct (from_first_found p (rev rest) Hrev) as [d [t [E Hd]]].
    unfold from_first in E. rewrite E. exists (rev t), d.
    split; [|exact Hd]. simpl. rewrite rev_app_distr. reflexivity.
  - apply existsb_exists in Hrev as [x [Hin Hx]]. apply existsb_exists.
    exists x. split; [exact Hin|]. now rewrite Hx.
Qed.

Lemma strip_trailing_commas_keeps_last (m : jsstring) (d : N) :
  (d =? COMMA)%N = false ->
  exists m', strip_trailing_commas (m ++ [d]) = m' ++ [d].
Proof.
  intro Hd. induction m as [|x m IH]; simpl.
  - rewrite Hd. exists []. reflexivity.
  - destruct IH as [m' IH]. rewrite IH.
    destruct ((x =? COMMA)%N && closes (m ++ [d]));
      [exists m' | exists (x :: m')]; reflexivity.
Qed.

Lemma opener_plain (c : N) :
  is_opener c = true -> (c =? COMMA)%N = false /\ (c =? LF)%N = false.
Proof.
  unfold is_opener. intro H.
  apply orb_true_iff in H as [H|H]; apply N.eqb_eq in H; subst c; split;
    reflexivity.
Qed.

Lemma closer_plain (c : N) :
  is_closer c = true -> (c =? COMMA)%N = false /\ (c =? LF)%N = false.
Proof.
  unfold is_closer. intro H.
  apply orb_true_iff in H as [H|H]; apply N.eqb_eq in H; subst c; split;
    reflexivity.
Qed.

End Repair.

(** X22: the repair of a JSON text.  The repaired text never holds a raw
    line feed.  When the response holds an opening brace or bracket and a
    closing one somewhere after the first opening one, the repaired text
    starts with that first opening one and ends with a closing one: what
    surrounds the JSON span is dropped. *)
Theorem fixJsonString_span (str : jsstring) :
  existsb (N.eqb LF) (Llm.fixJsonString str) = false
  /\ forall c rest,
       Llm.from_first JsonText.is_opener str = c :: rest ->
       existsb JsonText.is_closer rest = true ->
       JsonText.is_opener c = true
       /\ exists body d,
            Llm.fixJsonString str = c :: body ++ [d]
            /\ JsonText.is_closer d = true.
Proof.
  split; [apply escape_newlines_no_line_feed|].
  intros c rest Hfirst Hclose.
  assert (Hc : JsonText.is_opener c = true).
  { unfold Llm.from_first in Hfirst.
    destruct (dropWhile_head _ _ _ _ Hfirst) as [H _].
    now apply negb_false_iff in H. }
  split; [exact Hc|].
  assert (Hex : existsb JsonText.is_opener str = true).
  { unfold Llm.from_first in Hfirst.
    destruct (dropWhile_head _ _ _ _ Hfirst) as [_ Hin].
    apply existsb_exists. exists c. auto. }
  unfold Llm.fixJsonString.
  change (fun c0 : N => ((c0 =? Llm.LBRACE) || (c0 =? Llm.LBRACKET))%N)
    with JsonText.is_opener.
  change (fun c0 : N => ((c0 =? Llm.RBRACE) || (c0 =? Llm.RBRACKET))%N)
    with JsonText.is_closer.
  cbv zeta. rewrite Hex, Hfirst.
  replace (existsb JsonText.is_closer (c :: rest)) with true
    by (simpl; rewrite Hclose; now rewrite orb_true_r).
  destruct (through_last_keeps_head JsonText.is_closer c rest Hclose)
    as [body [d [E Hd]]].
  rewrite E.
  destruct (opener_plain c Hc) as [Hc1 Hc2].
  destruct (closer_plain d Hd) as [Hd1 Hd2].
  destruct (strip_trailing_commas_keeps_last body d Hd1) as [m' Hm].
  cbn [Llm.strip_trailing_commas]. rewrite Hc1. cbn [andb]. rewrite Hm.
  unfold Llm.escape_newlines. cbn [flat_map]. rewrite Hc2.
  rewrite flat_map_app. cbn [flat_map]. rewrite Hd2.
  exists (flat_map (fun c0 : N => if (c0 =? LF)%N then [0x5C%N; 0x6E%N] else [c0]) m'), d.
  split; [|exact Hd]. reflexivity.
Qed.

Lemma fixJsonString_span_witness :
  JsonText.is_opener Llm.LBRACE = true
  /\ exists body d,
       Llm.fixJsonString Samples.EMPTY_SLIDES_RESPONSE
       = Llm.LBRACE :: body ++ [d]
       /\ JsonText.is_closer d = true.
Proof.
  apply (proj2 (fixJsonString_span Samples.EMPTY_SLIDES_RESPONSE)
               Llm.LBRACE (tl Samples.EMPTY_SLIDES_RESPONSE));
    vm_compute; reflexivity.
Defined.
